(** * The MessageFormat 2 parser of ICU (i18n/messageformat2_parser.h)

    A shallow embedding of the private [Parser] class of namespace
    [message2]: its cursor over the input [UnicodeString], its internal
    parse-error record, the option and attribute adders, and the recursive
    descent driven by them. *)

From Stdlib Require Import ZArith List Bool Lia String Ascii.
Import ListNotations.
Local Open Scope Z_scope.

(** ** Machine integers

    [index], [line], [offset] and [lengthBeforeCurrentLine] are [uint32_t];
    [UnicodeString] counts and indexes with [int32_t]. *)

Definition UINT32_MOD : Z := 4294967296.
Definition INT32_MAX : Z := 2147483647.

Definition to_uint32 (x : Z) : Z := x mod UINT32_MOD.

Definition to_int32 (x : Z) : Z :=
  let y := x mod UINT32_MOD in
  if y <=? INT32_MAX then y else y - UINT32_MOD.

(** ** UTF-16 *)

(* 16-bit code units and code points. *)
Abbreviation UChar := Z.
Abbreviation UChar32 := Z.

Definition U16_IS_LEAD (c : Z) : bool := (55296 <=? c) && (c <=? 56319).
Definition U16_IS_TRAIL (c : Z) : bool := (56320 <=? c) && (c <=? 57343).
Definition U16_IS_SURROGATE (c : Z) : bool := (55296 <=? c) && (c <=? 57343).

Definition U16_GET_SUPPLEMENTARY (lead trail : Z) : UChar32 :=
  (lead - 55296) * 1024 + (trail - 56320) + 65536.

Definition U16_LENGTH (c : UChar32) : Z := if c <=? 65535 then 1 else 2.

(** Modelled from the spec: [UnicodeString] (unicode/unistr.h) is a type of
    ICU's common library, not under src/.  The spec's Cursor steps "over a
    surrogate pair as a single unit" and returns "a distinguished no character
    sentinel past end-of-input"; the members the parser calls are given here
    with their documented contract: the string is a sequence of 16-bit code
    units, [length] counts code units, [char32At] takes a code unit offset and
    returns the code point that contains that unit, or U+FFFF
    ([kInvalidUChar]) when the offset is not in the string, and [moveIndex32]
    pins a code unit index into the string and moves it by [delta] code
    points. *)
Module UnicodeString.

Abbreviation t := (list UChar).

Definition kInvalidUChar : UChar32 := 65535.

Definition length (s : t) : Z := Z.of_nat (List.length s).

Definition charAt (s : t) (i : Z) : UChar := nth (Z.to_nat i) s 0.

(* U16_GET(array, 0, offset, len, c) *)
Definition U16_GET (s : t) (i : Z) : UChar32 :=
  let c := charAt s i in
  if U16_IS_SURROGATE c then
    if U16_IS_LEAD c then
      if negb (i + 1 =? length s) && U16_IS_TRAIL (charAt s (i + 1))
      then U16_GET_SUPPLEMENTARY c (charAt s (i + 1))
      else c
    else
      if (0 <? i) && U16_IS_LEAD (charAt s (i - 1))
      then U16_GET_SUPPLEMENTARY (charAt s (i - 1)) c
      else c
  else c.

(* [offset] is an int32_t; the bound test compares as uint32_t. *)
Definition char32At (s : t) (offset : Z) : UChar32 :=
  if to_uint32 offset <? to_uint32 (length s) then U16_GET s offset
  else kInvalidUChar.

(* U16_FWD_1(array, index, len) *)
Definition U16_FWD_1 (s : t) (i : Z) : Z :=
  if U16_IS_LEAD (charAt s i) && negb (i + 1 =? length s)
     && U16_IS_TRAIL (charAt s (i + 1))
  then i + 2 else i + 1.

(* U16_BACK_1(array, 0, index) *)
Definition U16_BACK_1 (s : t) (i : Z) : Z :=
  if U16_IS_TRAIL (charAt s (i - 1)) && (0 <? i - 1)
     && U16_IS_LEAD (charAt s (i - 2))
  then i - 2 else i - 1.

(* U16_FWD_N(array, index, len, n): stops at the end of the string. *)
Fixpoint U16_FWD_N (s : t) (i : Z) (n : nat) : Z :=
  match n with
  | O => i
  | S n' => if i <? length s then U16_FWD_N s (U16_FWD_1 s i) n' else i
  end.

(* U16_BACK_N(array, 0, index, n): stops at the start of the string. *)
Fixpoint U16_BACK_N (s : t) (i : Z) (n : nat) : Z :=
  match n with
  | O => i
  | S n' => if 0 <? i then U16_BACK_N s (U16_BACK_1 s i) n' else i
  end.

(* [index] and [delta] are int32_t. *)
Definition moveIndex32 (s : t) (index delta : Z) : Z :=
  let len := length s in
  let index := if index <? 0 then 0 else if len <? index then len else index in
  if 0 <? delta then U16_FWD_N s index (Z.to_nat delta)
  else U16_BACK_N s index (Z.to_nat (- delta)).

(* A string literal of the examples: the code units of an ASCII text. *)
Fixpoint of_string (x : string) : t :=
  match x with
  | EmptyString => []
  | String a x' => Z.of_N (N_of_ascii a) :: of_string x'
  end.

(* The code points of a string, read from its start (U16_NEXT). *)
Fixpoint codePoints_from (fuel : nat) (s : t) (i : Z) : list UChar32 :=
  match fuel with
  | O => []
  | S fuel' =>
      if i <? length s
      then U16_GET s i :: codePoints_from fuel' s (U16_FWD_1 s i)
      else []
  end.

Definition codePoints (s : t) : list UChar32 :=
  codePoints_from (List.length s) s 0.

End UnicodeString.

Definition ustr : string -> UnicodeString.t := UnicodeString.of_string.

(** ** Character classes (namespace unisets) *)

Module unisets.

Inductive Key : Type :=
| CONTENT
| WHITESPACE
| BIDI
| ALPHA
| DIGIT
| NAME_START
| NAME_CHAR
| TEXT
| QUOTED
| ESCAPABLE.

End unisets.

(* A [UnicodeSet] is used through [contains] only. *)
Definition UnicodeSet : Type := UChar32 -> bool.

(** ** Data model (unicode/messageformat2_data_model.h)

    Modelled from the spec: the data model classes and their builders are
    declared in unicode/messageformat2_data_model.h, not under src/.  The
    types follow section 3 of the specification; the builders follow the
    contract of section 6: [addOption] refuses a name it already holds,
    [addAttribute] accepts any name. *)
Module data_model.

Record Literal : Type := mkLiteral {
  isQuoted : bool;
  contents : UnicodeString.t
}.

Inductive Key : Type :=
| Wildcard
| KeyLiteral (l : Literal).

Definition VariableName : Type := UnicodeString.t.
Definition FunctionName : Type := UnicodeString.t.

(* [Operand()] is the null operand: an attribute without a value has it. *)
Inductive Operand : Type :=
| NullOperand
| VariableOperand (v : VariableName)
| LiteralOperand (l : Literal).

Definition OptionMap : Type := list (UnicodeString.t * Operand).

Record Operator : Type := mkOperator {
  functionName : FunctionName;
  operatorOptions : OptionMap
}.

Record Expression : Type := mkExpression {
  operand : Operand;
  operator : option Operator;
  attributes : list (UnicodeString.t * Operand)
}.

Inductive MarkupKind : Type := MarkupOpen | MarkupClose | MarkupStandalone.

Record Markup : Type := mkMarkup {
  markupKind : MarkupKind;
  markupName : UnicodeString.t;
  markupOptions : OptionMap;
  markupAttributes : list (UnicodeString.t * Operand)
}.

(* [PatternError] is the sentinel part that stands for a malformed
   segment of a quoted pattern. *)
Inductive PatternPart : Type :=
| Text (s : UnicodeString.t)
| ExpressionPart (e : Expression)
| MarkupPart (m : Markup)
| ErrorPart.

Definition Pattern : Type := list PatternPart.
Definition SelectorKeys : Type := list Key.

Record Variant : Type := mkVariant {
  keys : SelectorKeys;
  variantPattern : Pattern
}.

Inductive Declaration : Type :=
| Local (v : VariableName) (e : Expression)
| Input (e : Expression)
| Unsupported (keyword : UnicodeString.t) (body : list Expression).

Inductive Body : Type :=
| PatternBody (p : Pattern)
| MatcherBody (selectors : list Expression) (variants : list Variant).

Record MFDataModel : Type := mkMFDataModel {
  declarations : list Declaration;
  body : option Body
}.

End data_model.
Import data_model.

(** ** Errors (messageformat2_errors.h, unicode/utypes.h, unicode/parseerr.h) *)

(* The error kinds of sections 4.3 and 7 of the specification. *)
Inductive ErrorKind : Type :=
| UnexpectedCharacter
| MissingWhitespace
| UnterminatedLiteral
| InvalidEscape
| DuplicateOption
| DuplicateDeclaration
| InvalidInputDeclaration
| ArityMismatch
| MissingCatchAll
| PatternError
| UnsupportedStatement
| UnsupportedAnnotation.

Inductive UErrorCode : Type :=
| U_ZERO_ERROR
| U_ERROR (k : ErrorKind).

Definition U_FAILURE (s : UErrorCode) : bool :=
  match s with U_ZERO_ERROR => false | U_ERROR _ => true end.

(* The accumulated diagnostics, oldest first. *)
Definition StaticErrors : Type := list ErrorKind.

Definition U_PARSE_CONTEXT_LEN : nat := 16.

(* A NUL-terminated UChar array read as a string. *)
Fixpoint cstring (a : list UChar) : list UChar :=
  match a with
  | [] => []
  | c :: a' => if c =? 0 then [] else c :: cstring a'
  end.

Record MessageParseError : Type := mkMessageParseError {
  line : Z;
  offset : Z;
  lengthBeforeCurrentLine : Z;
  preContext : list UChar;
  postContext : list UChar
}.

(** Modelled from the spec: [UParseError] (unicode/parseerr.h) is not under
    src/; the diagnostic of section 6 holds the absolute offset, the line,
    the offset within the line and the two context snippets. *)
Module UParseError.

Record t : Type := mk {
  absoluteOffset : Z;
  line : Z;
  offset : Z;
  preContext : list UChar;
  postContext : list UChar
}.

End UParseError.

(** ** Builders and the adders of the header *)

Definition UnicodeString_eqb (a b : UnicodeString.t) : bool :=
  if list_eq_dec Z.eq_dec a b then true else false.

Definition hasName (k : UnicodeString.t) (m : list (UnicodeString.t * Operand)) : bool :=
  existsb (fun kv => UnicodeString_eqb (fst kv) k) m.

(* The entries of a list that carry the name [k]. *)
Definition entriesNamed (k : UnicodeString.t) (m : list (UnicodeString.t * Operand))
  : list (UnicodeString.t * Operand) :=
  filter (fun kv => UnicodeString_eqb (fst kv) k) m.

(* A builder that takes options, and one that takes attributes: the two
   members the adders call.  [s] is the [UErrorCode&] the call reports
   through. *)
Class OptionBuilder (T : Type) : Type := {
  addOption : UnicodeString.t -> Operand -> UErrorCode -> T -> T * UErrorCode;
  optionsOf : T -> OptionMap
}.

Class AttributeBuilder (T : Type) : Type := {
  addAttribute : UnicodeString.t -> Operand -> UErrorCode -> T -> T * UErrorCode;
  attributesOf : T -> list (UnicodeString.t * Operand)
}.

(* Modelled from the spec: OptionMap::Builder::add, "duplicate name => fatal". *)
Definition OptionMap_add (k : UnicodeString.t) (r : Operand) (s : UErrorCode)
    (m : OptionMap) : OptionMap * UErrorCode :=
  if U_FAILURE s then (m, s)
  else if hasName k m then (m, U_ERROR DuplicateOption)
  else (m ++ [(k, r)], s).

(* Modelled from the spec: the attribute list, "duplicate name => accepted". *)
Definition Attributes_add (k : UnicodeString.t) (r : Operand) (s : UErrorCode)
    (m : list (UnicodeString.t * Operand))
  : list (UnicodeString.t * Operand) * UErrorCode :=
  if U_FAILURE s then (m, s) else (m ++ [(k, r)], s).

(* Operator::Builder, Expression::Builder and Markup::Builder hold the
   parts of the node under construction. *)
#[export] Instance Operator_Builder_options : OptionBuilder Operator := {
  addOption k r s b :=
    let (m, s') := OptionMap_add k r s (operatorOptions b) in
    (mkOperator (functionName b) m, s');
  optionsOf := operatorOptions
}.

#[export] Instance Markup_Builder_options : OptionBuilder Markup := {
  addOption k r s b :=
    let (m, s') := OptionMap_add k r s (markupOptions b) in
    (mkMarkup (markupKind b) (markupName b) m (markupAttributes b), s');
  optionsOf := markupOptions
}.

#[export] Instance Expression_Builder_attributes : AttributeBuilder Expression := {
  addAttribute k r s b :=
    let (m, s') := Attributes_add k r s (attributes b) in
    (mkExpression (operand b) (operator b) m, s');
  attributesOf := attributes
}.

#[export] Instance Markup_Builder_attributes : AttributeBuilder Markup := {
  addAttribute k r s b :=
    let (m, s') := Attributes_add k r s (markupAttributes b) in
    (mkMarkup (markupKind b) (markupName b) (markupOptions b) m, s');
  attributesOf := markupAttributes
}.

(* template <class T> class OptionAdder: holds [T& builder]. *)
Record OptionAdder (T : Type) : Type := mkOptionAdder { optionBuilder : T }.
Arguments mkOptionAdder {T} _.
Arguments optionBuilder {T} _.

Definition OptionAdder_addOption {T : Type} `{OptionBuilder T}
    (a : OptionAdder T) (k : UnicodeString.t) (r : Operand) (s : UErrorCode)
  : OptionAdder T * UErrorCode :=
  let (b, s') := addOption k r s (optionBuilder a) in (mkOptionAdder b, s').

(* template <class T> class AttributeAdder: holds [T& builder]. *)
Record AttributeAdder (T : Type) : Type := mkAttributeAdder { attributeBuilder : T }.
Arguments mkAttributeAdder {T} _.
Arguments attributeBuilder {T} _.

Definition AttributeAdder_addAttribute {T : Type} `{AttributeBuilder T}
    (a : AttributeAdder T) (k : UnicodeString.t) (r : Operand) (s : UErrorCode)
  : AttributeAdder T * UErrorCode :=
  let (b, s') := addAttribute k r s (attributeBuilder a) in (mkAttributeAdder b, s').

(** ** The parser's state

    The members of [class Parser] that change during a parse.  The ten
    [UnicodeSet] pointers and the reference to the input are set by the
    constructor and never written again: they are the parameters
    [unisets_get] and [source] below. *)

Record Parser : Type := mkParser {
  index : Z;
  parseError : MessageParseError;
  errors : StaticErrors;
  normalizedInput : UnicodeString.t;
  dataModel : MFDataModel
}.

Definition set_index (i : Z) (p : Parser) : Parser :=
  mkParser i (parseError p) (errors p) (normalizedInput p) (dataModel p).

Definition set_parseError (e : MessageParseError) (p : Parser) : Parser :=
  mkParser (index p) e (errors p) (normalizedInput p) (dataModel p).

Definition set_errors (e : StaticErrors) (p : Parser) : Parser :=
  mkParser (index p) (parseError p) e (normalizedInput p) (dataModel p).

Definition set_normalizedInput (n : UnicodeString.t) (p : Parser) : Parser :=
  mkParser (index p) (parseError p) (errors p) n (dataModel p).

Definition set_dataModel (d : MFDataModel) (p : Parser) : Parser :=
  mkParser (index p) (parseError p) (errors p) (normalizedInput p) d.

(* [a[0] = '\0'] on an array whose other cells keep what they held. *)
Definition store0 (a : list UChar) : list UChar := 0 :: tl a.

(* The constructor.  [pre] and [post] are what the memory of the two
   context arrays holds when the object is created. *)
Definition Parser_new (dataModelBuilder : MFDataModel) (e : StaticErrors)
    (normalizedInputRef : UnicodeString.t) (pre post : list UChar) : Parser :=
  {| index := 0;
     parseError := {| line := 0; offset := 0; lengthBeforeCurrentLine := 0;
                      preContext := store0 pre; postContext := store0 post |};
     errors := e;
     normalizedInput := normalizedInputRef;
     dataModel := dataModelBuilder |}.

(* static void setParseError(MessageParseError&, uint32_t).
   Modelled from the spec: the offset within the line is the absolute
   offset less what precedes the current line. *)
Definition setParseError (e : MessageParseError) (i : Z) : MessageParseError :=
  {| line := line e;
     offset := to_uint32 (i - lengthBeforeCurrentLine e);
     lengthBeforeCurrentLine := lengthBeforeCurrentLine e;
     preContext := preContext e;
     postContext := postContext e |}.

(* static void translateParseError(const MessageParseError&, UParseError&).
   Modelled from the spec: section 4.3. *)
Definition translateParseError (e : MessageParseError) : UParseError.t :=
  {| UParseError.absoluteOffset := to_uint32 (lengthBeforeCurrentLine e + offset e);
     UParseError.line := line e;
     UParseError.offset := offset e;
     UParseError.preContext := cstring (preContext e);
     UParseError.postContext := cstring (postContext e) |}.

(* Code points of the grammar. *)
Definition LF : UChar32 := 10.
Definition SPACE : UChar32 := 32.
Definition NUMBER_SIGN : UChar32 := 35.
Definition DOLLAR : UChar32 := 36.
Definition ASTERISK : UChar32 := 42.
Definition PLUS : UChar32 := 43.
Definition HYPHEN : UChar32 := 45.
Definition PERIOD : UChar32 := 46.
Definition SLASH : UChar32 := 47.
Definition COLON : UChar32 := 58.
Definition EQUALS : UChar32 := 61.
Definition AT : UChar32 := 64.
Definition BACKSLASH : UChar32 := 92.
Definition LEFT_CURLY_BRACE : UChar32 := 123.
Definition PIPE : UChar32 := 124.
Definition RIGHT_CURLY_BRACE : UChar32 := 125.

(* Modelled from the spec: the sigils that open a reserved annotation
   ("!", "%", "*", "+", "<", ">", "?", "~") and a private-use annotation
   ("^", "&") in the MessageFormat 2 grammar. *)
Definition isReservedStart (c : UChar32) : bool :=
  (c =? 33) || (c =? 37) || (c =? 42) || (c =? 43)
  || (c =? 60) || (c =? 62) || (c =? 63) || (c =? 126).

Definition isPrivateStart (c : UChar32) : bool := (c =? 94) || (c =? 38).

Definition isAnnotationMarker (c : UChar32) : bool :=
  isReservedStart c || isPrivateStart c.

Definition ID_INPUT : UnicodeString.t := ustr ".input".
Definition ID_LOCAL : UnicodeString.t := ustr ".local".
Definition ID_MATCH : UnicodeString.t := ustr ".match".

(* UnicodeString::operator+=(UChar32), by U16_APPEND: one unit for a value
   up to U+FFFF, a surrogate pair up to U+10FFFF, and nothing for a value
   that is no code point. *)
Definition append32 (s : UnicodeString.t) (c : UChar32) : UnicodeString.t :=
  if (0 <=? c) && (c <=? 65535) then s ++ [c]
  else if (65536 <=? c) && (c <=? 1114111) then
    s ++ [55296 + (c - 65536) / 1024; 56320 + (c - 65536) mod 1024]
  else s.

(** ** The parser monad: state, fatal errors, and fuel for the loops *)

Inductive Outcome (A : Type) : Type :=
| Ok (a : A) (p : Parser)
| Fatal (k : ErrorKind) (p : Parser)
| OutOfFuel.
Arguments Ok {A} _ _.
Arguments Fatal {A} _ _.
Arguments OutOfFuel {A}.

Definition M (A : Type) : Type := Parser -> Outcome A.

Definition ret {A : Type} (a : A) : M A := fun p => Ok a p.

Definition bind {A B : Type} (m : M A) (k : A -> M B) : M B :=
  fun p =>
    match m p with
    | Ok a p' => k a p'
    | Fatal e p' => Fatal e p'
    | OutOfFuel => OutOfFuel
    end.

Notation "x <- m ;; k" := (bind m (fun x => k))
  (at level 61, m at next level, right associativity).
Notation "m ;; k" := (bind m (fun _ => k))
  (at level 61, right associativity).

Definition gets {A : Type} (f : Parser -> A) : M A := fun p => Ok (f p) p.
Definition modify (f : Parser -> Parser) : M unit := fun p => Ok tt (f p).

Inductive LoopStep (A : Type) : Type :=
| Continue (a : A)
| Break (a : A).
Arguments Continue {A} _.
Arguments Break {A} _.

(* [while (true) { body }] run for at most [fuel] iterations. *)
Fixpoint loop {A : Type} (fuel : nat) (body : A -> M (LoopStep A)) (a : A) : M A :=
  match fuel with
  | O => fun _ => OutOfFuel
  | S fuel' =>
      fun p =>
        match body a p with
        | Ok (Continue a') p' => loop fuel' body a' p'
        | Ok (Break a') p' => Ok a' p'
        | Fatal e p' => Fatal e p'
        | OutOfFuel => OutOfFuel
        end
  end.

Section ParserSection.

(* U_I18N_API const UnicodeSet* unisets::get(Key key, UErrorCode& status) *)
Variable unisets_get : unisets.Key -> UnicodeSet.

(* const UnicodeString &source *)
Variable source : UnicodeString.t.

(** *** The cursor (inline members of the header) *)

Definition peek (p : Parser) : UChar32 :=
  UnicodeString.char32At source (to_int32 (index p)).

Definition peek_n (p : Parser) (i : Z) : UChar32 :=
  UnicodeString.char32At source
    (UnicodeString.moveIndex32 source (to_int32 (index p)) (to_int32 i)).

Definition next (p : Parser) : Parser :=
  set_index (to_uint32 (UnicodeString.moveIndex32 source (to_int32 (index p)) 1)) p.

Definition inBounds (p : Parser) : bool :=
  to_int32 (index p) <? UnicodeString.length source.

Definition inBounds_n (p : Parser) (i : Z) : bool :=
  UnicodeString.moveIndex32 source (to_int32 (index p)) (to_int32 i)
  <? UnicodeString.length source.

Definition allConsumed (p : Parser) : bool :=
  to_int32 (index p) =? UnicodeString.length source.

(** *** Character classes *)

Definition isContentChar (c : UChar32) : bool := unisets_get unisets.CONTENT c.
Definition isBidiControl (c : UChar32) : bool := unisets_get unisets.BIDI c.
Definition isWhitespace (c : UChar32) : bool := unisets_get unisets.WHITESPACE c.
Definition isTextChar (c : UChar32) : bool := unisets_get unisets.TEXT c.
Definition isQuotedChar (c : UChar32) : bool := unisets_get unisets.QUOTED c.
Definition isEscapableChar (c : UChar32) : bool := unisets_get unisets.ESCAPABLE c.
Definition isAlpha (c : UChar32) : bool := unisets_get unisets.ALPHA c.
Definition isDigit (c : UChar32) : bool := unisets_get unisets.DIGIT c.
Definition isNameStart (c : UChar32) : bool := unisets_get unisets.NAME_START c.
Definition isNameChar (c : UChar32) : bool := unisets_get unisets.NAME_CHAR c.

(* Modelled from the spec: the derived predicates of section 4.1. *)
Definition isUnquotedStart (c : UChar32) : bool :=
  isNameStart c || isDigit c || (c =? HYPHEN).
Definition isLiteralStart (c : UChar32) : bool :=
  (c =? PIPE) || isUnquotedStart c.
Definition isKeyStart (c : UChar32) : bool :=
  (c =? ASTERISK) || isLiteralStart c.

(** *** Error reporting

    Modelled from the spec: [maybeAdvanceLine] and the recording of errors
    are defined in messageformat2_parser.cpp, not under src/; section 4.3. *)

Definition maybeAdvanceLine (p : Parser) : Parser :=
  if peek p =? LF then
    let e := parseError p in
    set_parseError
      {| line := to_uint32 (line e + 1);
         offset := offset e;
         lengthBeforeCurrentLine := to_uint32 (index p + 1);
         preContext := preContext e;
         postContext := postContext e |} p
  else p.

(* The parse stops with the error [k], located at the code unit offset [i]. *)
Definition abortAt {A : Type} (i : Z) (k : ErrorKind) : M A :=
  fun p => Fatal k (set_parseError (setParseError (parseError p) i) p).

(* A fatal error of kind [k] located at the code unit offset [i]. *)
Definition fatalAt {A : Type} (i : Z) (k : ErrorKind) : M A :=
  fun p => abortAt i k (set_errors (errors p ++ [k]) p).

(* A fatal error at the cursor. *)
Definition fatal {A : Type} (k : ErrorKind) : M A :=
  fun p => fatalAt (index p) k p.

(* An error that does not stop the parse. *)
Definition addError (k : ErrorKind) : M unit :=
  modify (fun p => set_errors (errors p ++ [k]) p).

Definition normalize (c : UChar32) : M unit :=
  modify (fun p => set_normalizedInput (append32 (normalizedInput p) c) p).

(* A loop over the input: no loop of the parser runs longer than the
   input that is left when it starts, plus the iteration that leaves it. *)
Definition while {A : Type} (body : A -> M (LoopStep A)) (a : A) : M A :=
  fun p =>
    loop (S (Z.to_nat (UnicodeString.length source - index p))) body a p.

(** *** The grammar

    Modelled from the spec: the member functions below are declared in the
    header and defined in messageformat2_parser.cpp, which is not under
    src/.  Each keeps its declared name and follows section 4.4 of the
    specification. *)

(* The number of code points of whitespace and bidi controls ahead of the
   cursor, counted from the [n]-th code point on, by [peek(n)] and
   [inBounds(n)] alone: the cursor does not move. *)
Fixpoint lookahead (fuel : nat) (p : Parser) (n : Z) : Z :=
  match fuel with
  | O => n
  | S fuel' =>
      if inBounds_n p n
         && (isWhitespace (peek_n p n) || isBidiControl (peek_n p n))
      then lookahead fuel' p (n + 1)
      else n
  end.

Definition afterWhitespace (p : Parser) (n : Z) : Z :=
  lookahead (Z.to_nat (UnicodeString.length source - index p)) p n.

(* [inBounds(n) && pred(peek(n))] *)
Definition peekIs (n : Z) (pred : UChar32 -> bool) : M bool :=
  gets (fun p => inBounds_n p n && pred (peek_n p n)).

Definition atCursor (pred : UChar32 -> bool) : M bool :=
  gets (fun p => inBounds p && pred (peek p)).

(* [maybeAdvanceLine(); next();] *)
Definition consume : M unit :=
  modify maybeAdvanceLine ;;
  modify next.

(* Consumes the code point at the cursor and copies it to the normalized
   input. *)
Definition take : M UChar32 :=
  c <- gets peek ;;
  normalize c ;;
  consume ;;
  ret c.

Definition parseOptionalBidi : M unit :=
  while (fun _ : unit =>
    b <- atCursor isBidiControl ;;
    if b then (c <- gets peek ;; normalize c ;; modify next ;; ret (Continue tt))
    else ret (Break tt)) tt.

(* Passes over the whitespace and the bidi controls at the cursor, a run
   that may be empty: the bidi controls are copied to the normalized
   input, the whitespace is not.  The result tells whether the run held
   whitespace. *)
Definition skipWhitespace : M bool :=
  while (fun saw : bool =>
    w <- atCursor isWhitespace ;;
    if w then (consume ;; ret (Continue true))
    else
      b <- atCursor isBidiControl ;;
      if b then (c <- gets peek ;; normalize c ;; modify next ;; ret (Continue saw))
      else ret (Break saw)) false.

(* A run of optional whitespace is collapsed to one separator, U+0020. *)
Definition parseOptionalWhitespace : M unit :=
  sawWhitespace <- skipWhitespace ;;
  if sawWhitespace : bool then normalize SPACE else ret tt.

Definition parseRequiredWS : M unit :=
  sawWhitespace <-
    while (fun saw : bool =>
      w <- atCursor isWhitespace ;;
      if w then (consume ;; ret (Continue true))
      else ret (Break saw)) false ;;
  if sawWhitespace : bool then ret tt else fatal MissingWhitespace.

(* Required whitespace, with the optional whitespace that follows it, is
   one run: it leaves one separator. *)
Definition parseRequiredWhitespace : M unit :=
  parseOptionalBidi ;;
  parseRequiredWS ;;
  _ <- skipWhitespace ;;
  normalize SPACE.

Definition parseToken (c : UChar32) : M unit :=
  b <- atCursor (Z.eqb c) ;;
  if b then (normalize c ;; modify next) else fatal UnexpectedCharacter.

Definition parseTokenWithWhitespace (c : UChar32) : M unit :=
  parseOptionalWhitespace ;;
  parseToken c ;;
  parseOptionalWhitespace.

Fixpoint parseToken_str (token : UnicodeString.t) : M unit :=
  match token with
  | [] => ret tt
  | c :: token' => parseToken c ;; parseToken_str token'
  end.

Definition parseTokenWithWhitespace_str (token : UnicodeString.t) : M unit :=
  parseOptionalWhitespace ;;
  parseToken_str token ;;
  parseOptionalWhitespace.

Fixpoint nextIs_from (p : Parser) (n : Z) (token : UnicodeString.t) : bool :=
  match token with
  | [] => true
  | c :: token' =>
      inBounds_n p n && (peek_n p n =? c) && nextIs_from p (n + 1) token'
  end.

Definition nextIs (token : UnicodeString.t) (p : Parser) : bool :=
  nextIs_from p 0 token.

(* One or more code points of a class, after a first one of class [first]. *)
Definition parseRun (first rest : UChar32 -> bool) : M UnicodeString.t :=
  b <- atCursor first ;;
  if b then
    c <- take ;;
    while (fun acc : UnicodeString.t =>
      b' <- atCursor rest ;;
      if b' then (c' <- take ;; ret (Continue (append32 acc c')))
      else ret (Break acc)) (append32 [] c)
  else fatal UnexpectedCharacter.

Definition parseName : M UnicodeString.t := parseRun isNameStart isNameChar.

Definition parseDigits : M UnicodeString.t := parseRun isDigit isDigit.

Definition parseIdentifier : M UnicodeString.t :=
  n1 <- parseName ;;
  b <- atCursor (Z.eqb COLON) ;;
  if b then
    parseToken COLON ;;
    n2 <- parseName ;;
    ret (n1 ++ [COLON] ++ n2)
  else ret n1.

Definition parseVariableName : M VariableName :=
  parseToken DOLLAR ;;
  parseName.

Definition parseFunction : M FunctionName :=
  parseToken COLON ;;
  parseIdentifier.

Definition parseEscapeSequence : M UnicodeString.t :=
  parseToken BACKSLASH ;;
  b <- atCursor isEscapableChar ;;
  if b then (c <- take ;; ret (append32 [] c)) else fatal InvalidEscape.

(* Optional [token], copied to [acc] when present. *)
Definition parseOptionalSign (acc : UnicodeString.t) (sign : UChar32 -> bool)
  : M UnicodeString.t :=
  b <- atCursor sign ;;
  if b then (c <- take ;; ret (append32 acc c)) else ret acc.

Definition isExponentMarker (c : UChar32) : bool := (c =? 101) || (c =? 69).

Definition parseUnquotedLiteral : M Literal :=
  b <- atCursor isNameStart ;;
  if b then (n <- parseName ;; ret (mkLiteral false n))
  else
    sign <- parseOptionalSign [] (Z.eqb HYPHEN) ;;
    int <- parseDigits ;;
    hasFraction <- atCursor (Z.eqb PERIOD) ;;
    fraction <-
      (if hasFraction : bool then
         (parseToken PERIOD ;; d <- parseDigits ;; ret (PERIOD :: d))
       else ret []) ;;
    hasExponent <- atCursor isExponentMarker ;;
    exponent <-
      (if hasExponent : bool then
         (e <- take ;;
          s <- parseOptionalSign (append32 [] e)
                 (fun c => (c =? HYPHEN) || (c =? PLUS)) ;;
          d <- parseDigits ;;
          ret (s ++ d))
       else ret []) ;;
    ret (mkLiteral false (sign ++ int ++ fraction ++ exponent)).

Definition parseQuotedLiteral : M Literal :=
  parseToken PIPE ;;
  s <- while (fun acc : UnicodeString.t =>
         inb <- gets inBounds ;;
         if inb : bool then
           c <- gets peek ;;
           if c =? BACKSLASH then
             (e <- parseEscapeSequence ;; ret (Continue (acc ++ e)))
           else if c =? PIPE then ret (Break acc)
           else if isQuotedChar c then
             (c' <- take ;; ret (Continue (append32 acc c')))
           else fatal UnexpectedCharacter
         else fatal UnterminatedLiteral) [] ;;
  parseToken PIPE ;;
  ret (mkLiteral true s).

Definition parseLiteral : M Literal :=
  b <- atCursor (Z.eqb PIPE) ;;
  if b then parseQuotedLiteral else parseUnquotedLiteral.

(* The operand of an option: a variable or a literal. *)
Definition parseOperand : M Operand :=
  b <- atCursor (Z.eqb DOLLAR) ;;
  if b then (v <- parseVariableName ;; ret (VariableOperand v))
  else (l <- parseLiteral ;; ret (LiteralOperand l)).

(* The text of an option: [identifier "=" operand]. *)
Definition optionSyntax : M (UnicodeString.t * Operand) :=
  lhs <- parseIdentifier ;;
  parseTokenWithWhitespace EQUALS ;;
  rand <- parseOperand ;;
  ret (lhs, rand).

(* template<class T> void parseOption(OptionAdder<T>&, UErrorCode&) *)
Definition parseOption {T : Type} `{OptionBuilder T} (adder : OptionAdder T)
  : M (OptionAdder T) :=
  start <- gets index ;;
  kv <- optionSyntax ;;
  (* a local error code: a refused option is reported where it started *)
  let (adder', status) :=
    OptionAdder_addOption adder (fst kv) (snd kv) U_ZERO_ERROR in
  match status with
  | U_ZERO_ERROR => ret adder'
  | U_ERROR k => fatalAt start k
  end.

(* template<class T> void parseOptions(OptionAdder<T>&, UErrorCode&) *)
Definition parseOptions {T : Type} `{OptionBuilder T} (adder : OptionAdder T)
  : M (OptionAdder T) :=
  while (fun a : OptionAdder T =>
    n <- gets (fun p => afterWhitespace p 0) ;;
    more <- peekIs n isNameStart ;;
    if (0 <? n) && more then
      (parseRequiredWhitespace ;; a' <- parseOption a ;; ret (Continue a'))
    else ret (Break a)) adder.

(* The text of an attribute: ["@" identifier ["=" literal]]. *)
Definition attributeSyntax : M (UnicodeString.t * Operand) :=
  parseToken AT ;;
  lhs <- parseIdentifier ;;
  n <- gets (fun p => afterWhitespace p 0) ;;
  hasValue <- peekIs n (Z.eqb EQUALS) ;;
  rand <-
    (if hasValue : bool then
       (parseTokenWithWhitespace EQUALS ;; l <- parseLiteral ;; ret (LiteralOperand l))
     else ret NullOperand) ;;
  ret (lhs, rand).

(* template<class T> void parseAttribute(AttributeAdder<T>&, UErrorCode&) *)
Definition parseAttribute {T : Type} `{AttributeBuilder T} (adder : AttributeAdder T)
  : M (AttributeAdder T) :=
  kv <- attributeSyntax ;;
  let (adder', status) :=
    AttributeAdder_addAttribute adder (fst kv) (snd kv) U_ZERO_ERROR in
  match status with
  | U_ZERO_ERROR => ret adder'
  | U_ERROR k => fatal k
  end.

(* template<class T> void parseAttributes(AttributeAdder<T>&, UErrorCode&) *)
Definition parseAttributes {T : Type} `{AttributeBuilder T} (adder : AttributeAdder T)
  : M (AttributeAdder T) :=
  while (fun a : AttributeAdder T =>
    n <- gets (fun p => afterWhitespace p 0) ;;
    more <- peekIs n (Z.eqb AT) ;;
    if (0 <? n) && more then
      (parseRequiredWhitespace ;; a' <- parseAttribute a ;; ret (Continue a'))
    else ret (Break a)) adder.

Definition parseAnnotation : M Operator :=
  f <- parseFunction ;;
  a <- parseOptions (mkOptionAdder (mkOperator f [])) ;;
  ret (optionBuilder a).

(* A reserved or private-use annotation is opaque: a sigil and a body of
   reserved characters, escape sequences and quoted literals, separated by
   optional whitespace.  It is passed over, and reported as an unsupported
   annotation; the parse goes on. *)
Definition isReservedChar (c : UChar32) : bool := isContentChar c || (c =? PERIOD).

Definition isReservedBodyStart (c : UChar32) : bool :=
  (c =? BACKSLASH) || (c =? PIPE) || isReservedChar c.

Definition parseReservedChunk : M unit :=
  c <- gets peek ;;
  if c =? BACKSLASH then (_ <- parseEscapeSequence ;; ret tt)
  else if c =? PIPE then (_ <- parseQuotedLiteral ;; ret tt)
  else
    b <- atCursor isReservedChar ;;
    if b then (_ <- take ;; ret tt) else fatal UnexpectedCharacter.

Definition parseReservedBody : M unit :=
  while (fun _ : unit =>
    n <- gets (fun p => afterWhitespace p 0) ;;
    more <- peekIs n isReservedBodyStart ;;
    if more : bool then
      (parseOptionalWhitespace ;; parseReservedChunk ;; ret (Continue tt))
    else ret (Break tt)) tt.

Definition parseReservedAnnotation : M unit :=
  b <- atCursor isAnnotationMarker ;;
  if b then
    _ <- take ;;
    parseReservedBody ;;
    addError UnsupportedAnnotation
  else fatal UnexpectedCharacter.

(* void parseLiteralOrVariableWithAnnotation(bool, Expression::Builder&, UErrorCode&) *)
Definition parseLiteralOrVariableWithAnnotation (isVariable : bool)
    (builder : Expression) : M Expression :=
  rand <-
    (if isVariable then (v <- parseVariableName ;; ret (VariableOperand v))
     else (l <- parseLiteral ;; ret (LiteralOperand l))) ;;
  n <- gets (fun p => afterWhitespace p 0) ;;
  annotated <- peekIs n (Z.eqb COLON) ;;
  reserved <- peekIs n isAnnotationMarker ;;
  if (0 <? n) && annotated then
    parseRequiredWhitespace ;;
    op <- parseAnnotation ;;
    ret (mkExpression rand (Some op) (attributes builder))
  else if (0 <? n) && reserved then
    parseRequiredWhitespace ;;
    parseReservedAnnotation ;;
    ret (mkExpression rand None (attributes builder))
  else ret (mkExpression rand None (attributes builder)).

Definition parseExpression : M Expression :=
  parseToken LEFT_CURLY_BRACE ;;
  parseOptionalWhitespace ;;
  isVar <- atCursor (Z.eqb DOLLAR) ;;
  isLit <- atCursor isLiteralStart ;;
  isFun <- atCursor (Z.eqb COLON) ;;
  isReserved <- atCursor isAnnotationMarker ;;
  builder <-
    (if isVar : bool then
       parseLiteralOrVariableWithAnnotation true (mkExpression NullOperand None [])
     else if isLit : bool then
       parseLiteralOrVariableWithAnnotation false (mkExpression NullOperand None [])
     else if isFun : bool then
       (op <- parseAnnotation ;; ret (mkExpression NullOperand (Some op) []))
     else if isReserved : bool then
       (parseReservedAnnotation ;; ret (mkExpression NullOperand None []))
     else fatal UnexpectedCharacter) ;;
  a <- parseAttributes (mkAttributeAdder builder) ;;
  parseOptionalWhitespace ;;
  parseToken RIGHT_CURLY_BRACE ;;
  ret (attributeBuilder a).

Definition parseMarkup : M Markup :=
  parseToken LEFT_CURLY_BRACE ;;
  parseOptionalWhitespace ;;
  closing <- atCursor (Z.eqb SLASH) ;;
  (if closing : bool then parseToken SLASH else parseToken NUMBER_SIGN) ;;
  name <- parseIdentifier ;;
  withOptions <-
    (if closing : bool then
       (* options are forbidden on a closing tag *)
       n <- gets (fun p => afterWhitespace p 0) ;;
       more <- peekIs n isNameStart ;;
       (if (0 <? n) && more then
          (parseRequiredWhitespace ;; fatal UnexpectedCharacter)
        else ret (mkOptionAdder (mkMarkup MarkupClose name [] [])))
     else parseOptions (mkOptionAdder (mkMarkup MarkupOpen name [] []))) ;;
  a <- parseAttributes (mkAttributeAdder (optionBuilder withOptions)) ;;
  parseOptionalWhitespace ;;
  selfClose <- atCursor (Z.eqb SLASH) ;;
  kind <-
    (if (negb closing) && selfClose then (parseToken SLASH ;; ret MarkupStandalone)
     else ret (markupKind (attributeBuilder a))) ;;
  parseToken RIGHT_CURLY_BRACE ;;
  let m := attributeBuilder a in
  ret (mkMarkup kind (markupName m) (markupOptions m) (markupAttributes m)).

(* std::variant<Expression, Markup> parsePlaceholder(UErrorCode&) *)
Definition parsePlaceholder : M PatternPart :=
  n <- gets (fun p => afterWhitespace p 1) ;;
  isMarkup <- peekIs n (fun c => (c =? NUMBER_SIGN) || (c =? SLASH)) ;;
  if isMarkup : bool then (m <- parseMarkup ;; ret (MarkupPart m))
  else (e <- parseExpression ;; ret (ExpressionPart e)).

Definition parseTextChar : M UnicodeString.t :=
  b <- atCursor (fun c => isTextChar c || isBidiControl c) ;;
  if b then (c <- take ;; ret (append32 [] c)) else fatal UnexpectedCharacter.

Definition parseSimpleMessage : M Pattern :=
  while (fun acc : Pattern =>
    inb <- gets inBounds ;;
    if inb : bool then
      c <- gets peek ;;
      if c =? LEFT_CURLY_BRACE then
        (part <- parsePlaceholder ;; ret (Continue (acc ++ [part])))
      else if c =? BACKSLASH then
        (e <- parseEscapeSequence ;; ret (Continue (acc ++ [Text e])))
      else (t <- parseTextChar ;; ret (Continue (acc ++ [Text t])))
    else ret (Break acc)) [].

(* The sentinel part for a code point a pattern cannot hold: the error is
   recorded, the code point is passed over, and the parse goes on. *)
Definition errorPattern : M PatternPart :=
  addError PatternError ;;
  _ <- take ;;
  ret ErrorPart.

Definition parseQuotedPattern : M Pattern :=
  parseToken LEFT_CURLY_BRACE ;;
  parseToken LEFT_CURLY_BRACE ;;
  parts <- while (fun acc : Pattern =>
    inb <- gets inBounds ;;
    if inb : bool then
      c <- gets peek ;;
      if c =? LEFT_CURLY_BRACE then
        (part <- parsePlaceholder ;; ret (Continue (acc ++ [part])))
      else if c =? BACKSLASH then
        (e <- parseEscapeSequence ;; ret (Continue (acc ++ [Text e])))
      else if c =? RIGHT_CURLY_BRACE then ret (Break acc)
      else if isTextChar c || isBidiControl c then
        (t <- parseTextChar ;; ret (Continue (acc ++ [Text t])))
      else (part <- errorPattern ;; ret (Continue (acc ++ [part])))
    else ret (Break acc)) [] ;;
  parseToken RIGHT_CURLY_BRACE ;;
  parseToken RIGHT_CURLY_BRACE ;;
  ret parts.

Definition parseKey : M Key :=
  b <- atCursor (Z.eqb ASTERISK) ;;
  if b then (parseToken ASTERISK ;; ret Wildcard)
  else (l <- parseLiteral ;; ret (KeyLiteral l)).

Definition parseNonEmptyKeys : M SelectorKeys :=
  k <- parseKey ;;
  while (fun acc : SelectorKeys =>
    n <- gets (fun p => afterWhitespace p 0) ;;
    more <- peekIs n isKeyStart ;;
    if (0 <? n) && more then
      (parseRequiredWhitespace ;; k' <- parseKey ;; ret (Continue (acc ++ [k'])))
    else ret (Break acc)) [k].

Definition parseVariant : M Variant :=
  ks <- parseNonEmptyKeys ;;
  parseOptionalWhitespace ;;
  pat <- parseQuotedPattern ;;
  ret (mkVariant ks pat).

(* MFDataModel::Builder: append-declaration and set-body. *)
Definition addDeclaration (d : Declaration) : M unit :=
  modify (fun p =>
    set_dataModel
      (mkMFDataModel (declarations (dataModel p) ++ [d]) (body (dataModel p))) p).

Definition setBody (b : Body) : M unit :=
  modify (fun p =>
    set_dataModel (mkMFDataModel (declarations (dataModel p)) (Some b)) p).

Definition isWildcard (k : Key) : bool :=
  match k with Wildcard => true | KeyLiteral _ => false end.

Definition keyCountDiffers (selectors : list Expression) (v : Variant) : bool :=
  negb (Nat.eqb (List.length (keys v)) (List.length selectors)).

Definition allWildcards (v : Variant) : bool := forallb isWildcard (keys v).

(* The two structural checks at the end of a matcher: each condition that
   is violated is recorded, and the parse stops if one was. *)
Definition checkMatcher (selectors : list Expression) (variants : list Variant)
  : M unit :=
  let mismatch := existsb (keyCountDiffers selectors) variants in
  let noCatchAll := negb (existsb allWildcards variants) in
  (if mismatch then addError ArityMismatch else ret tt) ;;
  (if noCatchAll then addError MissingCatchAll else ret tt) ;;
  i <- gets index ;;
  if mismatch then abortAt i ArityMismatch
  else if noCatchAll then abortAt i MissingCatchAll
  else ret tt.

(* The selectors and the variants of a matcher, before the checks. *)
Definition parseMatcherSyntax : M (list Expression * list Variant) :=
  parseToken_str ID_MATCH ;;
  selectors <- while (fun acc : list Expression =>
    n <- gets (fun p => afterWhitespace p 0) ;;
    more <- peekIs n (Z.eqb LEFT_CURLY_BRACE) ;;
    if more : bool then
      (parseOptionalWhitespace ;; e <- parseExpression ;; ret (Continue (acc ++ [e])))
    else ret (Break acc)) [] ;;
  match selectors with
  | [] => parseOptionalWhitespace ;; fatal UnexpectedCharacter
  | _ :: _ =>
      variants <- while (fun acc : list Variant =>
        n <- gets (fun p => afterWhitespace p 0) ;;
        more <- peekIs n isKeyStart ;;
        if more : bool then
          (parseOptionalWhitespace ;; v <- parseVariant ;; ret (Continue (acc ++ [v])))
        else ret (Break acc)) [] ;;
      match variants with
      | [] => parseOptionalWhitespace ;; fatal UnexpectedCharacter
      | _ :: _ => ret (selectors, variants)
      end
  end.

Definition parseSelectors : M unit :=
  sv <- parseMatcherSyntax ;;
  checkMatcher (fst sv) (snd sv) ;;
  setBody (MatcherBody (fst sv) (snd sv)).

Definition declaredLocals (d : MFDataModel) : list VariableName :=
  flat_map (fun decl => match decl with Local v _ => [v] | _ => [] end)
           (declarations d).

Definition parseLocalDeclaration : M unit :=
  parseToken_str ID_LOCAL ;;
  parseRequiredWhitespace ;;
  start <- gets index ;;
  v <- parseVariableName ;;
  duplicate <- gets (fun p => existsb (UnicodeString_eqb v) (declaredLocals (dataModel p))) ;;
  if duplicate : bool then fatalAt start DuplicateDeclaration
  else
    parseTokenWithWhitespace EQUALS ;;
    e <- parseExpression ;;
    addDeclaration (Local v e).

Definition parseInputDeclaration : M unit :=
  parseToken_str ID_INPUT ;;
  parseOptionalWhitespace ;;
  start <- gets index ;;
  e <- parseExpression ;;
  match operand e with
  | VariableOperand _ => addDeclaration (Input e)
  | _ => fatalAt start InvalidInputDeclaration
  end.

Definition parseUnsupportedStatement : M unit :=
  parseToken PERIOD ;;
  keyword <- parseName ;;
  exprs <- while (fun acc : list Expression =>
    n <- gets (fun p => afterWhitespace p 0) ;;
    open <- peekIs n (Z.eqb LEFT_CURLY_BRACE) ;;
    quoted <- peekIs (n + 1) (Z.eqb LEFT_CURLY_BRACE) ;;
    if open && negb quoted then
      (parseOptionalWhitespace ;; e <- parseExpression ;; ret (Continue (acc ++ [e])))
    else ret (Break acc)) [] ;;
  addError UnsupportedStatement ;;
  addDeclaration (Unsupported keyword exprs).

Definition isDeclarationStart (p : Parser) : bool :=
  inBounds p && (peek p =? PERIOD) && negb (nextIs ID_MATCH p).

Definition parseDeclarations : M unit :=
  while (fun _ : unit =>
    b <- gets isDeclarationStart ;;
    if b : bool then
      isLocal <- gets (nextIs ID_LOCAL) ;;
      isInput <- gets (nextIs ID_INPUT) ;;
      (if isLocal : bool then parseLocalDeclaration
       else if isInput : bool then parseInputDeclaration
       else parseUnsupportedStatement) ;;
      parseRequiredWhitespace ;;
      ret (Continue tt)
    else ret (Break tt)) tt.

Definition parseBody : M unit :=
  quoted <- atCursor (Z.eqb LEFT_CURLY_BRACE) ;;
  if quoted : bool then (pat <- parseQuotedPattern ;; setBody (PatternBody pat))
  else
    matcher <- gets (nextIs ID_MATCH) ;;
    if matcher : bool then parseSelectors else fatal UnexpectedCharacter.

(* The message opens, after whitespace, with a declaration or matcher
   marker or with a quoted pattern. *)
Definition isComplex (p : Parser) : bool :=
  let n := afterWhitespace p 0 in
  inBounds_n p n
  && ((peek_n p n =? PERIOD)
      || ((peek_n p n =? LEFT_CURLY_BRACE)
          && inBounds_n p (n + 1) && (peek_n p (n + 1) =? LEFT_CURLY_BRACE))).

Definition parseMessage : M unit :=
  complex <- gets isComplex ;;
  (if complex : bool then
     parseOptionalWhitespace ;;
     parseDeclarations ;;
     parseBody ;;
     parseOptionalWhitespace
   else (pat <- parseSimpleMessage ;; setBody (PatternBody pat))) ;;
  consumed <- gets allConsumed ;;
  if consumed : bool then ret tt else fatal UnexpectedCharacter.

(* void parse(UParseError&, UErrorCode&): what the two out-parameters and
   the parser hold when it returns. *)
Record ParseResult : Type := mkParseResult {
  status : UErrorCode;
  diagnostic : UParseError.t;
  final : Parser
}.

Definition parse (p : Parser) : option ParseResult :=
  match parseMessage p with
  | Ok _ p' => Some (mkParseResult U_ZERO_ERROR (translateParseError (parseError p')) p')
  | Fatal k p' => Some (mkParseResult (U_ERROR k) (translateParseError (parseError p')) p')
  | OutOfFuel => None
  end.

End ParserSection.

(** ** A table of character classes

    The sets of the MessageFormat 2 grammar, for the examples. *)

Definition inRange (lo hi c : Z) : bool := (lo <=? c) && (c <=? hi).

Definition mf2_content (c : UChar32) : bool :=
  inRange 1 8 c || inRange 11 12 c || inRange 14 31 c || inRange 33 45 c
  || inRange 47 63 c || inRange 65 91 c || inRange 93 122 c
  || inRange 126 12287 c || inRange 12289 55295 c || inRange 57344 1114111 c.

Definition mf2_whitespace (c : UChar32) : bool :=
  (c =? 32) || (c =? 9) || (c =? 13) || (c =? 10) || (c =? 12288).

Definition mf2_bidi (c : UChar32) : bool :=
  (c =? 1564) || (c =? 8206) || (c =? 8207) || inRange 8294 8297 c.

Definition mf2_alpha (c : UChar32) : bool := inRange 65 90 c || inRange 97 122 c.

Definition mf2_digit (c : UChar32) : bool := inRange 48 57 c.

Definition mf2_name_start (c : UChar32) : bool :=
  mf2_alpha c || (c =? 95) || inRange 192 214 c || inRange 216 246 c
  || inRange 248 767 c || inRange 880 893 c || inRange 895 1563 c
  || inRange 1565 8191 c || inRange 8204 8205 c || inRange 8304 8591 c
  || inRange 11264 12271 c || inRange 12289 55295 c || inRange 63744 64975 c
  || inRange 65008 65532 c || inRange 65536 983039 c.

Definition mf2_name_char (c : UChar32) : bool :=
  mf2_name_start c || mf2_digit c || (c =? 45) || (c =? 46) || (c =? 183)
  || inRange 768 879 c || inRange 8255 8256 c.

Definition mf2_unisets (k : unisets.Key) : UnicodeSet :=
  match k with
  | unisets.CONTENT => mf2_content
  | unisets.WHITESPACE => mf2_whitespace
  | unisets.BIDI => mf2_bidi
  | unisets.ALPHA => mf2_alpha
  | unisets.DIGIT => mf2_digit
  | unisets.NAME_START => mf2_name_start
  | unisets.NAME_CHAR => mf2_name_char
  | unisets.TEXT =>
      fun c => mf2_content c || mf2_whitespace c || (c =? 46) || (c =? 64) || (c =? 124)
  | unisets.QUOTED =>
      fun c => mf2_content c || mf2_whitespace c || (c =? 46) || (c =? 64)
               || (c =? 123) || (c =? 125)
  | unisets.ESCAPABLE =>
      fun c => (c =? 92) || (c =? 123) || (c =? 124) || (c =? 125)
  end.

(* A parse of [input] with fresh accumulators. *)
Definition emptyDataModel : MFDataModel := mkMFDataModel [] None.

Definition parseString (input : UnicodeString.t) : option ParseResult :=
  parse mf2_unisets input (Parser_new emptyDataModel [] [] [] []).

(** ** Definitions for the statements *)

(* The UTF-16 form of a code point, and of a sequence of code points. *)
Definition utf16 (c : UChar32) : UnicodeString.t :=
  if c <=? 65535 then [c]
  else [55296 + (c - 65536) / 1024; 56320 + (c - 65536) mod 1024].
Definition encode (cps : list UChar32) : UnicodeString.t := flat_map utf16 cps.

(* A Unicode scalar value. *)
Definition isScalar (c : UChar32) : Prop :=
  0 <= c <= 1114111 /\ U16_IS_SURROGATE c = false.

(* The code units that a sequence of code points occupies. *)
Fixpoint codeUnits (cps : list UChar32) : Z :=
  match cps with
  | [] => 0
  | c :: cps' => U16_LENGTH c + codeUnits cps'
  end.

(* [k] calls of [next()]. *)
Fixpoint advance (source : UnicodeString.t) (k : nat) (p : Parser) : Parser :=
  match k with
  | O => p
  | S k' => advance source k' (next source p)
  end.

(* The two context arrays replaced. *)
Definition with_contexts (pre post : list UChar) (p : Parser) : Parser :=
  set_parseError
    {| line := line (parseError p);
       offset := offset (parseError p);
       lengthBeforeCurrentLine := lengthBeforeCurrentLine (parseError p);
       preContext := pre;
       postContext := post |} p.

Definition omap {A : Type} (f : Parser -> Parser) (o : Outcome A) : Outcome A :=
  match o with
  | Ok a p => Ok a (f p)
  | Fatal k p => Fatal k (f p)
  | OutOfFuel => OutOfFuel
  end.

Section Steps.

Variable source : UnicodeString.t.

(* What one statement of the parser does to its state. *)
Inductive step : Parser -> Parser -> Prop :=
| step_next p : step p (next source p)
| step_consume p : step p (next source (maybeAdvanceLine source p))
| step_parseError p i : step p (set_parseError (setParseError (parseError p) i) p)
| step_errors p e : step p (set_errors e p)
| step_normalizedInput p n : step p (set_normalizedInput n p)
| step_dataModel p d : step p (set_dataModel d p).

Inductive steps : Parser -> Parser -> Prop :=
| steps_refl p : steps p p
| steps_step p q r : steps p q -> step q r -> steps p r.

(* The states of a parse: what the constructor builds, what the
   statements make of it, and the state between [maybeAdvanceLine()] and
   the [next()] that follows it. *)
Inductive reachable : Parser -> Prop :=
| reachable_steps dm e n pre post p :
    steps (Parser_new dm e n pre post) p -> reachable p
| reachable_line dm e n pre post p :
    steps (Parser_new dm e n pre post) p -> reachable (maybeAdvanceLine source p).

(* A parser function takes steps only, and does not read the context
   arrays. *)
Definition sound {A : Type} (m : M A) : Prop :=
  (forall p,
     match m p with
     | Ok _ p' => steps p p'
     | Fatal _ p' => steps p p'
     | OutOfFuel => True
     end)
  /\ (forall pre post p,
        m (with_contexts pre post p) = omap (with_contexts pre post) (m p)).

End Steps.

(* The line feeds among the first [n] code units of the input. *)
Definition countLF (source : UnicodeString.t) (n : Z) : Z :=
  Z.of_nat (List.length (filter (Z.eqb LF) (firstn (Z.to_nat n) source))).

(* The invariant of the internal parse-error record. *)
Definition lineInvariant (source : UnicodeString.t) (p : Parser) : Prop :=
  (line (parseError p) = 0 -> lengthBeforeCurrentLine (parseError p) = 0)
  /\ 0 <= lengthBeforeCurrentLine (parseError p) <= index p + 1
  /\ (0 < lengthBeforeCurrentLine (parseError p) ->
      UnicodeString.charAt source (lengthBeforeCurrentLine (parseError p) - 1) = LF)
  /\ 0 <= line (parseError p)
       <= countLF source (lengthBeforeCurrentLine (parseError p)).

(* No surrogate pair lies across the code unit offset [i]. *)
Definition atBoundary (source : UnicodeString.t) (i : Z) : Prop :=
  ~ (0 < i < UnicodeString.length source
     /\ U16_IS_LEAD (UnicodeString.charAt source (i - 1)) = true
     /\ U16_IS_TRAIL (UnicodeString.charAt source i) = true).

(* The invariant of the states between statements. *)
Definition stable (source : UnicodeString.t) (p : Parser) : Prop :=
  (0 <= index p <= UnicodeString.length source /\ atBoundary source (index p))
  /\ 0 <= lengthBeforeCurrentLine (parseError p) <= index p
  /\ (line (parseError p) = 0 -> lengthBeforeCurrentLine (parseError p) = 0)
  /\ (0 < lengthBeforeCurrentLine (parseError p) ->
      UnicodeString.charAt source (lengthBeforeCurrentLine (parseError p) - 1) = LF)
  /\ 0 <= line (parseError p)
       <= countLF source (lengthBeforeCurrentLine (parseError p)).

(* The parse that starts in [p0] comes to a matcher and reads it to its
   end: the message is a complex one, its declarations are parsed, what
   follows is no quoted pattern but [.match], and the selectors and the
   variants are read, which leaves the parser in [p1]. *)
Definition matcherRead (unisets_get : unisets.Key -> UnicodeSet)
    (source : UnicodeString.t) (p0 : Parser)
    (selectors : list Expression) (variants : list Variant) (p1 : Parser) : Prop :=
  isComplex unisets_get source p0 = true
  /\ exists pa pb,
       parseOptionalWhitespace unisets_get source p0 = Ok tt pa
       /\ parseDeclarations unisets_get source pa = Ok tt pb
       /\ atCursor source (Z.eqb LEFT_CURLY_BRACE) pb = Ok false pb
       /\ nextIs source ID_MATCH pb = true
       /\ parseMatcherSyntax unisets_get source pb = Ok (selectors, variants) p1.

(* The code units of the input from offset [i] up to offset [j]. *)
Definition span (source : UnicodeString.t) (i j : Z) : UnicodeString.t :=
  firstn (Z.to_nat (j - i)) (skipn (Z.to_nat i) source).

(* A text with its escape sequences replaced by the escaped code units. *)
Fixpoint resolveEscapes (s : UnicodeString.t) : UnicodeString.t :=
  match s with
  | [] => []
  | c :: s' =>
      if c =? BACKSLASH then
        match s' with
        | [] => []
        | d :: s'' => d :: resolveEscapes s''
        end
      else c :: resolveEscapes s'
  end.

(* A piece of a simple message: raw text, or the source of a placeholder
   with the part parsed from it. *)
Inductive Segment : Type :=
| RawText (u : UnicodeString.t)
| PlaceholderSource (u : UnicodeString.t) (part : PatternPart).

Definition segmentUnits (g : Segment) : UnicodeString.t :=
  match g with RawText u => u | PlaceholderSource u _ => u end.

(* The input with the placeholder segments removed. *)
Definition rawText (segs : list Segment) : UnicodeString.t :=
  flat_map (fun g => match g with RawText u => u | PlaceholderSource _ _ => [] end) segs.

Definition segmentPlaceholders (segs : list Segment) : list PatternPart :=
  flat_map (fun g => match g with RawText _ => [] | PlaceholderSource _ part => [part] end) segs.

(* The text runs of a pattern, concatenated. *)
Definition textOf (pat : Pattern) : UnicodeString.t :=
  flat_map (fun part => match part with Text s => s | _ => [] end) pat.

Definition placeholdersOf (pat : Pattern) : list PatternPart :=
  flat_map (fun part => match part with Text _ => [] | _ => [part] end) pat.

Definition units16 (source : UnicodeString.t) : Prop :=
  Forall (fun u => 0 <= u <= 65535) source.

(* The parser consumed the code point [c] between [p] and [p']. *)
Definition ate (source : UnicodeString.t) (c : UChar32) (p p' : Parser) : Prop :=
  index p < UnicodeString.length source
  /\ c = peek source p
  /\ index p' = UnicodeString.U16_FWD_1 source (index p)
  /\ steps source p p'.

(* A placeholder segment opens with a left curly brace and is what one
   call of [parsePlaceholder] consumed to produce its part. *)
Definition placeholderSegment (unisets_get : unisets.Key -> UnicodeSet)
    (source : UnicodeString.t) (g : Segment) : Prop :=
  match g with
  | RawText _ => True
  | PlaceholderSource u part =>
      hd 0 u = LEFT_CURLY_BRACE
      /\ exists q q',
           parsePlaceholder unisets_get source q = Ok part q'
           /\ u = span source (index q) (index q')
  end.

(* The body of the loop of [parseSimpleMessage]. *)
Definition simpleMessageStep (unisets_get : unisets.Key -> UnicodeSet)
    (source : UnicodeString.t) (acc : Pattern) : M (LoopStep Pattern) :=
  inb <- gets (inBounds source) ;;
  if inb : bool then
    c <- gets (peek source) ;;
    if c =? LEFT_CURLY_BRACE then
      (part <- parsePlaceholder unisets_get source ;; ret (Continue (acc ++ [part])))
    else if c =? BACKSLASH then
      (e <- parseEscapeSequence unisets_get source ;; ret (Continue (acc ++ [Text e])))
    else (t <- parseTextChar unisets_get source ;; ret (Continue (acc ++ [Text t])))
  else ret (Break acc).

(* The status and the absolute offset of the diagnostic. *)
Definition outcomeOf (input : UnicodeString.t) : option (UErrorCode * Z) :=
  option_map (fun r => (status r, UParseError.absoluteOffset (diagnostic r)))
             (parseString input).

Definition modelOf (input : UnicodeString.t) : option (UErrorCode * MFDataModel) :=
  option_map (fun r => (status r, dataModel (final r))) (parseString input).

Definition literal (quoted : bool) (x : string) : Operand :=
  LiteralOperand (mkLiteral quoted (ustr x)).

(** ** Termination *)

(* A parser function returns: its loops do not run out of fuel. *)
Definition total (source : UnicodeString.t) {A : Type} (m : M A) : Prop :=
  forall p, stable source p -> m p <> OutOfFuel.

(* A parser function that succeeds has moved the cursor forward. *)
Definition advances (source : UnicodeString.t) {A : Type} (m : M A) : Prop :=
  forall p a p', stable source p -> m p = Ok a p' -> index p < index p'.

(* An iteration of a loop that goes on has moved the cursor forward. *)
Definition progresses (source : UnicodeString.t) {A : Type} (m : M (LoopStep A)) : Prop :=
  forall p a p', stable source p -> m p = Ok (Continue a) p' -> index p < index p'.

(** ** The code points ahead of the cursor *)

(* The cursor of [p] stands before the code points [s] of the input [cs]:
   its index is the number of code units of what precedes them. *)
Definition cursorAt (cs : list UChar32) (p : Parser) (s : list UChar32) : Prop :=
  exists pre, cs = pre ++ s /\ index p = codeUnits pre.

(* An input the cursor can walk: scalar values, in at most INT32_MAX code
   units. *)
Definition wellFormed (cs : list UChar32) : Prop :=
  Forall isScalar cs /\ UnicodeString.length (encode cs) <= INT32_MAX.

(* [inBounds() && pred(peek())] on the code points ahead. *)
Definition headTest (pred : UChar32 -> bool) (s : list UChar32) : bool :=
  match s with
  | [] => false
  | c :: _ => pred c
  end.

(* The accumulators other than the normalized input are left alone. *)
Definition keeps (p p' : Parser) : Prop :=
  dataModel p' = dataModel p /\ errors p' = errors p.

(* Whitespace or a bidi control: what optional whitespace passes over. *)
Definition isSpacing (unisets_get : unisets.Key -> UnicodeSet) (c : UChar32) : bool :=
  isWhitespace unisets_get c || isBidiControl unisets_get c.

(* The whitespace and bidi controls that open [s]. *)
Fixpoint spacing (unisets_get : unisets.Key -> UnicodeSet) (s : list UChar32) : nat :=
  match s with
  | [] => O
  | c :: s' => if isSpacing unisets_get c then S (spacing unisets_get s') else O
  end.

(* [s] begins with the units of [token], one code point for each. *)
Fixpoint startsWith (token s : list UChar32) : bool :=
  match token with
  | [] => true
  | c :: token' =>
      match s with
      | [] => false
      | d :: s' => (d =? c) && startsWith token' s'
      end
  end.

(* The state after [normalizedInput += c; next();]. *)
Definition copied (source : UnicodeString.t) (p : Parser) (c : UChar32) : Parser :=
  next source (set_normalizedInput (append32 (normalizedInput p) c) p).

(** * Properties *)

(** ** Machine integers and the cursor *)
Lemma to_int32_small x : 0 <= x <= INT32_MAX -> to_int32 x = x.
Proof.
  intros H. unfold to_int32, UINT32_MOD, INT32_MAX in *.
  rewrite Z.mod_small by lia.
  destruct (x <=? 2147483647) eqn:E; [reflexivity | apply Z.leb_gt in E; lia].
Qed.

Lemma to_uint32_small x : 0 <= x < UINT32_MOD -> to_uint32 x = x.
Proof. intros H. unfold to_uint32. apply Z.mod_small; assumption. Qed.

Lemma ulength_nonneg s : 0 <= UnicodeString.length s.
Proof. unfold UnicodeString.length. lia. Qed.

Lemma ulength_app s t :
  UnicodeString.length (s ++ t) = UnicodeString.length s + UnicodeString.length t.
Proof. unfold UnicodeString.length. rewrite List.length_app. lia. Qed.

Lemma charAt_app_r s t i :
  0 <= i -> UnicodeString.charAt (s ++ t) (UnicodeString.length s + i) = UnicodeString.charAt t i.
Proof.
  intros H. unfold UnicodeString.charAt, UnicodeString.length.
  rewrite app_nth2 by lia. f_equal. lia.
Qed.

Lemma U16_FWD_1_bounds s i :
  0 <= i < UnicodeString.length s ->
  i < UnicodeString.U16_FWD_1 s i <= UnicodeString.length s.
Proof.
  intros H. unfold UnicodeString.U16_FWD_1.
  destruct (U16_IS_LEAD _); simpl; [|lia].
  destruct (i + 1 =? UnicodeString.length s) eqn:E; simpl; [lia|].
  apply Z.eqb_neq in E. destruct (U16_IS_TRAIL _); lia.
Qed.

Lemma moveIndex32_one s i :
  0 <= i <= UnicodeString.length s ->
  UnicodeString.moveIndex32 s i 1 =
    if i <? UnicodeString.length s then UnicodeString.U16_FWD_1 s i else i.
Proof.
  intros H. unfold UnicodeString.moveIndex32.
  destruct (i <? 0) eqn:E0; [apply Z.ltb_lt in E0; lia|].
  destruct (UnicodeString.length s <? i) eqn:E1; [apply Z.ltb_lt in E1; lia|].
  simpl. destruct (i <? UnicodeString.length s); reflexivity.
Qed.

Section CursorFacts.
Variable source : UnicodeString.t.
Hypothesis source_fits : UnicodeString.length source <= INT32_MAX.

Lemma next_index p :
  0 <= index p <= UnicodeString.length source ->
  index (next source p) =
    if index p <? UnicodeString.length source
    then UnicodeString.U16_FWD_1 source (index p) else index p.
Proof.
  intros H. unfold next. simpl.
  rewrite to_int32_small by lia.
  rewrite moveIndex32_one by lia.
  destruct (index p <? UnicodeString.length source) eqn:E.
  - apply Z.ltb_lt in E. pose proof (U16_FWD_1_bounds source (index p)).
    apply to_uint32_small. unfold UINT32_MOD, INT32_MAX in *. lia.
  - apply to_uint32_small. unfold UINT32_MOD, INT32_MAX in *. lia.
Qed.

Lemma peek_in p :
  0 <= index p < UnicodeString.length source ->
  peek source p = UnicodeString.U16_GET source (index p).
Proof.
  intros H. unfold peek, UnicodeString.char32At.
  rewrite to_int32_small by lia.
  rewrite !to_uint32_small by (unfold UINT32_MOD, INT32_MAX in *; lia).
  destruct (index p <? UnicodeString.length source) eqn:E; [reflexivity|].
  apply Z.ltb_ge in E. lia.
Qed.

Lemma peek_out p :
  UnicodeString.length source <= index p < UINT32_MOD ->
  peek source p = 65535.
Proof.
  intros H. unfold peek, UnicodeString.char32At.
  pose proof (ulength_nonneg source).
  assert (to_uint32 (to_int32 (index p)) = index p) as ->.
  { unfold to_int32, to_uint32. rewrite (Z.mod_small (index p)) by lia.
    destruct (index p <=? INT32_MAX).
    - apply Z.mod_small. lia.
    - unfold UINT32_MOD in *.
      replace (index p - 4294967296) with (index p + (-1) * 4294967296) by lia.
      rewrite Z.mod_add by lia. apply Z.mod_small. lia. }
  rewrite to_uint32_small by (unfold UINT32_MOD, INT32_MAX in *; lia).
  destruct (index p <? UnicodeString.length source) eqn:E; [|reflexivity].
  apply Z.ltb_lt in E. lia.
Qed.

End CursorFacts.





(* [append32] appends the UTF-16 form of a code point. *)
Lemma append32_utf16 s c : 0 <= c <= 1114111 -> append32 s c = s ++ utf16 c.
Proof.
  intros H. unfold append32, utf16.
  rewrite (proj2 (Z.leb_le 0 c)) by lia. cbn [andb].
  destruct (c <=? 65535) eqn:E; [reflexivity|]. apply Z.leb_gt in E.
  rewrite (proj2 (Z.leb_le 65536 c)), (proj2 (Z.leb_le c 1114111)) by lia. reflexivity.
Qed.

Lemma utf16_length c : UnicodeString.length (utf16 c) = U16_LENGTH c.
Proof. unfold utf16, U16_LENGTH. destruct (c <=? 65535); reflexivity. Qed.

Lemma codeUnits_encode cps : UnicodeString.length (encode cps) = codeUnits cps.
Proof.
  induction cps as [|c cps IH]; [reflexivity|].
  simpl. fold (utf16 c). rewrite ulength_app, utf16_length, <- IH. reflexivity.
Qed.

Lemma codeUnits_nonneg cps : 0 <= codeUnits cps.
Proof.
  induction cps as [|c cps IH]; simpl; [lia|].
  unfold U16_LENGTH. destruct (c <=? 65535); lia.
Qed.

Lemma charAt_app_0 s t :
  UnicodeString.charAt (s ++ t) (UnicodeString.length s) = UnicodeString.charAt t 0.
Proof. rewrite <- (charAt_app_r s t 0) by lia. f_equal. lia. Qed.

Lemma lead_unit c :
  65535 < c <= 1114111 -> U16_IS_LEAD (55296 + (c - 65536) / 1024) = true.
Proof.
  intros H.
  assert (0 <= (c - 65536) / 1024 < 1024).
  { split; [apply Z.div_pos; lia | apply Z.div_lt_upper_bound; lia]. }
  unfold U16_IS_LEAD. apply andb_true_intro; split; apply Z.leb_le; lia.
Qed.

Lemma trail_unit c : U16_IS_TRAIL (56320 + (c - 65536) mod 1024) = true.
Proof.
  assert (0 <= (c - 65536) mod 1024 < 1024) by (apply Z.mod_pos_bound; lia).
  unfold U16_IS_TRAIL. apply andb_true_intro; split; apply Z.leb_le; lia.
Qed.

Lemma lead_is_surrogate c : U16_IS_LEAD c = true -> U16_IS_SURROGATE c = true.
Proof.
  unfold U16_IS_LEAD, U16_IS_SURROGATE. intros H.
  apply andb_prop in H. destruct H as [H1 H2].
  apply Z.leb_le in H1, H2. apply andb_true_intro; split; apply Z.leb_le; lia.
Qed.

Lemma not_surrogate_not_lead c : U16_IS_SURROGATE c = false -> U16_IS_LEAD c = false.
Proof.
  intros H. destruct (U16_IS_LEAD c) eqn:E; [|reflexivity].
  apply lead_is_surrogate in E. congruence.
Qed.

Lemma charAt_cons_0 a t : UnicodeString.charAt (a :: t) 0 = a.
Proof. reflexivity. Qed.

Lemma charAt_cons_1 a b t : UnicodeString.charAt (a :: b :: t) 1 = b.
Proof. reflexivity. Qed.

Lemma charAt_app_1 s t :
  UnicodeString.charAt (s ++ t) (UnicodeString.length s + 1) = UnicodeString.charAt t 1.
Proof. apply charAt_app_r. lia. Qed.

Lemma ulength_cons a t :
  UnicodeString.length (a :: t) = 1 + UnicodeString.length t.
Proof. unfold UnicodeString.length. cbn [List.length]. lia. Qed.

Lemma U16_GET_single pre a rest :
  U16_IS_SURROGATE a = false ->
  UnicodeString.U16_GET (pre ++ a :: rest) (UnicodeString.length pre) = a.
Proof.
  intros H. unfold UnicodeString.U16_GET.
  rewrite charAt_app_0, charAt_cons_0, H. reflexivity.
Qed.

Lemma U16_GET_pair pre a b rest :
  U16_IS_LEAD a = true -> U16_IS_TRAIL b = true ->
  UnicodeString.U16_GET (pre ++ a :: b :: rest) (UnicodeString.length pre)
  = U16_GET_SUPPLEMENTARY a b.
Proof.
  intros Ha Hb. unfold UnicodeString.U16_GET.
  rewrite charAt_app_0, charAt_cons_0, (lead_is_surrogate _ Ha), Ha.
  rewrite charAt_app_1, charAt_cons_1, Hb.
  assert ((UnicodeString.length pre + 1 =?
           UnicodeString.length (pre ++ a :: b :: rest)) = false) as ->.
  { apply Z.eqb_neq. rewrite ulength_app, !ulength_cons.
    pose proof (ulength_nonneg rest). lia. }
  reflexivity.
Qed.

Lemma U16_FWD_1_single pre a rest :
  U16_IS_LEAD a = false ->
  UnicodeString.U16_FWD_1 (pre ++ a :: rest) (UnicodeString.length pre)
  = UnicodeString.length pre + 1.
Proof.
  intros H. unfold UnicodeString.U16_FWD_1.
  rewrite charAt_app_0, charAt_cons_0, H. reflexivity.
Qed.

Lemma U16_FWD_1_pair pre a b rest :
  U16_IS_LEAD a = true -> U16_IS_TRAIL b = true ->
  UnicodeString.U16_FWD_1 (pre ++ a :: b :: rest) (UnicodeString.length pre)
  = UnicodeString.length pre + 2.
Proof.
  intros Ha Hb. unfold UnicodeString.U16_FWD_1.
  rewrite charAt_app_0, charAt_cons_0, Ha.
  rewrite charAt_app_1, charAt_cons_1, Hb.
  assert ((UnicodeString.length pre + 1 =?
           UnicodeString.length (pre ++ a :: b :: rest)) = false) as ->.
  { apply Z.eqb_neq. rewrite ulength_app, !ulength_cons.
    pose proof (ulength_nonneg rest). lia. }
  reflexivity.
Qed.

(* The first code point of [pre ++ utf16 c ++ rest], read at [length pre]. *)
Lemma U16_GET_encoded pre c rest :
  isScalar c ->
  UnicodeString.U16_GET (pre ++ utf16 c ++ rest) (UnicodeString.length pre) = c.
Proof.
  intros [Hr Hs]. unfold utf16. destruct (c <=? 65535) eqn:E.
  - cbn [app]. apply U16_GET_single. exact Hs.
  - apply Z.leb_gt in E. cbn [app].
    rewrite U16_GET_pair by (apply lead_unit || apply trail_unit; lia).
    unfold U16_GET_SUPPLEMENTARY.
    pose proof (Z.div_mod (c - 65536) 1024). lia.
Qed.

Lemma U16_FWD_1_encoded pre c rest :
  isScalar c ->
  UnicodeString.U16_FWD_1 (pre ++ utf16 c ++ rest) (UnicodeString.length pre)
  = UnicodeString.length pre + U16_LENGTH c.
Proof.
  intros [Hr Hs]. unfold utf16, U16_LENGTH. destruct (c <=? 65535) eqn:E.
  - cbn [app]. apply U16_FWD_1_single. apply not_surrogate_not_lead. exact Hs.
  - apply Z.leb_gt in E. cbn [app].
    apply U16_FWD_1_pair; [apply lead_unit; lia | apply trail_unit].
Qed.

Lemma U16_LENGTH_pos c : 1 <= U16_LENGTH c <= 2.
Proof. unfold U16_LENGTH. destruct (c <=? 65535); lia. Qed.

(* The cursor over [pre ++ encode cps], standing at the end of [pre]. *)
Lemma advance_encoded cps : forall pre k p,
  Forall isScalar cps ->
  UnicodeString.length (pre ++ encode cps) <= INT32_MAX ->
  (k <= List.length cps)%nat ->
  index p = UnicodeString.length pre ->
  index (advance (pre ++ encode cps) k p)
    = UnicodeString.length pre + codeUnits (firstn k cps)
  /\ peek (pre ++ encode cps) (advance (pre ++ encode cps) k p) = nth k cps 65535.
Proof.
  induction cps as [|c cps IH]; intros pre k p Hv Hfit Hk Hi.
  - assert (k = O) by (simpl in Hk; lia). subst k.
    cbn [advance firstn codeUnits nth]. split; [lia|].
    apply peek_out; [exact Hfit|].
    cbn [encode flat_map] in *. rewrite app_nil_r in *. rewrite Hi.
    pose proof (ulength_nonneg pre). unfold UINT32_MOD, INT32_MAX in *. lia.
  - inversion Hv as [|? ? Hc Hv']; subst.
    cbn [encode flat_map] in *. fold (encode cps) in *.
    pose proof (U16_LENGTH_pos c) as Hl.
    pose proof (ulength_nonneg pre) as Hp.
    pose proof (ulength_nonneg (encode cps)) as He.
    assert (Hlen : UnicodeString.length (pre ++ utf16 c ++ encode cps)
                   = UnicodeString.length pre + U16_LENGTH c
                     + UnicodeString.length (encode cps)).
    { rewrite !ulength_app, utf16_length. lia. }
    destruct k as [|k].
    + cbn [advance firstn codeUnits nth]. split; [lia|].
      rewrite peek_in by (try exact Hfit; rewrite Hi, Hlen; lia).
      rewrite Hi. apply U16_GET_encoded. exact Hc.
    + cbn [advance firstn codeUnits nth].
      assert (Hn : index (next (pre ++ utf16 c ++ encode cps) p)
                   = UnicodeString.length (pre ++ utf16 c)).
      { rewrite next_index by (try exact Hfit; rewrite Hi, Hlen; lia).
        rewrite Hi.
        assert ((UnicodeString.length pre
                 <? UnicodeString.length (pre ++ utf16 c ++ encode cps)) = true) as ->.
        { apply Z.ltb_lt. rewrite Hlen. lia. }
        rewrite U16_FWD_1_encoded by exact Hc.
        rewrite ulength_app, utf16_length. reflexivity. }
      specialize (IH (pre ++ utf16 c) k (next (pre ++ utf16 c ++ encode cps) p) Hv').
      rewrite <- app_assoc in IH.
      destruct IH as [IH1 IH2]; [exact Hfit | simpl in Hk; lia | exact Hn |].
      split; [|exact IH2].
      rewrite IH1, ulength_app, utf16_length. lia.
Qed.

Lemma U16_FWD_N_end s k :
  UnicodeString.U16_FWD_N s (UnicodeString.length s) k = UnicodeString.length s.
Proof. destruct k; cbn [UnicodeString.U16_FWD_N]; [|rewrite Z.ltb_irrefl]; reflexivity. Qed.

Lemma moveIndex32_end s i n :
  UnicodeString.length s <= i -> 0 <= n ->
  UnicodeString.moveIndex32 s i n = UnicodeString.length s.
Proof.
  intros Hi Hn. unfold UnicodeString.moveIndex32.
  pose proof (ulength_nonneg s).
  destruct (i <? 0) eqn:E0; [apply Z.ltb_lt in E0; lia|].
  assert ((if UnicodeString.length s <? i then UnicodeString.length s else i)
          = UnicodeString.length s) as ->.
  { destruct (UnicodeString.length s <? i) eqn:E; [reflexivity|].
    apply Z.ltb_ge in E. lia. }
  destruct (0 <? n) eqn:E.
  - apply U16_FWD_N_end.
  - apply Z.ltb_ge in E. assert (n = 0) by lia. subst n. reflexivity.
Qed.

Lemma char32At_end s :
  UnicodeString.char32At s (UnicodeString.length s) = 65535.
Proof. unfold UnicodeString.char32At. rewrite Z.ltb_irrefl. reflexivity. Qed.

(** ** Every parser function takes steps only *)
Section Soundness.

Variable unisets_get : unisets.Key -> UnicodeSet.
Variable source : UnicodeString.t.


Lemma steps_one p q : step source p q -> steps source p q.
Proof. intros H. eapply steps_step; [apply steps_refl | exact H]. Qed.

Lemma steps_trans p q r : steps source p q -> steps source q r -> steps source p r.
Proof.
  intros H1 H2. induction H2 as [|q r' r'' _ IH Hs]; [exact H1|].
  eapply steps_step; [apply IH; exact H1 | exact Hs].
Qed.

Lemma sound_ret {A} (a : A) : sound source (ret a).
Proof. split; intros; [apply steps_refl | reflexivity]. Qed.

Lemma sound_bind {A B} (m : M A) (k : A -> M B) :
  sound source m -> (forall a, sound source (k a)) -> sound source (bind m k).
Proof.
  intros [Hm1 Hm2] Hk. split.
  - intros p. unfold bind. specialize (Hm1 p). destruct (m p) as [a p'| |]; auto.
    destruct (Hk a) as [Hk1 _]. specialize (Hk1 p').
    destruct (k a p'); auto; eapply steps_trans; eauto.
  - intros pre post p. unfold bind. rewrite Hm2.
    destruct (m p) as [a p'| |]; cbn [omap]; auto.
    destruct (Hk a) as [_ Hk2]. apply Hk2.
Qed.

Lemma sound_gets {A} (f : Parser -> A) :
  (forall pre post p, f (with_contexts pre post p) = f p) -> sound source (gets f).
Proof.
  intros H. split; intros; unfold gets; [apply steps_refl|].
  rewrite H. reflexivity.
Qed.

Lemma sound_modify (f : Parser -> Parser) :
  (forall p, steps source p (f p)) ->
  (forall pre post p, f (with_contexts pre post p) = with_contexts pre post (f p)) ->
  sound source (modify f).
Proof.
  intros H1 H2. split; intros; unfold modify; [apply H1|].
  rewrite H2. reflexivity.
Qed.

Lemma sound_loop {A} (body : A -> M (LoopStep A)) :
  (forall a, sound source (body a)) ->
  forall fuel a, sound source (loop fuel body a).
Proof.
  intros Hb fuel. induction fuel as [|fuel IH]; intros a.
  - split; intros; reflexivity || exact I.
  - destruct (Hb a) as [H1 H2]. split.
    + intros p. cbn [loop]. specialize (H1 p).
      destruct (body a p) as [[a'|a'] p'| |]; auto.
      destruct (IH a') as [IH1 _]. specialize (IH1 p').
      destruct (loop fuel body a' p'); auto; eapply steps_trans; eauto.
    + intros pre post p. cbn [loop]. rewrite H2.
      destruct (body a p) as [[a'|a'] p'| |]; cbn [omap]; auto.
      destruct (IH a') as [_ IH2]. apply IH2.
Qed.

Lemma sound_while {A} (body : A -> M (LoopStep A)) (a : A) :
  (forall a, sound source (body a)) -> sound source (while source body a).
Proof.
  intros Hb. split.
  - intros p. unfold while. apply (sound_loop body Hb).
  - intros pre post p. unfold while.
    change (index (with_contexts pre post p)) with (index p).
    apply (sound_loop body Hb).
Qed.

Lemma sound_abortAt {A} i k : sound source (@abortAt A i k).
Proof.
  split; intros; unfold abortAt.
  - apply steps_one. apply step_parseError.
  - reflexivity.
Qed.

Lemma sound_fatalAt {A} i k : sound source (@fatalAt A i k).
Proof.
  split; intros; unfold fatalAt, abortAt.
  - eapply steps_step; [apply steps_one; apply step_errors|].
    apply (step_parseError source (set_errors (errors p ++ [k]) p) i).
  - reflexivity.
Qed.

Lemma sound_fatal {A} k : sound source (@fatal A k).
Proof.
  split; intros; unfold fatal.
  - apply (proj1 (sound_fatalAt (index p) k) p).
  - apply (proj2 (sound_fatalAt (index p) k)).
Qed.

Lemma sound_addError k : sound source (addError k).
Proof.
  apply sound_modify; intros; [apply steps_one; apply step_errors | reflexivity].
Qed.

Lemma sound_normalize c : sound source (normalize c).
Proof.
  apply sound_modify; intros; [apply steps_one; apply step_normalizedInput | reflexivity].
Qed.

Lemma peek_with_contexts pre post p :
  peek source (with_contexts pre post p) = peek source p.
Proof. reflexivity. Qed.

Lemma maybeAdvanceLine_with_contexts pre post p :
  maybeAdvanceLine source (with_contexts pre post p)
  = with_contexts pre post (maybeAdvanceLine source p).
Proof.
  unfold maybeAdvanceLine. rewrite peek_with_contexts.
  destruct (peek source p =? LF); reflexivity.
Qed.

Lemma sound_next : sound source (modify (next source)).
Proof.
  apply sound_modify; intros; [apply steps_one; apply step_next | reflexivity].
Qed.

Lemma sound_consume : sound source (consume source).
Proof.
  split.
  - intros p. cbn. apply steps_one. apply step_consume.
  - intros pre post p. unfold consume, bind, modify.
    rewrite maybeAdvanceLine_with_contexts. reflexivity.
Qed.

Lemma sound_addDeclaration d : sound source (addDeclaration d).
Proof.
  apply sound_modify; intros; [apply steps_one; apply step_dataModel | reflexivity].
Qed.

Lemma sound_setBody b : sound source (setBody b).
Proof.
  apply sound_modify; intros; [apply steps_one; apply step_dataModel | reflexivity].
Qed.

(* What the cursor shows does not depend on the rest of the state. *)
Lemma lookahead_index fuel : forall p q n,
  index p = index q ->
  lookahead unisets_get source fuel p n = lookahead unisets_get source fuel q n.
Proof.
  induction fuel as [|fuel IH]; intros p q n H; cbn [lookahead]; [reflexivity|].
  unfold inBounds_n, peek_n. rewrite H.
  destruct (_ && _); [apply IH; exact H | reflexivity].
Qed.

Lemma afterWhitespace_index p q n :
  index p = index q ->
  afterWhitespace unisets_get source p n = afterWhitespace unisets_get source q n.
Proof.
  intros H. unfold afterWhitespace. rewrite H. apply lookahead_index. exact H.
Qed.

Lemma nextIs_from_index token : forall p q n,
  index p = index q -> nextIs_from source p n token = nextIs_from source q n token.
Proof.
  induction token as [|c token IH]; intros p q n H; cbn [nextIs_from]; [reflexivity|].
  unfold inBounds_n, peek_n. rewrite H. rewrite (IH p q (n + 1) H). reflexivity.
Qed.

Lemma isComplex_index p q :
  index p = index q -> isComplex unisets_get source p = isComplex unisets_get source q.
Proof.
  intros H. unfold isComplex. rewrite (afterWhitespace_index p q 0 H).
  unfold inBounds_n, peek_n. rewrite H. reflexivity.
Qed.


End Soundness.

Create HintDb sound discriminated.


Ltac sound_step :=
  match goal with
  | |- sound _ (bind _ _) => apply sound_bind; [|intros]
  | |- sound _ (ret _) => apply sound_ret
  | |- sound _ (gets _) =>
      apply sound_gets; intros;
      first [ reflexivity
            | apply afterWhitespace_index; reflexivity
            | apply nextIs_from_index; reflexivity
            | apply isComplex_index; reflexivity ]
  | |- sound _ (while _ _ _) => apply sound_while; intros
  | |- sound _ (if ?b then _ else _) => destruct b
  | |- sound _ (match ?x with _ => _ end) => destruct x
  | |- sound _ _ => solve [eauto with sound]
  end.

Ltac sound_auto := repeat sound_step.

#[export] Hint Resolve sound_ret sound_abortAt sound_fatalAt sound_fatal sound_addError
  sound_normalize sound_next sound_consume sound_addDeclaration sound_setBody
  : sound.

Lemma sound_peekIs (source : UnicodeString.t) n pred : sound source (peekIs source n pred).
Proof. unfold peekIs. sound_auto. Qed.

Lemma sound_atCursor (source : UnicodeString.t) pred : sound source (atCursor source pred).
Proof. unfold atCursor. sound_auto. Qed.
#[export] Hint Resolve sound_peekIs sound_atCursor : sound.

Lemma sound_take (source : UnicodeString.t) : sound source (take source).
Proof. unfold take. sound_auto. Qed.
#[export] Hint Resolve sound_take : sound.

Lemma sound_parseOptionalBidi (unisets_get : unisets.Key -> UnicodeSet) (source : UnicodeString.t) : sound source (parseOptionalBidi unisets_get source).
Proof. unfold parseOptionalBidi. sound_auto. Qed.

Lemma sound_skipWhitespace (unisets_get : unisets.Key -> UnicodeSet) (source : UnicodeString.t) :
  sound source (skipWhitespace unisets_get source).
Proof. unfold skipWhitespace. sound_auto. Qed.
#[export] Hint Resolve sound_skipWhitespace : sound.

Lemma sound_parseOptionalWhitespace (unisets_get : unisets.Key -> UnicodeSet) (source : UnicodeString.t) :
  sound source (parseOptionalWhitespace unisets_get source).
Proof. unfold parseOptionalWhitespace. sound_auto. Qed.

Lemma sound_parseRequiredWS (unisets_get : unisets.Key -> UnicodeSet) (source : UnicodeString.t) : sound source (parseRequiredWS unisets_get source).
Proof. unfold parseRequiredWS. sound_auto. Qed.
#[export] Hint Resolve sound_parseOptionalBidi sound_parseOptionalWhitespace
  sound_parseRequiredWS : sound.

Lemma sound_parseRequiredWhitespace (unisets_get : unisets.Key -> UnicodeSet) (source : UnicodeString.t) :
  sound source (parseRequiredWhitespace unisets_get source).
Proof. unfold parseRequiredWhitespace. sound_auto. Qed.

Lemma sound_parseToken (source : UnicodeString.t) c : sound source (parseToken source c).
Proof. unfold parseToken. sound_auto. Qed.
#[export] Hint Resolve sound_parseRequiredWhitespace sound_parseToken : sound.

Lemma sound_parseTokenWithWhitespace (unisets_get : unisets.Key -> UnicodeSet) (source : UnicodeString.t) c :
  sound source (parseTokenWithWhitespace unisets_get source c).
Proof. unfold parseTokenWithWhitespace. sound_auto. Qed.

Lemma sound_parseToken_str (source : UnicodeString.t) token : sound source (parseToken_str source token).
Proof. induction token; cbn [parseToken_str]; sound_auto. Qed.
#[export] Hint Resolve sound_parseTokenWithWhitespace sound_parseToken_str : sound.

Lemma sound_parseTokenWithWhitespace_str (unisets_get : unisets.Key -> UnicodeSet) (source : UnicodeString.t) token :
  sound source (parseTokenWithWhitespace_str unisets_get source token).
Proof. unfold parseTokenWithWhitespace_str. sound_auto. Qed.

Lemma sound_parseRun (source : UnicodeString.t) first rest : sound source (parseRun source first rest).
Proof. unfold parseRun. sound_auto. Qed.
#[export] Hint Resolve sound_parseTokenWithWhitespace_str sound_parseRun : sound.

Lemma sound_parseName (unisets_get : unisets.Key -> UnicodeSet) (source : UnicodeString.t) : sound source (parseName unisets_get source).
Proof. unfold parseName. sound_auto. Qed.

Lemma sound_parseDigits (unisets_get : unisets.Key -> UnicodeSet) (source : UnicodeString.t) : sound source (parseDigits unisets_get source).
Proof. unfold parseDigits. sound_auto. Qed.
#[export] Hint Resolve sound_parseName sound_parseDigits : sound.

Lemma sound_parseIdentifier (unisets_get : unisets.Key -> UnicodeSet) (source : UnicodeString.t) : sound source (parseIdentifier unisets_get source).
Proof. unfold parseIdentifier. sound_auto. Qed.

Lemma sound_parseVariableName (unisets_get : unisets.Key -> UnicodeSet) (source : UnicodeString.t) : sound source (parseVariableName unisets_get source).
Proof. unfold parseVariableName. sound_auto. Qed.
#[export] Hint Resolve sound_parseIdentifier sound_parseVariableName : sound.

Lemma sound_parseFunction (unisets_get : unisets.Key -> UnicodeSet) (source : UnicodeString.t) : sound source (parseFunction unisets_get source).
Proof. unfold parseFunction. sound_auto. Qed.

Lemma sound_parseEscapeSequence (unisets_get : unisets.Key -> UnicodeSet) (source : UnicodeString.t) : sound source (parseEscapeSequence unisets_get source).
Proof. unfold parseEscapeSequence. sound_auto. Qed.

Lemma sound_parseOptionalSign (source : UnicodeString.t) acc sign : sound source (parseOptionalSign source acc sign).
Proof. unfold parseOptionalSign. sound_auto. Qed.
#[export] Hint Resolve sound_parseFunction sound_parseEscapeSequence sound_parseOptionalSign : sound.

Lemma sound_parseUnquotedLiteral (unisets_get : unisets.Key -> UnicodeSet) (source : UnicodeString.t) : sound source (parseUnquotedLiteral unisets_get source).
Proof. unfold parseUnquotedLiteral. sound_auto. Qed.

Lemma sound_parseQuotedLiteral (unisets_get : unisets.Key -> UnicodeSet) (source : UnicodeString.t) : sound source (parseQuotedLiteral unisets_get source).
Proof. unfold parseQuotedLiteral. sound_auto. Qed.
#[export] Hint Resolve sound_parseUnquotedLiteral sound_parseQuotedLiteral : sound.

Lemma sound_parseLiteral (unisets_get : unisets.Key -> UnicodeSet) (source : UnicodeString.t) : sound source (parseLiteral unisets_get source).
Proof. unfold parseLiteral. sound_auto. Qed.
#[export] Hint Resolve sound_parseLiteral : sound.

Lemma sound_parseOperand (unisets_get : unisets.Key -> UnicodeSet) (source : UnicodeString.t) : sound source (parseOperand unisets_get source).
Proof. unfold parseOperand. sound_auto. Qed.
#[export] Hint Resolve sound_parseOperand : sound.

Lemma sound_optionSyntax (unisets_get : unisets.Key -> UnicodeSet) (source : UnicodeString.t) : sound source (optionSyntax unisets_get source).
Proof. unfold optionSyntax. sound_auto. Qed.

Lemma sound_attributeSyntax (unisets_get : unisets.Key -> UnicodeSet) (source : UnicodeString.t) : sound source (attributeSyntax unisets_get source).
Proof. unfold attributeSyntax. sound_auto. Qed.
#[export] Hint Resolve sound_optionSyntax sound_attributeSyntax : sound.

Lemma sound_parseOption (unisets_get : unisets.Key -> UnicodeSet) (source : UnicodeString.t) {T} `{OptionBuilder T} (a : OptionAdder T) :
  sound source (parseOption unisets_get source a).
Proof. unfold parseOption. sound_auto. Qed.
#[export] Hint Resolve @sound_parseOption : sound.

Lemma sound_parseOptions (unisets_get : unisets.Key -> UnicodeSet) (source : UnicodeString.t) {T} `{OptionBuilder T} (a : OptionAdder T) :
  sound source (parseOptions unisets_get source a).
Proof. unfold parseOptions. sound_auto. Qed.

Lemma sound_parseAttribute (unisets_get : unisets.Key -> UnicodeSet) (source : UnicodeString.t) {T} `{AttributeBuilder T} (a : AttributeAdder T) :
  sound source (parseAttribute unisets_get source a).
Proof. unfold parseAttribute. sound_auto. Qed.
#[export] Hint Resolve @sound_parseOptions @sound_parseAttribute : sound.

Lemma sound_parseAttributes (unisets_get : unisets.Key -> UnicodeSet) (source : UnicodeString.t) {T} `{AttributeBuilder T} (a : AttributeAdder T) :
  sound source (parseAttributes unisets_get source a).
Proof. unfold parseAttributes. sound_auto. Qed.

Lemma sound_parseAnnotation (unisets_get : unisets.Key -> UnicodeSet) (source : UnicodeString.t) : sound source (parseAnnotation unisets_get source).
Proof. unfold parseAnnotation. sound_auto. Qed.
#[export] Hint Resolve @sound_parseAttributes sound_parseAnnotation : sound.

Lemma sound_parseReservedChunk (unisets_get : unisets.Key -> UnicodeSet) (source : UnicodeString.t) :
  sound source (parseReservedChunk unisets_get source).
Proof. unfold parseReservedChunk. sound_auto. Qed.
#[export] Hint Resolve sound_parseReservedChunk : sound.

Lemma sound_parseReservedBody (unisets_get : unisets.Key -> UnicodeSet) (source : UnicodeString.t) :
  sound source (parseReservedBody unisets_get source).
Proof. unfold parseReservedBody. sound_auto. Qed.
#[export] Hint Resolve sound_parseReservedBody : sound.

Lemma sound_parseReservedAnnotation (unisets_get : unisets.Key -> UnicodeSet) (source : UnicodeString.t) :
  sound source (parseReservedAnnotation unisets_get source).
Proof. unfold parseReservedAnnotation. sound_auto. Qed.
#[export] Hint Resolve sound_parseReservedAnnotation : sound.

Lemma sound_parseLiteralOrVariableWithAnnotation (unisets_get : unisets.Key -> UnicodeSet) (source : UnicodeString.t) isVariable builder :
  sound source (parseLiteralOrVariableWithAnnotation unisets_get source isVariable builder).
Proof. unfold parseLiteralOrVariableWithAnnotation. sound_auto. Qed.
#[export] Hint Resolve sound_parseLiteralOrVariableWithAnnotation : sound.

Lemma sound_parseExpression (unisets_get : unisets.Key -> UnicodeSet) (source : UnicodeString.t) : sound source (parseExpression unisets_get source).
Proof. unfold parseExpression. sound_auto. Qed.

Lemma sound_parseMarkup (unisets_get : unisets.Key -> UnicodeSet) (source : UnicodeString.t) : sound source (parseMarkup unisets_get source).
Proof. unfold parseMarkup. sound_auto. Qed.
#[export] Hint Resolve sound_parseExpression sound_parseMarkup : sound.

Lemma sound_parsePlaceholder (unisets_get : unisets.Key -> UnicodeSet) (source : UnicodeString.t) : sound source (parsePlaceholder unisets_get source).
Proof. unfold parsePlaceholder. sound_auto. Qed.

Lemma sound_parseTextChar (unisets_get : unisets.Key -> UnicodeSet) (source : UnicodeString.t) : sound source (parseTextChar unisets_get source).
Proof. unfold parseTextChar. sound_auto. Qed.

Lemma sound_errorPattern (source : UnicodeString.t) : sound source (errorPattern source).
Proof. unfold errorPattern. sound_auto. Qed.
#[export] Hint Resolve sound_parsePlaceholder sound_parseTextChar sound_errorPattern : sound.

Lemma sound_parseSimpleMessage (unisets_get : unisets.Key -> UnicodeSet) (source : UnicodeString.t) : sound source (parseSimpleMessage unisets_get source).
Proof. unfold parseSimpleMessage. sound_auto. Qed.

Lemma sound_parseQuotedPattern (unisets_get : unisets.Key -> UnicodeSet) (source : UnicodeString.t) : sound source (parseQuotedPattern unisets_get source).
Proof. unfold parseQuotedPattern. sound_auto. Qed.

Lemma sound_parseKey (unisets_get : unisets.Key -> UnicodeSet) (source : UnicodeString.t) : sound source (parseKey unisets_get source).
Proof. unfold parseKey. sound_auto. Qed.
#[export] Hint Resolve sound_parseSimpleMessage sound_parseQuotedPattern sound_parseKey : sound.

Lemma sound_parseNonEmptyKeys (unisets_get : unisets.Key -> UnicodeSet) (source : UnicodeString.t) : sound source (parseNonEmptyKeys unisets_get source).
Proof. unfold parseNonEmptyKeys. sound_auto. Qed.
#[export] Hint Resolve sound_parseNonEmptyKeys : sound.

Lemma sound_parseVariant (unisets_get : unisets.Key -> UnicodeSet) (source : UnicodeString.t) : sound source (parseVariant unisets_get source).
Proof. unfold parseVariant. sound_auto. Qed.
#[export] Hint Resolve sound_parseVariant : sound.

Lemma sound_checkMatcher (source : UnicodeString.t) sels vars : sound source (checkMatcher sels vars).
Proof. unfold checkMatcher. sound_auto. Qed.

Lemma sound_parseMatcherSyntax (unisets_get : unisets.Key -> UnicodeSet) (source : UnicodeString.t) : sound source (parseMatcherSyntax unisets_get source).
Proof. unfold parseMatcherSyntax. sound_auto. Qed.
#[export] Hint Resolve sound_checkMatcher sound_parseMatcherSyntax : sound.

Lemma sound_parseSelectors (unisets_get : unisets.Key -> UnicodeSet) (source : UnicodeString.t) : sound source (parseSelectors unisets_get source).
Proof. unfold parseSelectors. sound_auto. Qed.

Lemma sound_parseLocalDeclaration (unisets_get : unisets.Key -> UnicodeSet) (source : UnicodeString.t) : sound source (parseLocalDeclaration unisets_get source).
Proof. unfold parseLocalDeclaration. sound_auto. Qed.

Lemma sound_parseInputDeclaration (unisets_get : unisets.Key -> UnicodeSet) (source : UnicodeString.t) : sound source (parseInputDeclaration unisets_get source).
Proof. unfold parseInputDeclaration. sound_auto. Qed.

Lemma sound_parseUnsupportedStatement (unisets_get : unisets.Key -> UnicodeSet) (source : UnicodeString.t) :
  sound source (parseUnsupportedStatement unisets_get source).
Proof. unfold parseUnsupportedStatement. sound_auto. Qed.
#[export] Hint Resolve sound_parseSelectors sound_parseLocalDeclaration
  sound_parseInputDeclaration sound_parseUnsupportedStatement : sound.

Lemma isDeclarationStart_index (source : UnicodeString.t) p q :
  index p = index q -> isDeclarationStart source p = isDeclarationStart source q.
Proof.
  intros H. unfold isDeclarationStart, inBounds, peek, nextIs.
  rewrite H, (nextIs_from_index source ID_MATCH p q 0 H). reflexivity.
Qed.

Lemma sound_parseDeclarations (unisets_get : unisets.Key -> UnicodeSet) (source : UnicodeString.t) : sound source (parseDeclarations unisets_get source).
Proof.
  unfold parseDeclarations. apply sound_while; intros.
  apply sound_bind; [|intros; sound_auto].
  apply sound_gets; intros. apply isDeclarationStart_index. reflexivity.
Qed.

Lemma sound_parseBody (unisets_get : unisets.Key -> UnicodeSet) (source : UnicodeString.t) : sound source (parseBody unisets_get source).
Proof. unfold parseBody. sound_auto. Qed.
#[export] Hint Resolve sound_parseDeclarations sound_parseBody : sound.

Lemma sound_parseMessage (unisets_get : unisets.Key -> UnicodeSet) (source : UnicodeString.t) : sound source (parseMessage unisets_get source).
Proof. unfold parseMessage. sound_auto. Qed.

(** ** The cursor and the code points of the input *)


(** C2: the cursor index and the offsets recorded in a parse error count
    UTF-16 code units: after [k] calls of [next()] on the UTF-16 form of a
    sequence of code points the index is the number of code units of the
    first [k] code points (one for a code point of the basic plane, two for
    a supplementary one), the cursor shows the next code point whole, and
    an error recorded there has that offset. *)
Theorem C2_cursor_counts_code_units (cps : list UChar32) (k : nat)
    (dm : MFDataModel) (e : StaticErrors) (n : UnicodeString.t) (pre post : list UChar) :
  Forall isScalar cps ->
  UnicodeString.length (encode cps) <= INT32_MAX ->
  (k <= List.length cps)%nat ->
  index (advance (encode cps) k (Parser_new dm e n pre post))
    = codeUnits (firstn k cps)
  /\ peek (encode cps) (advance (encode cps) k (Parser_new dm e n pre post))
    = nth k cps 65535
  /\ offset (setParseError
               (parseError (advance (encode cps) k (Parser_new dm e n pre post)))
               (index (advance (encode cps) k (Parser_new dm e n pre post))))
    = codeUnits (firstn k cps).
Proof.
  intros Hv Hfit Hk.
  destruct (advance_encoded cps [] k (Parser_new dm e n pre post) Hv Hfit Hk eq_refl)
    as [H1 H2].
  cbn [app] in *. change (UnicodeString.length []) with 0 in H1.
  split; [lia|]. split; [exact H2|].
  assert (Hpe : forall j q, parseError (advance (encode cps) j q) = parseError q).
  { induction j; intros q; cbn [advance]; [reflexivity|]. rewrite IHj. reflexivity. }
  rewrite Hpe. cbn [setParseError offset Parser_new parseError lengthBeforeCurrentLine].
  rewrite H1, Z.sub_0_r. apply to_uint32_small.
  pose proof (codeUnits_nonneg (firstn k cps)).
  assert (codeUnits (firstn k cps) <= codeUnits cps).
  { clear. revert k. induction cps as [|c cps IH]; intros [|k]; cbn [firstn codeUnits]; try lia.
    - pose proof (codeUnits_nonneg (c :: cps)). cbn [codeUnits] in *. lia.
    - specialize (IH k). lia. }
  rewrite codeUnits_encode in Hfit. unfold UINT32_MOD, INT32_MAX in *. lia.
Qed.

Lemma C2_cursor_counts_code_units_witness :
  index (advance (encode [97; 128512; 98]) 2 (Parser_new emptyDataModel [] [] [] []))
    = codeUnits (firstn 2 [97; 128512; 98])
  /\ peek (encode [97; 128512; 98])
          (advance (encode [97; 128512; 98]) 2 (Parser_new emptyDataModel [] [] [] []))
    = nth 2 [97; 128512; 98] 65535
  /\ offset (setParseError
               (parseError (advance (encode [97; 128512; 98]) 2 (Parser_new emptyDataModel [] [] [] [])))
               (index (advance (encode [97; 128512; 98]) 2 (Parser_new emptyDataModel [] [] [] []))))
    = codeUnits (firstn 2 [97; 128512; 98]).
Proof.
  apply (C2_cursor_counts_code_units [97; 128512; 98] 2 emptyDataModel [] [] [] []).
  - repeat constructor; vm_compute; intuition discriminate.
  - vm_compute. discriminate.
  - simpl. lia.
Defined.

Lemma C2_counterexample :
  UnicodeString.codePoints [55357; 56832; 125] = [128512; 125]
  /\ index (next [55357; 56832; 125] (Parser_new emptyDataModel [] [] [] [])) = 2
  /\ peek [55357; 56832; 125]
          (next [55357; 56832; 125] (Parser_new emptyDataModel [] [] [] [])) = 125
  /\ option_map (fun r => (status r, UParseError.offset (diagnostic r)))
                (parseString [55357; 56832; 125])
     = Some (U_ERROR UnexpectedCharacter, 2).
Proof. vm_compute. repeat split. Qed.



(** ** The line-tracking invariant *)

Section Invariants.

Variable source : UnicodeString.t.
Hypothesis source_fits : UnicodeString.length source <= INT32_MAX.

Lemma U16_GET_small i c :
  UnicodeString.U16_GET source i = c -> c < 55296 -> UnicodeString.charAt source i = c.
Proof.
  unfold UnicodeString.U16_GET. intros H Hc.
  destruct (U16_IS_SURROGATE (UnicodeString.charAt source i)) eqn:Es; [|exact H].
  exfalso.
  assert (Hsur : 55296 <= UnicodeString.charAt source i).
  { unfold U16_IS_SURROGATE in Es. apply andb_prop in Es. destruct Es as [E1 _].
    apply Z.leb_le in E1. exact E1. }
  destruct (U16_IS_LEAD (UnicodeString.charAt source i)) eqn:El.
  - destruct (_ && _) eqn:E; [|lia].
    apply andb_prop in E. destruct E as [_ Et].
    unfold U16_IS_TRAIL in Et. apply andb_prop in Et. destruct Et as [E1 _].
    apply Z.leb_le in E1. unfold U16_GET_SUPPLEMENTARY in H. lia.
  - destruct (_ && _) eqn:E; [|lia].
    apply andb_prop in E. destruct E as [_ Et].
    unfold U16_IS_LEAD in Et. apply andb_prop in Et. destruct Et as [E1 _].
    apply Z.leb_le in E1.
    unfold U16_IS_SURROGATE in Es. apply andb_prop in Es. destruct Es as [_ E2].
    apply Z.leb_le in E2.
    unfold U16_IS_LEAD in El. apply andb_false_iff in El.
    assert (56320 <= UnicodeString.charAt source i).
    { destruct El as [El|El]; [apply Z.leb_gt in El | apply Z.leb_gt in El]; lia. }
    unfold U16_GET_SUPPLEMENTARY in H. lia.
Qed.

Lemma peek_LF p :
  0 <= index p <= UnicodeString.length source ->
  peek source p = LF ->
  index p < UnicodeString.length source
  /\ UnicodeString.charAt source (index p) = LF.
Proof.
  intros Hi H.
  destruct (Z.lt_ge_cases (index p) (UnicodeString.length source)) as [Hlt|Hge].
  - split; [exact Hlt|].
    rewrite peek_in in H by (exact source_fits || lia).
    apply U16_GET_small; [exact H | unfold LF; lia].
  - rewrite peek_out in H; [discriminate | exact source_fits |].
    unfold UINT32_MOD, INT32_MAX in *. lia.
Qed.

Lemma next_bounds p :
  0 <= index p <= UnicodeString.length source ->
  index p <= index (next source p) <= UnicodeString.length source
  /\ (index p < UnicodeString.length source -> index p < index (next source p)).
Proof.
  intros Hi. rewrite next_index by (exact source_fits || lia).
  destruct (index p <? UnicodeString.length source) eqn:E.
  - apply Z.ltb_lt in E. pose proof (U16_FWD_1_bounds source (index p)). lia.
  - apply Z.ltb_ge in E. lia.
Qed.

Lemma U16_FWD_1_boundary i :
  0 <= i < UnicodeString.length source ->
  atBoundary source (UnicodeString.U16_FWD_1 source i).
Proof.
  intros Hi. unfold atBoundary, UnicodeString.U16_FWD_1.
  destruct (U16_IS_LEAD (UnicodeString.charAt source i)) eqn:El; cbn [andb].
  - destruct (i + 1 =? UnicodeString.length source) eqn:Ee; cbn [andb negb].
    + apply Z.eqb_eq in Ee. lia.
    + destruct (U16_IS_TRAIL (UnicodeString.charAt source (i + 1))) eqn:Et.
      * intros (_ & Hl & _). replace (i + 2 - 1) with (i + 1) in Hl by lia.
        unfold U16_IS_LEAD, U16_IS_TRAIL in *.
        apply andb_prop in Hl, Et. destruct Hl as [_ Hl], Et as [Et _].
        apply Z.leb_le in Hl, Et. lia.
      * intros (_ & _ & Ht). congruence.
  - intros (_ & Hl & _). replace (i + 1 - 1) with i in Hl by lia. congruence.
Qed.

Lemma next_boundary p :
  0 <= index p <= UnicodeString.length source ->
  atBoundary source (index p) -> atBoundary source (index (next source p)).
Proof.
  intros Hi Hb. rewrite next_index by (exact source_fits || lia).
  destruct (index p <? UnicodeString.length source) eqn:E; [|exact Hb].
  apply Z.ltb_lt in E. apply U16_FWD_1_boundary. lia.
Qed.

Lemma countLF_mono a b : a <= b -> countLF source a <= countLF source b.
Proof.
  intros H. unfold countLF.
  assert (Hn : (Z.to_nat a <= Z.to_nat b)%nat) by lia.
  revert Hn. generalize (Z.to_nat a) (Z.to_nat b). clear.
  intros n m Hn. apply inj_le.
  replace m with (n + (m - n))%nat by lia. generalize (m - n)%nat. clear Hn m.
  revert n. induction source as [|c s IH]; intros n k.
  - rewrite !firstn_nil. apply le_n.
  - destruct n as [|n]; cbn [firstn Nat.add].
    + apply Nat.le_0_l.
    + cbn [filter]. specialize (IH n k).
      destruct (LF =? c); cbn [List.length]; lia.
Qed.

Lemma countLF_succ i :
  0 <= i < UnicodeString.length source ->
  UnicodeString.charAt source i = LF ->
  countLF source (i + 1) = countLF source i + 1.
Proof.
  unfold countLF, UnicodeString.charAt, UnicodeString.length. intros Hi Hc.
  replace (Z.to_nat (i + 1)) with (S (Z.to_nat i)) by lia.
  assert (Hn : (Z.to_nat i < List.length source)%nat) by lia.
  revert Hc Hn. generalize (Z.to_nat i). clear. intros n.
  revert n. induction source as [|c s IH]; intros n Hc Hn.
  - cbn [List.length] in Hn. lia.
  - destruct n as [|n].
    + cbn [nth] in Hc. subst c. reflexivity.
    + cbn [nth List.length] in *. specialize (IH n Hc ltac:(lia)).
      change (firstn (S (S n)) (c :: s)) with (c :: firstn (S n) s).
      change (firstn (S n) (c :: s)) with (c :: firstn n s).
      cbn [filter]. destruct (LF =? c); cbn [List.length]; lia.
Qed.

Lemma countLF_le n : 0 <= n -> countLF source n <= n.
Proof.
  intros Hn. unfold countLF.
  pose proof (filter_length_le (Z.eqb LF) (firstn (Z.to_nat n) source)).
  pose proof (firstn_le_length (Z.to_nat n) source). lia.
Qed.

Lemma stable_maybeAdvanceLine p :
  stable source p ->
  forall e, e = parseError (maybeAdvanceLine source p) ->
  index (maybeAdvanceLine source p) = index p
  /\ 0 <= lengthBeforeCurrentLine e <= index p + 1
  /\ (lengthBeforeCurrentLine e = index p + 1 -> index p < UnicodeString.length source)
  /\ (line e = 0 -> lengthBeforeCurrentLine e = 0)
  /\ (0 < lengthBeforeCurrentLine e ->
      UnicodeString.charAt source (lengthBeforeCurrentLine e - 1) = LF)
  /\ 0 <= line e <= countLF source (lengthBeforeCurrentLine e).
Proof.
  intros ((Hi & Hb) & Hl & H0 & Hc & Hn) e ->. unfold maybeAdvanceLine.
  destruct (peek source p =? LF) eqn:E.
  - apply Z.eqb_eq in E. destruct (peek_LF p Hi E) as [Hlt Hch].
    cbn -[countLF].
    pose proof (countLF_le (lengthBeforeCurrentLine (parseError p)) ltac:(lia)).
    pose proof (countLF_mono (lengthBeforeCurrentLine (parseError p)) (index p) ltac:(lia)).
    pose proof (countLF_succ (index p) ltac:(lia) Hch).
    pose proof (countLF_le (index p) ltac:(lia)).
    rewrite !to_uint32_small by (unfold UINT32_MOD, INT32_MAX in *; lia).
    replace (index p + 1 - 1) with (index p) by lia.
    repeat split; try lia; try (intros _; exact Hch).
  - cbn -[countLF]. repeat split; try lia; auto.
Qed.

Lemma step_stable p q : step source p q -> stable source p -> stable source q.
Proof.
  intros Hs Hp. destruct Hs.
  - destruct Hp as ((Hi & Hb) & Hl & H0 & Hc & Hn).
    pose proof (next_bounds p Hi). unfold stable.
    change (parseError (next source p)) with (parseError p).
    repeat split; try lia; auto.
    apply next_boundary; assumption.
  - pose proof (stable_maybeAdvanceLine p Hp _ eq_refl) as (Hx & Hl & Hlt & H0 & Hc & Hn).
    destruct Hp as ((Hi & Hbd) & _).
    assert (Hi' : 0 <= index (maybeAdvanceLine source p) <= UnicodeString.length source) by lia.
    pose proof (next_bounds (maybeAdvanceLine source p) Hi') as [Hb Hb'].
    assert (Hbd' : atBoundary source (index (next source (maybeAdvanceLine source p)))).
    { apply next_boundary; [exact Hi' | rewrite Hx; exact Hbd]. }
    unfold stable.
    change (parseError (next source (maybeAdvanceLine source p)))
      with (parseError (maybeAdvanceLine source p)).
    destruct (Z.eq_dec (lengthBeforeCurrentLine (parseError (maybeAdvanceLine source p)))
                       (index p + 1)) as [Heq|Hne];
      [specialize (Hlt Heq)|]; repeat split; try lia; auto.
  - exact Hp.
  - exact Hp.
  - exact Hp.
  - exact Hp.
Qed.

Lemma steps_stable p q : steps source p q -> stable source p -> stable source q.
Proof.
  intros Hs Hp. induction Hs as [|p q r _ IH Hst]; [exact Hp|].
  eapply step_stable; [exact Hst | apply IH; exact Hp].
Qed.

Lemma stable_new dm e n pre post : stable source (Parser_new dm e n pre post).
Proof.
  unfold stable, atBoundary. cbn -[countLF]. pose proof (ulength_nonneg source).
  repeat split; try lia; try reflexivity.
Qed.

Lemma steps_contexts p q :
  steps source p q ->
  preContext (parseError q) = preContext (parseError p)
  /\ postContext (parseError q) = postContext (parseError p).
Proof.
  intros Hs. induction Hs as [|p q r _ IH Hst]; [split; reflexivity|].
  destruct IH as [IH1 IH2]. rewrite <- IH1, <- IH2.
  destruct Hst; try (split; reflexivity).
  unfold maybeAdvanceLine. destruct (peek source p0 =? LF); split; reflexivity.
Qed.

Lemma steps_index p q :
  steps source p q -> stable source p -> index p <= index q <= UnicodeString.length source.
Proof.
  intros Hs Hp. induction Hs as [|p q r Hpq IH Hst].
  - destruct Hp as ((Hi & _) & _). lia.
  - specialize (IH Hp). pose proof (steps_stable p q Hpq Hp) as Hq.
    pose proof (step_stable q r Hst Hq) as ((Hr & _) & _).
    destruct Hq as ((Hi & _) & _).
    destruct Hst; cbn [index set_parseError set_errors set_normalizedInput set_dataModel];
      try lia.
    + pose proof (next_bounds p0 Hi). lia.
    + assert (index (maybeAdvanceLine source p0) = index p0) as Hx.
      { unfold maybeAdvanceLine. destruct (peek source p0 =? LF); reflexivity. }
      pose proof (next_bounds (maybeAdvanceLine source p0) ltac:(lia)). lia.
Qed.

End Invariants.


(** ** Diagnostics *)

Lemma Parser_new_contexts dm e n pre post :
  Parser_new dm e n pre post
  = with_contexts (store0 pre) (store0 post) (Parser_new dm e n [] []).
Proof. reflexivity. Qed.

Lemma translateParseError_store0 pre post p :
  translateParseError (parseError (with_contexts (store0 pre) (store0 post) p))
  = translateParseError (parseError (with_contexts (store0 []) (store0 []) p)).
Proof. reflexivity. Qed.

(** C6: when a parse fails, the diagnostic translated from the internal
    parse-error record at the end of the parse holds the absolute offset,
    the line and the offset within the line; its pre-context and
    post-context are bounded in length and empty: the parser does not fill
    the two context fields. *)
Theorem C6_diagnostic_contexts_empty (unisets_get : unisets.Key -> UnicodeSet)
    (source : UnicodeString.t) (dm : MFDataModel) (e : StaticErrors)
    (n : UnicodeString.t) (pre post : list UChar) (r : ParseResult) :
  parse unisets_get source (Parser_new dm e n pre post) = Some r ->
  U_FAILURE (status r) = true ->
  diagnostic r = translateParseError (parseError (final r))
  /\ UParseError.absoluteOffset (diagnostic r)
     = to_uint32 (lengthBeforeCurrentLine (parseError (final r))
                  + offset (parseError (final r)))
  /\ UParseError.line (diagnostic r) = line (parseError (final r))
  /\ UParseError.offset (diagnostic r) = offset (parseError (final r))
  /\ UParseError.preContext (diagnostic r) = []
  /\ UParseError.postContext (diagnostic r) = []
  /\ (List.length (UParseError.preContext (diagnostic r)) < U_PARSE_CONTEXT_LEN)%nat
  /\ (List.length (UParseError.postContext (diagnostic r)) < U_PARSE_CONTEXT_LEN)%nat.
Proof.
  intros Hp Hf. unfold parse in Hp.
  pose proof (proj1 (sound_parseMessage unisets_get source) (Parser_new dm e n pre post)) as Hs.
  destruct (parseMessage unisets_get source (Parser_new dm e n pre post)) as [[] p| k p|];
    inversion Hp; subst r; clear Hp; cbn [status] in Hf; try discriminate.
  cbn [diagnostic final].
  destruct (steps_contexts source _ _ Hs) as [H1 H2].
  cbn [translateParseError UParseError.preContext UParseError.postContext
       UParseError.absoluteOffset UParseError.line UParseError.offset].
  rewrite H1, H2. cbn. repeat split; try reflexivity; unfold U_PARSE_CONTEXT_LEN; lia.
Qed.

Lemma C6_diagnostic_contexts_empty_witness :
  exists r,
    parse mf2_unisets (ustr "{|abc}") (Parser_new emptyDataModel [] [] [7; 7] [8; 8]) = Some r
    /\ U_FAILURE (status r) = true
    /\ UParseError.absoluteOffset (diagnostic r) = 6
    /\ UParseError.preContext (diagnostic r) = []
    /\ UParseError.postContext (diagnostic r) = [].
Proof.
  eexists. split; [vm_compute; reflexivity|]. split; [reflexivity|].
  split; [reflexivity|].
  pose proof (C6_diagnostic_contexts_empty mf2_unisets (ustr "{|abc}") emptyDataModel
                [] [] [7; 7] [8; 8] _ ltac:(vm_compute; reflexivity) eq_refl) as H.
  split; [apply H | apply H].
Defined.

Lemma C6_counterexample :
  exists r,
    parseString (ustr "{|abc}") = Some r
    /\ status r = U_ERROR UnterminatedLiteral
    /\ UParseError.absoluteOffset (diagnostic r) = 6
    /\ UParseError.preContext (diagnostic r) = []
    /\ UParseError.postContext (diagnostic r) = [].
Proof. eexists. split; [vm_compute; reflexivity|]. repeat split. Qed.

(** ** Options, attributes and matchers *)

Lemma absoluteOffset_setParseError e i :
  0 <= i < UINT32_MOD ->
  UParseError.absoluteOffset (translateParseError (setParseError e i)) = i.
Proof.
  intros Hi. cbn [translateParseError setParseError UParseError.absoluteOffset
                  lengthBeforeCurrentLine offset].
  unfold to_uint32. rewrite Z.add_mod_idemp_r by (unfold UINT32_MOD; lia).
  replace (lengthBeforeCurrentLine e + (i - lengthBeforeCurrentLine e)) with i by lia.
  apply Z.mod_small. exact Hi.
Qed.

Lemma hasName_entriesNamed k m :
  hasName k m = true -> (1 <= List.length (entriesNamed k m))%nat.
Proof.
  unfold hasName, entriesNamed. induction m as [|kv m IH]; cbn [existsb filter].
  - discriminate.
  - destruct (UnicodeString_eqb (fst kv) k); cbn [orb List.length]; [lia | exact IH].
Qed.

Lemma UnicodeString_eqb_refl k : UnicodeString_eqb k k = true.
Proof. unfold UnicodeString_eqb. destruct (list_eq_dec Z.eq_dec k k); congruence. Qed.

Lemma entriesNamed_app k m r :
  List.length (entriesNamed k (m ++ [(k, r)])) = S (List.length (entriesNamed k m)).
Proof.
  unfold entriesNamed. rewrite filter_app, List.length_app. cbn [filter fst].
  rewrite UnicodeString_eqb_refl. cbn [List.length]. lia.
Qed.

Section OptionsAndAttributes.

Variable unisets_get : unisets.Key -> UnicodeSet.
Variable source : UnicodeString.t.

(* A refused option stops the parse where the option started. *)
Lemma parseOption_refused {T} `{OptionBuilder T} (adder : OptionAdder T)
    (p p1 : Parser) (k : UnicodeString.t) (r : Operand) :
  0 <= index p < UINT32_MOD ->
  optionSyntax unisets_get source p = Ok (k, r) p1 ->
  addOption k r U_ZERO_ERROR (optionBuilder adder)
    = (optionBuilder adder, U_ERROR DuplicateOption) ->
  exists p',
    parseOption unisets_get source adder p = Fatal DuplicateOption p'
    /\ In DuplicateOption (errors p')
    /\ UParseError.absoluteOffset (translateParseError (parseError p')) = index p.
Proof.
  intros Hi Hs Ha. unfold parseOption, bind, gets. rewrite Hs. cbn [fst snd].
  unfold OptionAdder_addOption. rewrite Ha.
  eexists. split; [reflexivity|]. split.
  - cbn. apply in_or_app. right. left. reflexivity.
  - cbn [parseError set_parseError set_errors]. apply absoluteOffset_setParseError. exact Hi.
Qed.

(* An accepted attribute is appended to the builder's list. *)
Lemma parseAttribute_accepted {T} `{AttributeBuilder T} (adder : AttributeAdder T)
    (p p1 : Parser) (k : UnicodeString.t) (r : Operand) (b' : T) :
  attributeSyntax unisets_get source p = Ok (k, r) p1 ->
  addAttribute k r U_ZERO_ERROR (attributeBuilder adder) = (b', U_ZERO_ERROR) ->
  parseAttribute unisets_get source adder p = Ok (mkAttributeAdder b') p1.
Proof.
  intros Hs Ha. unfold parseAttribute, bind. rewrite Hs. cbn [fst snd].
  unfold AttributeAdder_addAttribute. rewrite Ha. reflexivity.
Qed.


Lemma existsb_keyCountDiffers selectors variants :
  existsb (keyCountDiffers selectors) variants = true
  <-> exists v, In v variants /\ List.length (keys v) <> List.length selectors.
Proof.
  rewrite existsb_exists. unfold keyCountDiffers.
  split; intros (v & Hv & H); exists v; (split; [exact Hv|]).
  - apply negb_true_iff, Nat.eqb_neq in H. exact H.
  - apply negb_true_iff, Nat.eqb_neq. exact H.
Qed.

Lemma allWildcards_spec v :
  allWildcards v = true <-> forall k, In k (keys v) -> k = Wildcard.
Proof.
  unfold allWildcards. rewrite forallb_forall.
  split; intros H k Hk; specialize (H k Hk); destruct k; simpl in *; congruence.
Qed.

End OptionsAndAttributes.

(** ** Simple messages *)

Lemma bind_Ok {A B} (m : M A) (k : A -> M B) p b p' :
  bind m k p = Ok b p' -> exists a p1, m p = Ok a p1 /\ k a p1 = Ok b p'.
Proof.
  unfold bind. destruct (m p) as [a p1| |]; intros H; try discriminate.
  exists a, p1. split; [reflexivity | exact H].
Qed.

Lemma span_refl source i : span source i i = [].
Proof. unfold span. rewrite Z.sub_diag. reflexivity. Qed.

Lemma firstn_plus {A} (n m : nat) : forall l : list A,
  firstn (n + m) l = firstn n l ++ firstn m (skipn n l).
Proof.
  induction n as [|n IH]; intros l; [reflexivity|].
  destruct l as [|a l]; cbn [Nat.add firstn skipn app].
  - rewrite firstn_nil. reflexivity.
  - rewrite IH. reflexivity.
Qed.

Lemma span_app source i j k :
  0 <= i <= j -> j <= k ->
  span source i j ++ span source j k = span source i k.
Proof.
  intros Hij Hjk. unfold span.
  replace (Z.to_nat (k - i)) with (Z.to_nat (j - i) + Z.to_nat (k - j))%nat by lia.
  rewrite firstn_plus. f_equal.
  rewrite skipn_skipn. do 2 f_equal. lia.
Qed.

Lemma span_all source : span source 0 (UnicodeString.length source) = source.
Proof.
  unfold span, UnicodeString.length. cbn [Z.to_nat skipn].
  rewrite Z.sub_0_r, Nat2Z.id. apply firstn_all.
Qed.

Lemma split_at (source : UnicodeString.t) i :
  0 <= i < UnicodeString.length source ->
  exists pre a rest, source = pre ++ a :: rest /\ UnicodeString.length pre = i.
Proof.
  intros Hi. unfold UnicodeString.length in *.
  exists (firstn (Z.to_nat i) source).
  destruct (skipn (Z.to_nat i) source) as [|a rest] eqn:E.
  - exfalso. pose proof (length_skipn (Z.to_nat i) source) as H.
    rewrite E in H. cbn [List.length] in H. lia.
  - exists a, rest. split.
    + rewrite <- E. symmetry. apply firstn_skipn.
    + rewrite length_firstn. lia.
Qed.

Lemma span_at pre (mid rest : UnicodeString.t) :
  span (pre ++ mid ++ rest) (UnicodeString.length pre)
       (UnicodeString.length pre + UnicodeString.length mid) = mid.
Proof.
  unfold span, UnicodeString.length.
  replace (Z.of_nat (List.length pre) + Z.of_nat (List.length mid)
           - Z.of_nat (List.length pre)) with (Z.of_nat (List.length mid)) by lia.
  rewrite !Nat2Z.id.
  rewrite skipn_app, skipn_all, Nat.sub_diag. cbn [skipn app].
  rewrite firstn_app, firstn_all, Nat.sub_diag. cbn [firstn]. apply app_nil_r.
Qed.

Lemma span_at_n pre (mid rest : UnicodeString.t) n :
  UnicodeString.length mid = n ->
  span (pre ++ mid ++ rest) (UnicodeString.length pre) (UnicodeString.length pre + n) = mid.
Proof. intros <-. apply span_at. Qed.

Lemma charAt_units16 s j : units16 s -> 0 <= UnicodeString.charAt s j <= 65535.
Proof.
  intros H. unfold UnicodeString.charAt.
  destruct (nth_in_or_default (Z.to_nat j) s 0) as [Hin | Hd].
  - unfold units16 in H. rewrite Forall_forall in H. apply H, Hin.
  - rewrite Hd. lia.
Qed.

Lemma supplementary_range a b :
  U16_IS_LEAD a = true -> U16_IS_TRAIL b = true ->
  65536 <= U16_GET_SUPPLEMENTARY a b <= 1114111.
Proof.
  unfold U16_IS_LEAD, U16_IS_TRAIL, U16_GET_SUPPLEMENTARY. intros Ha Hb.
  apply andb_prop in Ha, Hb. destruct Ha as [A1 A2], Hb as [B1 B2].
  apply Z.leb_le in A1, A2, B1, B2. lia.
Qed.

Lemma U16_GET_range s i : units16 s -> 0 <= UnicodeString.U16_GET s i <= 1114111.
Proof.
  intros Hu. unfold UnicodeString.U16_GET.
  pose proof (charAt_units16 s i Hu). pose proof (charAt_units16 s (i + 1) Hu).
  pose proof (charAt_units16 s (i - 1) Hu).
  destruct (U16_IS_SURROGATE (UnicodeString.charAt s i)) eqn:Es; [|lia].
  destruct (U16_IS_LEAD (UnicodeString.charAt s i)) eqn:El.
  - destruct (_ && _) eqn:E; [|lia]. apply andb_prop in E. destruct E as [_ Et].
    pose proof (supplementary_range _ _ El Et). lia.
  - destruct (_ && _) eqn:E; [|lia]. apply andb_prop in E. destruct E as [_ Ep].
    unfold U16_GET_SUPPLEMENTARY, U16_IS_LEAD, U16_IS_SURROGATE in *.
    apply andb_prop in Ep, Es. destruct Ep as [P1 P2], Es as [S1 S2].
    apply Z.leb_le in P1, P2, S1, S2.
    apply andb_false_iff in El. destruct El as [El|El]; apply Z.leb_gt in El; lia.
Qed.

(* What the cursor shows is a code point, or U+FFFF. *)
Lemma char32At_range s i : units16 s -> 0 <= UnicodeString.char32At s i <= 1114111.
Proof.
  intros Hu. unfold UnicodeString.char32At.
  destruct (_ <? _); [apply U16_GET_range, Hu | unfold UnicodeString.kInvalidUChar; lia].
Qed.

Lemma peek_range s p : units16 s -> 0 <= peek s p <= 1114111.
Proof. intros Hu. unfold peek. apply char32At_range, Hu. Qed.

Lemma take_range s c p p' : units16 s -> take s p = Ok c p' -> 0 <= c <= 1114111.
Proof.
  intros Hu H. unfold take, bind, gets, normalize, consume, modify, ret in H.
  inversion H; subst c. apply peek_range, Hu.
Qed.

Section SimpleMessage.

Variable unisets_get : unisets.Key -> UnicodeSet.
Variable source : UnicodeString.t.
Hypothesis source_fits : UnicodeString.length source <= INT32_MAX.
Hypothesis source_units : units16 source.

Lemma surrogate_not_lead_is_trail c :
  U16_IS_SURROGATE c = true -> U16_IS_LEAD c = false -> U16_IS_TRAIL c = true.
Proof.
  unfold U16_IS_SURROGATE, U16_IS_LEAD, U16_IS_TRAIL. intros Hs Hl.
  apply andb_prop in Hs. destruct Hs as [H1 H2]. apply Z.leb_le in H1, H2.
  apply andb_false_iff in Hl. apply andb_true_intro.
  split; apply Z.leb_le; destruct Hl as [Hl|Hl]; apply Z.leb_gt in Hl; lia.
Qed.

(* One code point of the input, at a code point boundary. *)
Lemma span_code_point i :
  0 <= i < UnicodeString.length source ->
  atBoundary source i ->
  span source i (UnicodeString.U16_FWD_1 source i)
  = utf16 (UnicodeString.U16_GET source i).
Proof.
  intros Hi Hb.
  destruct (split_at source i Hi) as (pre & a & rest & Hsrc & Hpre).
  assert (Ha : 0 <= a <= 65535).
  { unfold units16 in source_units. rewrite Hsrc in source_units.
    apply Forall_app in source_units. destruct source_units as [_ H].
    inversion H; assumption. }
  assert (Hca : UnicodeString.charAt source i = a).
  { rewrite Hsrc, <- Hpre. rewrite charAt_app_0. reflexivity. }
  destruct (U16_IS_LEAD a) eqn:El.
  - destruct rest as [|b rest'].
    + (* a lead at the end of the input *)
      assert (Hend : i + 1 = UnicodeString.length source).
      { rewrite Hsrc, ulength_app, ulength_cons, Hpre.
        change (UnicodeString.length []) with 0. lia. }
      unfold UnicodeString.U16_FWD_1, UnicodeString.U16_GET.
      rewrite Hca, El, (lead_is_surrogate _ El).
      rewrite (proj2 (Z.eqb_eq _ _) Hend). cbn [negb andb].
      rewrite Hsrc, <- Hpre.
      change (pre ++ [a]) with (pre ++ [a] ++ []).
      rewrite (span_at_n pre [a] [] 1) by reflexivity.
      unfold utf16. rewrite (proj2 (Z.leb_le _ _) (proj2 Ha)). reflexivity.
    + assert (Hcb : UnicodeString.charAt source (i + 1) = b).
      { rewrite Hsrc, <- Hpre. rewrite charAt_app_1. reflexivity. }
      assert (Hne : (i + 1 =? UnicodeString.length source) = false).
      { apply Z.eqb_neq. rewrite Hsrc, ulength_app, !ulength_cons, Hpre.
        pose proof (ulength_nonneg rest'). lia. }
      unfold UnicodeString.U16_FWD_1, UnicodeString.U16_GET.
      rewrite Hca, El, (lead_is_surrogate _ El), Hne, Hcb. cbn [negb andb].
      destruct (U16_IS_TRAIL b) eqn:Et.
      * rewrite Hsrc, <- Hpre.
        change (pre ++ a :: b :: rest') with (pre ++ [a; b] ++ rest').
        rewrite (span_at_n pre [a; b] rest' 2) by reflexivity.
        unfold utf16, U16_GET_SUPPLEMENTARY.
        unfold U16_IS_LEAD, U16_IS_TRAIL in El, Et.
        apply andb_prop in El, Et. destruct El as [L1 L2], Et as [T1 T2].
        apply Z.leb_le in L1, L2, T1, T2.
        assert (((a - 55296) * 1024 + (b - 56320) + 65536 <=? 65535) = false) as ->
          by (apply Z.leb_gt; lia).
        replace ((a - 55296) * 1024 + (b - 56320) + 65536 - 65536)
          with ((b - 56320) + (a - 55296) * 1024) by lia.
        rewrite Z.div_add by lia. rewrite Z.mod_add by lia.
        rewrite Z.div_small, Z.mod_small by lia. cbn [app]. f_equal; [lia|f_equal; lia].
      * rewrite Hsrc, <- Hpre.
        change (pre ++ a :: b :: rest') with (pre ++ [a] ++ b :: rest').
        rewrite (span_at_n pre [a] (b :: rest') 1) by reflexivity.
        unfold utf16. rewrite (proj2 (Z.leb_le _ _) (proj2 Ha)). reflexivity.
  - assert (Hget : UnicodeString.U16_GET source i = a).
    { unfold UnicodeString.U16_GET. rewrite Hca, El.
      destruct (U16_IS_SURROGATE a) eqn:Es; [|reflexivity].
      destruct ((0 <? i) && U16_IS_LEAD (UnicodeString.charAt source (i - 1))) eqn:E;
        [|reflexivity].
      exfalso. apply Hb. apply andb_prop in E. destruct E as [E1 E2].
      apply Z.ltb_lt in E1. rewrite Hca.
      split; [lia|]. split; [exact E2|].
      apply surrogate_not_lead_is_trail; assumption. }
    rewrite Hget. unfold UnicodeString.U16_FWD_1. rewrite Hca, El. cbn [andb].
    rewrite Hsrc, <- Hpre.
    change (pre ++ a :: rest) with (pre ++ [a] ++ rest).
    rewrite (span_at_n pre [a] rest 1) by reflexivity.
    unfold utf16. rewrite (proj2 (Z.leb_le _ _) (proj2 Ha)). reflexivity.
Qed.


Lemma inBounds_lt p :
  stable source p -> inBounds source p = true ->
  index p < UnicodeString.length source.
Proof.
  intros ((Hi & _) & _) H. unfold inBounds in H.
  rewrite to_int32_small in H by lia. apply Z.ltb_lt in H. exact H.
Qed.

Lemma index_next_lt p :
  stable source p -> index p < UnicodeString.length source ->
  index (next source p) = UnicodeString.U16_FWD_1 source (index p).
Proof.
  intros ((Hi & _) & _) Hlt. rewrite next_index by (exact source_fits || lia).
  rewrite (proj2 (Z.ltb_lt _ _) Hlt). reflexivity.
Qed.

Lemma ate_span c p p' :
  stable source p -> ate source c p p' ->
  span source (index p) (index p') = utf16 c.
Proof.
  intros Hst (Hlt & Hc & Hi & _). destruct Hst as ((Hb & Hbd) & _).
  rewrite Hi, Hc, peek_in by (exact source_fits || lia).
  apply span_code_point; [lia | exact Hbd].
Qed.

Lemma ate_stable c p p' : stable source p -> ate source c p p' -> stable source p'.
Proof. intros Hst (_ & _ & _ & Hs). eapply steps_stable; eauto. Qed.

Lemma ate_index c p p' :
  stable source p -> ate source c p p' ->
  index p < index p' <= UnicodeString.length source.
Proof.
  intros ((Hb & _) & _) (Hlt & _ & Hi & _). rewrite Hi.
  apply U16_FWD_1_bounds. lia.
Qed.

Lemma take_Ok c p p' :
  stable source p -> inBounds source p = true ->
  take source p = Ok c p' -> ate source c p p'.
Proof.
  intros Hst Hin H. pose proof (inBounds_lt p Hst Hin) as Hlt.
  pose proof (proj1 (sound_take source) p) as Hs. rewrite H in Hs.
  unfold take, bind, gets, normalize, consume, modify, ret in H.
  inversion H; subst c p'; clear H.
  repeat split; try assumption.
  rewrite <- (index_next_lt p Hst Hlt).
  unfold next, maybeAdvanceLine.
  destruct (peek source _ =? LF); reflexivity.
Qed.

Lemma atCursor_Ok pred b p p' :
  atCursor source pred p = Ok b p' ->
  p' = p /\ b = inBounds source p && pred (peek source p).
Proof. unfold atCursor, gets. intros H. inversion H. split; reflexivity. Qed.

Lemma parseToken_Ok c p p' :
  stable source p -> parseToken source c p = Ok tt p' -> ate source c p p'.
Proof.
  intros Hst H.
  pose proof (proj1 (sound_parseToken source c) p) as Hs. rewrite H in Hs.
  unfold parseToken, bind, atCursor, gets in H.
  destruct (inBounds source p) eqn:Hin; cbn [andb] in H; [|discriminate].
  destruct (c =? peek source p) eqn:Hc; [|discriminate].
  apply Z.eqb_eq in Hc. pose proof (inBounds_lt p Hst Hin) as Hlt.
  unfold normalize, modify in H. inversion H; subst p'; clear H.
  repeat split; try assumption.
  apply (index_next_lt p Hst Hlt).
Qed.

Lemma parseEscapeSequence_Ok e p p' :
  stable source p ->
  parseEscapeSequence unisets_get source p = Ok e p' ->
  exists c p1, ate source BACKSLASH p p1 /\ ate source c p1 p' /\ e = utf16 c.
Proof.
  intros Hst H. unfold parseEscapeSequence in H.
  apply bind_Ok in H. destruct H as ([] & p1 & Ht & H).
  pose proof (parseToken_Ok _ _ _ Hst Ht) as Ha.
  pose proof (ate_stable _ _ _ Hst Ha) as Hst1.
  apply bind_Ok in H. destruct H as (b & p2 & Hc & H).
  apply atCursor_Ok in Hc. destruct Hc as [-> Hb].
  destruct b; [|discriminate].
  symmetry in Hb. apply andb_prop in Hb. destruct Hb as [Hin _].
  apply bind_Ok in H. destruct H as (c & p3 & Htk & H).
  inversion H; subst e p3; clear H.
  exists c, p1. split; [exact Ha|]. split.
  - apply take_Ok; assumption.
  - apply (append32_utf16 []). exact (take_range _ _ _ _ source_units Htk).
Qed.

Lemma parseTextChar_Ok t p p' :
  stable source p ->
  parseTextChar unisets_get source p = Ok t p' ->
  exists c, ate source c p p' /\ t = utf16 c.
Proof.
  intros Hst H. unfold parseTextChar in H.
  apply bind_Ok in H. destruct H as (b & p2 & Hc & H).
  apply atCursor_Ok in Hc. destruct Hc as [-> Hb].
  destruct b; [|discriminate].
  symmetry in Hb. apply andb_prop in Hb. destruct Hb as [Hin _].
  apply bind_Ok in H. destruct H as (c & p3 & Htk & H).
  inversion H; subst t p3; clear H.
  exists c. split; [apply take_Ok; assumption|].
  apply (append32_utf16 []). exact (take_range _ _ _ _ source_units Htk).
Qed.

Lemma sound_outcome {A} (m : M A) a p p' :
  sound source m -> m p = Ok a p' -> steps source p p'.
Proof. intros [H _] E. specialize (H p). rewrite E in H. exact H. Qed.

Lemma parsePlaceholder_Ok part p p' :
  stable source p ->
  parsePlaceholder unisets_get source p = Ok part p' ->
  exists p1, ate source LEFT_CURLY_BRACE p p1 /\ steps source p1 p'.
Proof.
  intros Hst H. unfold parsePlaceholder in H.
  apply bind_Ok in H. destruct H as (n & p0 & Hg & H).
  unfold gets in Hg. inversion Hg; subst p0; clear Hg.
  apply bind_Ok in H. destruct H as (b & p0 & Hg & H).
  unfold peekIs, gets in Hg. inversion Hg; subst p0; clear Hg H1.
  destruct b.
  - apply bind_Ok in H. destruct H as (m & p2 & Hm & H).
    inversion H; subst; clear H.
    unfold parseMarkup in Hm.
    apply bind_Ok in Hm. destruct Hm as ([] & p1 & Ht & Hm).
    exists p1. split; [apply parseToken_Ok; assumption|].
    eapply (sound_outcome _ _ _ _ _ Hm). Unshelve.
    sound_auto.
  - apply bind_Ok in H. destruct H as (m & p2 & Hm & H).
    inversion H; subst; clear H.
    unfold parseExpression in Hm.
    apply bind_Ok in Hm. destruct Hm as ([] & p1 & Ht & Hm).
    exists p1. split; [apply parseToken_Ok; assumption|].
    eapply (sound_outcome _ _ _ _ _ Hm). Unshelve.
    sound_auto.
Qed.


Lemma utf16_small c : 0 <= c <= 65535 -> utf16 c = [c].
Proof.
  intros H. unfold utf16. rewrite (proj2 (Z.leb_le _ _) (proj2 H)). reflexivity.
Qed.

Lemma resolveEscapes_escape c rest :
  resolveEscapes (BACKSLASH :: utf16 c ++ rest) = utf16 c ++ resolveEscapes rest.
Proof.
  unfold utf16. destruct (c <=? 65535); cbn [app resolveEscapes].
  - rewrite Z.eqb_refl. reflexivity.
  - rewrite Z.eqb_refl.
    assert (0 <= (c - 65536) mod 1024 < 1024) by (apply Z.mod_pos_bound; lia).
    assert ((56320 + (c - 65536) mod 1024 =? BACKSLASH) = false) as ->
      by (apply Z.eqb_neq; unfold BACKSLASH; lia).
    reflexivity.
Qed.

Lemma resolveEscapes_plain c rest :
  0 <= c -> c <> BACKSLASH ->
  resolveEscapes (utf16 c ++ rest) = utf16 c ++ resolveEscapes rest.
Proof.
  intros H0 Hc. unfold utf16. destruct (c <=? 65535) eqn:E; cbn [app resolveEscapes].
  - rewrite (proj2 (Z.eqb_neq _ _) Hc). reflexivity.
  - apply Z.leb_gt in E.
    assert (0 <= (c - 65536) / 1024) by (apply Z.div_pos; lia).
    assert (0 <= (c - 65536) mod 1024 < 1024) by (apply Z.mod_pos_bound; lia).
    assert ((55296 + (c - 65536) / 1024 =? BACKSLASH) = false) as ->
      by (apply Z.eqb_neq; unfold BACKSLASH; lia).
    assert ((56320 + (c - 65536) mod 1024 =? BACKSLASH) = false) as ->
      by (apply Z.eqb_neq; unfold BACKSLASH; lia).
    reflexivity.
Qed.

Lemma hd_span_brace p p1 p' :
  stable source p -> ate source LEFT_CURLY_BRACE p p1 -> steps source p1 p' ->
  hd 0 (span source (index p) (index p')) = LEFT_CURLY_BRACE.
Proof.
  intros Hst Ha Hs.
  pose proof (ate_stable _ _ _ Hst Ha) as Hst1.
  pose proof (ate_index _ _ _ Hst Ha) as Hi.
  pose proof (steps_index source source_fits _ _ Hs Hst1) as Hi'.
  pose proof Hst as Hst0. destruct Hst as ((Hb & _) & _).
  rewrite <- (span_app source (index p) (index p1) (index p')) by lia.
  rewrite (ate_span _ _ _ Hst0 Ha).
  reflexivity.
Qed.


Lemma parsePlaceholder_part part p p' :
  parsePlaceholder unisets_get source p = Ok part p' ->
  textOf [part] = [] /\ placeholdersOf [part] = [part].
Proof.
  intros H. unfold parsePlaceholder in H.
  apply bind_Ok in H. destruct H as (n & p0 & _ & H).
  apply bind_Ok in H. destruct H as (b & p1 & _ & H).
  destruct b; apply bind_Ok in H; destruct H as (m & p2 & _ & H);
    inversion H; subst; split; reflexivity.
Qed.

Lemma parseSimpleMessage_loop p :
  parseSimpleMessage unisets_get source p
  = loop (S (Z.to_nat (UnicodeString.length source - index p))) (simpleMessageStep unisets_get source) [] p.
Proof. reflexivity. Qed.

Lemma textOf_app a b : textOf (a ++ b) = textOf a ++ textOf b.
Proof. unfold textOf. apply flat_map_app. Qed.

Lemma placeholdersOf_app a b : placeholdersOf (a ++ b) = placeholdersOf a ++ placeholdersOf b.
Proof. unfold placeholdersOf. apply flat_map_app. Qed.

Lemma simpleMessage_segments fuel : forall acc p pat p',
  stable source p ->
  loop fuel (simpleMessageStep unisets_get source) acc p = Ok pat p' ->
  exists segs,
    flat_map segmentUnits segs = span source (index p) (index p')
    /\ textOf pat = textOf acc ++ resolveEscapes (rawText segs)
    /\ placeholdersOf pat = placeholdersOf acc ++ segmentPlaceholders segs
    /\ Forall (placeholderSegment unisets_get source) segs
    /\ index p <= index p'
    /\ index p' = UnicodeString.length source.
Proof.
  induction fuel as [|fuel IH]; intros acc p pat p' Hst H; [discriminate|].
  cbn [loop] in H. unfold simpleMessageStep at 1 in H.
  unfold bind at 1 in H. unfold gets at 1 in H.
  destruct (inBounds source p) eqn:Hin.
  - unfold bind at 1 in H. unfold gets at 1 in H.
    destruct (peek source p =? LEFT_CURLY_BRACE) eqn:Eb.
    + (* a placeholder *)
      unfold bind at 1 in H.
      destruct (parsePlaceholder unisets_get source p) as [part p1| |] eqn:Ep;
        try discriminate.
      cbn [ret] in H.
      destruct (parsePlaceholder_Ok part p p1 Hst Ep) as (p0 & Ha & Hs).
      pose proof (ate_stable _ _ _ Hst Ha) as Hst0.
      pose proof (steps_stable source source_fits _ _ Hs Hst0) as Hst1.
      pose proof (ate_index _ _ _ Hst Ha) as Hi0.
      pose proof (steps_index source source_fits _ _ Hs Hst0) as Hi1.
      destruct (IH _ _ _ _ Hst1 H) as (segs & Hu & Ht & Hp & Hf & Hle & Hend).
      exists (PlaceholderSource (span source (index p) (index p1)) part :: segs).
      pose proof Hst as ((Hb & _) & _).
      split; [|split; [|split; [|split; [|split]]]].
      * cbn [flat_map segmentUnits]. rewrite Hu. apply span_app; lia.
      * cbn [rawText flat_map app]. fold (rawText segs).
        rewrite Ht, textOf_app, (proj1 (parsePlaceholder_part _ _ _ Ep)).
        rewrite app_nil_r. reflexivity.
      * cbn [segmentPlaceholders flat_map]. fold (segmentPlaceholders segs).
        rewrite Hp, placeholdersOf_app, (proj2 (parsePlaceholder_part _ _ _ Ep)).
        rewrite <- app_assoc. reflexivity.
      * constructor; [|exact Hf]. split.
        -- eapply hd_span_brace; eauto.
        -- exists p, p1. split; [exact Ep | reflexivity].
      * lia.
      * exact Hend.
    + destruct (peek source p =? BACKSLASH) eqn:Es.
      * (* an escape sequence *)
        unfold bind at 1 in H.
        destruct (parseEscapeSequence unisets_get source p) as [e p1| |] eqn:Ep;
          try discriminate.
        cbn [ret] in H.
        destruct (parseEscapeSequence_Ok e p p1 Hst Ep) as (c & p0 & Ha0 & Ha1 & He).
        pose proof (ate_stable _ _ _ Hst Ha0) as Hst0.
        pose proof (ate_stable _ _ _ Hst0 Ha1) as Hst1.
        pose proof (ate_index _ _ _ Hst Ha0) as Hi0.
        pose proof (ate_index _ _ _ Hst0 Ha1) as Hi1.
        destruct (IH _ _ _ _ Hst1 H) as (segs & Hu & Ht & Hp & Hf & Hle & Hend).
        exists (RawText (BACKSLASH :: utf16 c) :: segs).
        destruct Hst as ((Hb & Hbd) & Hrest).
        split; [|split; [|split; [|split; [|split]]]].
        -- cbn [flat_map segmentUnits]. rewrite Hu.
           rewrite <- (span_app source (index p) (index p0) (index p')) by lia.
           rewrite <- (span_app source (index p0) (index p1) (index p')) by lia.
           rewrite (ate_span _ _ _ (conj (conj Hb Hbd) Hrest) Ha0).
           rewrite (ate_span _ _ _ Hst0 Ha1). reflexivity.
        -- cbn [rawText flat_map]. fold (rawText segs).
           rewrite <- app_comm_cons, resolveEscapes_escape.
           rewrite Ht, textOf_app. cbn [textOf flat_map]. rewrite app_nil_r, He.
           rewrite <- app_assoc. reflexivity.
        -- cbn [segmentPlaceholders flat_map app]. rewrite Hp, placeholdersOf_app.
           cbn [placeholdersOf flat_map]. rewrite app_nil_r. reflexivity.
        -- constructor; [exact I | exact Hf].
        -- lia.
        -- exact Hend.
      * (* a text character *)
        unfold bind at 1 in H.
        destruct (parseTextChar unisets_get source p) as [t p1| |] eqn:Ep;
          try discriminate.
        cbn [ret] in H.
        destruct (parseTextChar_Ok t p p1 Hst Ep) as (c & Ha & He).
        pose proof (ate_stable _ _ _ Hst Ha) as Hst1.
        pose proof (ate_index _ _ _ Hst Ha) as Hi1.
        destruct (IH _ _ _ _ Hst1 H) as (segs & Hu & Ht & Hp & Hf & Hle & Hend).
        exists (RawText (utf16 c) :: segs).
        pose proof (proj1 (peek_range source p source_units)) as Hnn.
        assert (Hc : c = peek source p) by (destruct Ha as (_ & Hc & _); exact Hc).
        split; [|split; [|split; [|split; [|split]]]].
        -- cbn [flat_map segmentUnits]. rewrite Hu.
           destruct Hst as ((Hb & Hbd) & Hrest).
           rewrite <- (span_app source (index p) (index p1) (index p')) by lia.
           rewrite (ate_span _ _ _ (conj (conj Hb Hbd) Hrest) Ha). reflexivity.
        -- cbn [rawText flat_map]. fold (rawText segs).
           rewrite resolveEscapes_plain;
             [| rewrite Hc; exact Hnn | rewrite Hc; apply Z.eqb_neq; exact Es].
           rewrite Ht, textOf_app. cbn [textOf flat_map]. rewrite app_nil_r, He.
           rewrite <- app_assoc. reflexivity.
        -- cbn [segmentPlaceholders flat_map app]. rewrite Hp, placeholdersOf_app.
           cbn [placeholdersOf flat_map]. rewrite app_nil_r. reflexivity.
        -- constructor; [exact I | exact Hf].
        -- lia.
        -- exact Hend.
  - cbn [ret] in H. inversion H; subst pat p'; clear H.
    exists []. cbn [flat_map rawText segmentPlaceholders resolveEscapes].
    rewrite span_refl, !app_nil_r.
    repeat split; try reflexivity; try lia; [constructor|].
    destruct Hst as ((Hb & _) & _). unfold inBounds in Hin.
    rewrite to_int32_small in Hin by lia. apply Z.ltb_ge in Hin. lia.
Qed.

End SimpleMessage.


(** ** Every parser function returns *)

Section Totality.

Variable source : UnicodeString.t.
Hypothesis source_fits : UnicodeString.length source <= INT32_MAX.

Lemma sound_stable {A} (m : M A) a p p' :
  sound source m -> stable source p -> m p = Ok a p' -> stable source p'.
Proof.
  intros Hm Hp E. eapply steps_stable; [exact source_fits | | exact Hp].
  eapply sound_outcome; eauto.
Qed.

Lemma sound_monotone {A} (m : M A) a p p' :
  sound source m -> stable source p -> m p = Ok a p' -> index p <= index p'.
Proof.
  intros Hm Hp E.
  pose proof (steps_index source source_fits p p' (sound_outcome source m a p p' Hm E) Hp).
  lia.
Qed.

Lemma total_ret {A} (a : A) : total source (ret a).
Proof. intros p _. discriminate. Qed.

Lemma total_gets {A} (f : Parser -> A) : total source (gets f).
Proof. intros p _. discriminate. Qed.

Lemma total_modify f : total source (modify f).
Proof. intros p _. discriminate. Qed.

Lemma total_abortAt {A} i k : total source (@abortAt A i k).
Proof. intros p _. discriminate. Qed.

Lemma total_fatalAt {A} i k : total source (@fatalAt A i k).
Proof. intros p _. discriminate. Qed.

Lemma total_fatal {A} k : total source (@fatal A k).
Proof. intros p _. discriminate. Qed.

Lemma total_bind {A B} (m : M A) (k : A -> M B) :
  total source m -> sound source m -> (forall a, total source (k a)) ->
  total source (bind m k).
Proof.
  intros Hm Hs Hk p Hp. unfold bind.
  destruct (m p) as [a p'| |] eqn:E; try discriminate.
  - apply Hk. eapply sound_stable; eauto.
  - exfalso. exact (Hm p Hp E).
Qed.

Lemma total_loop {A} (body : A -> M (LoopStep A)) :
  (forall a, total source (body a)) ->
  (forall a, sound source (body a)) ->
  (forall a, progresses source (body a)) ->
  forall fuel a p,
    stable source p ->
    UnicodeString.length source - index p < Z.of_nat fuel ->
    loop fuel body a p <> OutOfFuel.
Proof.
  intros Ht Hs Hp fuel. induction fuel as [|fuel IH]; intros a p Hst Hf.
  - destruct Hst as ((Hi & _) & _). cbn in Hf. lia.
  - cbn [loop]. destruct (body a p) as [[a'|a'] p'| |] eqn:E; try discriminate.
    + apply IH.
      * eapply sound_stable; eauto.
      * pose proof (Hp a p a' p' Hst E). lia.
    + exfalso. exact (Ht a p Hst E).
Qed.

Lemma total_while {A} (body : A -> M (LoopStep A)) (a : A) :
  (forall a, total source (body a)) ->
  (forall a, sound source (body a)) ->
  (forall a, progresses source (body a)) ->
  total source (while source body a).
Proof.
  intros Ht Hs Hp p Hst. unfold while.
  apply total_loop; try assumption.
  destruct Hst as ((Hi & _) & _). lia.
Qed.

Lemma advances_bind_l {A B} (m : M A) (k : A -> M B) :
  advances source m -> sound source m -> (forall a, sound source (k a)) ->
  advances source (bind m k).
Proof.
  intros Hm Hs Hk p b p' Hp E. apply bind_Ok in E. destruct E as (a & p1 & E1 & E2).
  pose proof (Hm p a p1 Hp E1).
  pose proof (sound_monotone (k a) b p1 p' (Hk a) (sound_stable m a p p1 Hs Hp E1) E2).
  lia.
Qed.

Lemma advances_bind_r {A B} (m : M A) (k : A -> M B) :
  sound source m -> (forall a, advances source (k a)) ->
  advances source (bind m k).
Proof.
  intros Hs Hk p b p' Hp E. apply bind_Ok in E. destruct E as (a & p1 & E1 & E2).
  pose proof (sound_monotone m a p p1 Hs Hp E1).
  pose proof (Hk a p1 b p' (sound_stable m a p p1 Hs Hp E1) E2).
  lia.
Qed.

Lemma advances_fatal {A} k : advances source (@fatal A k).
Proof. intros p a p' _ E. discriminate. Qed.

Lemma advances_fatalAt {A} i k : advances source (@fatalAt A i k).
Proof. intros p a p' _ E. discriminate. Qed.

Lemma progresses_break {A} (a : A) : progresses source (ret (Break a)).
Proof. intros p a' p' _ E. discriminate. Qed.

Lemma progresses_fatal {A} k : progresses source (@fatal (LoopStep A) k).
Proof. intros p a' p' _ E. discriminate. Qed.

(* [m ;; ... ;; ret (Continue a)] progresses when [m] advances. *)
Lemma progresses_advances {A B} (m : M B) (k : B -> M (LoopStep A)) :
  advances source m -> sound source m -> (forall b, sound source (k b)) ->
  progresses source (bind m k).
Proof.
  intros Hm Hs Hk p a p' Hp E.
  exact (advances_bind_l m k Hm Hs Hk p (Continue a) p' Hp E).
Qed.

Lemma progresses_bind_r {A B} (m : M B) (k : B -> M (LoopStep A)) :
  sound source m -> (forall b, progresses source (k b)) ->
  progresses source (bind m k).
Proof.
  intros Hs Hk p a p' Hp E. apply bind_Ok in E. destruct E as (b & p1 & E1 & E2).
  pose proof (sound_monotone m b p p1 Hs Hp E1).
  pose proof (Hk b p1 a p' (sound_stable m b p p1 Hs Hp E1) E2).
  lia.
Qed.

(* A guard [atCursor pred] that holds leaves a code point to consume. *)
Lemma progresses_atCursor {A} pred (k : bool -> M (LoopStep A)) :
  (forall p a p', stable source p -> inBounds source p = true ->
                  k true p = Ok (Continue a) p' -> index p < index p') ->
  progresses source (k false) ->
  progresses source (bind (atCursor source pred) k).
Proof.
  intros Ht Hf p a p' Hp E. unfold bind, atCursor, gets in E.
  destruct (inBounds source p) eqn:Hin; cbn [andb] in E.
  - destruct (pred (peek source p)).
    + eapply Ht; eauto.
    + eapply Hf; eauto.
  - eapply Hf; eauto.
Qed.

Lemma advances_atCursor {A} pred (k : bool -> M A) :
  (forall p a p', stable source p -> inBounds source p = true ->
                  k true p = Ok a p' -> index p < index p') ->
  advances source (k false) ->
  advances source (bind (atCursor source pred) k).
Proof.
  intros Ht Hf p a p' Hp E. unfold bind, atCursor, gets in E.
  destruct (inBounds source p) eqn:Hin; cbn [andb] in E.
  - destruct (pred (peek source p)).
    + eapply Ht; eauto.
    + eapply Hf; eauto.
  - eapply Hf; eauto.
Qed.

Lemma next_advances p :
  stable source p -> inBounds source p = true -> index p < index (next source p).
Proof.
  intros Hp Hin. pose proof (inBounds_lt source source_fits p Hp Hin).
  destruct Hp as ((Hi & _) & _). apply (next_bounds source source_fits p Hi). assumption.
Qed.

Lemma consume_advances p p' :
  stable source p -> inBounds source p = true ->
  consume source p = Ok tt p' -> index p < index p'.
Proof.
  intros Hp Hin E. unfold consume, bind, modify in E. inversion E; subst p'.
  pose proof (next_advances p Hp Hin).
  unfold next, maybeAdvanceLine in *. destruct (peek source p =? LF); exact H.
Qed.


Lemma take_advances c p p' :
  stable source p -> inBounds source p = true ->
  take source p = Ok c p' -> index p < index p'.
Proof.
  intros Hp Hin E.
  pose proof (take_Ok source source_fits c p p' Hp Hin E) as Ha.
  pose proof (ate_index source c p p' Hp Ha). lia.
Qed.

End Totality.

Create HintDb advances discriminated.
Create HintDb total discriminated.

Ltac advances_step :=
  match goal with
  | |- advances _ (bind _ _) =>
      first [ eapply advances_bind_l;
              [ eassumption | solve [eauto with advances] | solve [sound_auto]
              | intros; solve [sound_auto] ]
            | eapply advances_bind_r; [ eassumption | solve [sound_auto] | intros ] ]
  | |- advances _ (fatal _) => apply advances_fatal
  | |- advances _ (fatalAt _ _) => apply advances_fatalAt
  | |- advances _ (if ?b then _ else _) => destruct b
  | |- advances _ (match ?x with _ => _ end) => destruct x
  | |- advances _ _ => solve [eauto with advances]
  end.

Ltac advances_auto := repeat advances_step.

Ltac progresses_step :=
  match goal with
  | |- progresses _ (ret (Break _)) => apply progresses_break
  | |- progresses _ (fatal _) => apply progresses_fatal
  | |- progresses _ (bind _ _) =>
      first [ eapply progresses_advances;
              [ eassumption | solve [eauto with advances] | solve [sound_auto]
              | intros; solve [sound_auto] ]
            | eapply progresses_bind_r; [ eassumption | solve [sound_auto] | intros ] ]
  | |- progresses _ (if ?b then _ else _) => destruct b
  | |- progresses _ (match ?x with _ => _ end) => destruct x
  end.

Ltac progresses_auto := repeat progresses_step.

Ltac total_step :=
  match goal with
  | |- total _ (bind _ _) =>
      eapply total_bind; [ eassumption | | solve [sound_auto] | intros ]
  | |- total _ (ret _) => apply total_ret
  | |- total _ (gets _) => apply total_gets
  | |- total _ (modify _) => apply total_modify
  | |- total _ (fatal _) => apply total_fatal
  | |- total _ (fatalAt _ _) => apply total_fatalAt
  | |- total _ (abortAt _ _) => apply total_abortAt
  | |- total _ (while _ _ _) =>
      eapply total_while;
      [ eassumption | intros | intros; solve [sound_auto]
      | intros; progresses_auto ]
  | |- total _ (if ?b then _ else _) => destruct b
  | |- total _ (match ?x with _ => _ end) => destruct x
  | |- total _ _ => solve [eauto with total]
  end.

Ltac total_auto := repeat total_step.

Section Advances.

Variable unisets_get : unisets.Key -> UnicodeSet.
Variable source : UnicodeString.t.
Hypothesis source_fits : UnicodeString.length source <= INT32_MAX.

Lemma advances_parseToken c : advances source (parseToken source c).
Proof.
  intros p [] p' Hp E.
  pose proof (parseToken_Ok source source_fits c p p' Hp E) as Ha.
  pose proof (ate_index source c p p' Hp Ha). lia.
Qed.
Hint Resolve advances_parseToken : advances.

Lemma advances_parseToken_str c token :
  advances source (parseToken_str source (c :: token)).
Proof. cbn [parseToken_str]. advances_auto. Qed.

Lemma advances_parseRun first rest : advances source (parseRun source first rest).
Proof.
  unfold parseRun. apply advances_atCursor; [ | apply advances_fatal].
  intros p a p' Hp Hin E. apply bind_Ok in E. destruct E as (c & p1 & E1 & E2).
  pose proof (take_advances source source_fits c p p1 Hp Hin E1).
  assert (Hs : sound source
                 (while source
                    (fun acc : UnicodeString.t =>
                       b' <- atCursor source rest ;;
                       if b' then (c' <- take source ;; ret (Continue (append32 acc c')))
                       else ret (Break acc)) (append32 [] c))) by sound_auto.
  pose proof (sound_monotone source source_fits _ a p1 p' Hs
                (sound_stable source source_fits _ c p p1 (sound_take source) Hp E1) E2).
  lia.
Qed.
Hint Resolve advances_parseToken_str advances_parseRun : advances.

Lemma advances_parseName : advances source (parseName unisets_get source).
Proof. unfold parseName. auto with advances. Qed.

Lemma advances_parseDigits : advances source (parseDigits unisets_get source).
Proof. unfold parseDigits. auto with advances. Qed.
Hint Resolve advances_parseName advances_parseDigits : advances.

Lemma advances_parseIdentifier : advances source (parseIdentifier unisets_get source).
Proof. unfold parseIdentifier. advances_auto. Qed.

Lemma advances_parseVariableName : advances source (parseVariableName unisets_get source).
Proof. unfold parseVariableName. advances_auto. Qed.

Lemma advances_parseFunction : advances source (parseFunction unisets_get source).
Proof. unfold parseFunction. advances_auto. Qed.

Lemma advances_parseEscapeSequence :
  advances source (parseEscapeSequence unisets_get source).
Proof. unfold parseEscapeSequence. advances_auto. Qed.
Hint Resolve advances_parseIdentifier advances_parseVariableName advances_parseFunction
  advances_parseEscapeSequence : advances.

Lemma advances_parseUnquotedLiteral :
  advances source (parseUnquotedLiteral unisets_get source).
Proof. unfold parseUnquotedLiteral. advances_auto. Qed.

Lemma advances_parseQuotedLiteral :
  advances source (parseQuotedLiteral unisets_get source).
Proof. unfold parseQuotedLiteral. advances_auto. Qed.
Hint Resolve advances_parseUnquotedLiteral advances_parseQuotedLiteral : advances.

Lemma advances_parseReservedChunk :
  advances source (parseReservedChunk unisets_get source).
Proof.
  unfold parseReservedChunk.
  eapply advances_bind_r; [eassumption | sound_auto | intros c].
  destruct (c =? BACKSLASH); [advances_auto|].
  destruct (c =? PIPE); [advances_auto|].
  apply advances_atCursor; [|apply advances_fatal].
  intros p a p' Hp Hin E. apply bind_Ok in E. destruct E as (c' & p1 & E1 & E2).
  inversion E2; subst. eapply take_advances; eauto.
Qed.
Hint Resolve advances_parseReservedChunk : advances.

Lemma advances_parseReservedAnnotation :
  advances source (parseReservedAnnotation unisets_get source).
Proof.
  unfold parseReservedAnnotation. apply advances_atCursor; [|apply advances_fatal].
  intros p a p' Hp Hin E. apply bind_Ok in E. destruct E as (c & p1 & E1 & E2).
  pose proof (take_advances source source_fits c p p1 Hp Hin E1).
  assert (Hs : sound source
                 (parseReservedBody unisets_get source ;; addError UnsupportedAnnotation))
    by sound_auto.
  pose proof (sound_monotone source source_fits _ a p1 p' Hs
                (sound_stable source source_fits _ c p p1 (sound_take source) Hp E1) E2).
  lia.
Qed.
Hint Resolve advances_parseReservedAnnotation : advances.

Lemma advances_parseLiteral : advances source (parseLiteral unisets_get source).
Proof. unfold parseLiteral. advances_auto. Qed.
Hint Resolve advances_parseLiteral : advances.

Lemma advances_parseOperand : advances source (parseOperand unisets_get source).
Proof. unfold parseOperand. advances_auto. Qed.

Lemma advances_optionSyntax : advances source (optionSyntax unisets_get source).
Proof. unfold optionSyntax. advances_auto. Qed.

Lemma advances_attributeSyntax : advances source (attributeSyntax unisets_get source).
Proof. unfold attributeSyntax. advances_auto. Qed.
Hint Resolve advances_parseOperand advances_optionSyntax advances_attributeSyntax : advances.

Lemma advances_parseOption {T} `{OptionBuilder T} (a : OptionAdder T) :
  advances source (parseOption unisets_get source a).
Proof. unfold parseOption. advances_auto. Qed.

Lemma advances_parseAttribute {T} `{AttributeBuilder T} (a : AttributeAdder T) :
  advances source (parseAttribute unisets_get source a).
Proof. unfold parseAttribute. advances_auto. Qed.

Lemma advances_parseExpression : advances source (parseExpression unisets_get source).
Proof. unfold parseExpression. advances_auto. Qed.

Lemma advances_parseMarkup : advances source (parseMarkup unisets_get source).
Proof. unfold parseMarkup. advances_auto. Qed.
Hint Resolve @advances_parseOption @advances_parseAttribute advances_parseExpression
  advances_parseMarkup : advances.

Lemma advances_parsePlaceholder : advances source (parsePlaceholder unisets_get source).
Proof. unfold parsePlaceholder. advances_auto. Qed.

Lemma advances_parseTextChar : advances source (parseTextChar unisets_get source).
Proof.
  unfold parseTextChar. apply advances_atCursor; [ | apply advances_fatal].
  intros p a p' Hp Hin E. apply bind_Ok in E. destruct E as (c & p1 & E1 & E2).
  inversion E2; subst. eapply take_advances; eauto.
Qed.

Lemma advances_parseQuotedPattern : advances source (parseQuotedPattern unisets_get source).
Proof. unfold parseQuotedPattern. advances_auto. Qed.

Lemma advances_parseKey : advances source (parseKey unisets_get source).
Proof. unfold parseKey. advances_auto. Qed.
Hint Resolve advances_parsePlaceholder advances_parseTextChar advances_parseQuotedPattern
  advances_parseKey : advances.

Lemma advances_parseNonEmptyKeys : advances source (parseNonEmptyKeys unisets_get source).
Proof. unfold parseNonEmptyKeys. advances_auto. Qed.
Hint Resolve advances_parseNonEmptyKeys : advances.

Lemma advances_parseVariant : advances source (parseVariant unisets_get source).
Proof. unfold parseVariant. advances_auto. Qed.

Lemma advances_parseLocalDeclaration :
  advances source (parseLocalDeclaration unisets_get source).
Proof. unfold parseLocalDeclaration, ID_LOCAL. cbn [ustr UnicodeString.of_string]. advances_auto. Qed.

Lemma advances_parseInputDeclaration :
  advances source (parseInputDeclaration unisets_get source).
Proof. unfold parseInputDeclaration, ID_INPUT. cbn [ustr UnicodeString.of_string]. advances_auto. Qed.

Lemma advances_parseUnsupportedStatement :
  advances source (parseUnsupportedStatement unisets_get source).
Proof. unfold parseUnsupportedStatement. advances_auto. Qed.
Hint Resolve advances_parseVariant advances_parseLocalDeclaration
  advances_parseInputDeclaration advances_parseUnsupportedStatement : advances.



Lemma total_atCursor pred : total source (atCursor source pred).
Proof. unfold atCursor. apply total_gets. Qed.

Lemma total_peekIs n pred : total source (peekIs source n pred).
Proof. unfold peekIs. apply total_gets. Qed.

Lemma total_addError k : total source (addError k).
Proof. unfold addError. apply total_modify. Qed.

Lemma total_normalize c : total source (normalize c).
Proof. unfold normalize. apply total_modify. Qed.

Lemma total_consume : total source (consume source).
Proof. intros p _. discriminate. Qed.

Lemma total_addDeclaration d : total source (addDeclaration d).
Proof. unfold addDeclaration. apply total_modify. Qed.

Lemma total_setBody b : total source (setBody b).
Proof. unfold setBody. apply total_modify. Qed.
Hint Resolve total_atCursor total_peekIs total_addError total_normalize total_consume
  total_addDeclaration total_setBody : total.

Lemma total_take : total source (take source).
Proof. unfold take. total_auto. Qed.
Hint Resolve total_take : total.

(* The guarded iterations of the lexical loops. *)
Lemma progresses_copy_next {A} (a : A) pred :
  progresses source
    (b <- atCursor source pred ;;
     if b then (c <- gets (peek source) ;; normalize c ;; modify (next source) ;;
                ret (Continue a))
     else ret (Break a)).
Proof.
  apply progresses_atCursor; [|apply progresses_break].
  intros p a' p' Hp Hin E. unfold bind, gets, normalize, modify, ret in E.
  inversion E; subst. exact (next_advances source source_fits p Hp Hin).
Qed.

Lemma total_parseOptionalBidi : total source (parseOptionalBidi unisets_get source).
Proof.
  unfold parseOptionalBidi.
  eapply total_while; [eassumption | intros; total_auto | intros; sound_auto | intros].
  apply progresses_copy_next.
Qed.

Lemma total_skipWhitespace : total source (skipWhitespace unisets_get source).
Proof.
  unfold skipWhitespace.
  eapply total_while; [eassumption | intros; total_auto | intros; sound_auto | intros].
  apply progresses_atCursor.
  - intros p a' p' Hp Hin E. apply bind_Ok in E. destruct E as ([] & p1 & E1 & E2).
    inversion E2; subst. exact (consume_advances source source_fits p p' Hp Hin E1).
  - apply progresses_copy_next.
Qed.

Hint Resolve total_skipWhitespace : total.

Lemma total_parseOptionalWhitespace :
  total source (parseOptionalWhitespace unisets_get source).
Proof. unfold parseOptionalWhitespace. total_auto. Qed.

Lemma total_parseRequiredWS : total source (parseRequiredWS unisets_get source).
Proof.
  unfold parseRequiredWS.
  eapply total_bind; [eassumption | | sound_auto | intros; total_auto].
  eapply total_while; [eassumption | intros; total_auto | intros; sound_auto | intros].
  apply progresses_atCursor; [|apply progresses_break].
  intros p a' p' Hp Hin E. apply bind_Ok in E. destruct E as ([] & p1 & E1 & E2).
  inversion E2; subst. exact (consume_advances source source_fits p p' Hp Hin E1).
Qed.
Hint Resolve total_parseOptionalBidi total_parseOptionalWhitespace total_parseRequiredWS
  : total.

Lemma total_parseRequiredWhitespace :
  total source (parseRequiredWhitespace unisets_get source).
Proof. unfold parseRequiredWhitespace. total_auto. Qed.

Lemma total_parseToken c : total source (parseToken source c).
Proof. unfold parseToken. total_auto. Qed.
Hint Resolve total_parseRequiredWhitespace total_parseToken : total.

Lemma total_parseTokenWithWhitespace c :
  total source (parseTokenWithWhitespace unisets_get source c).
Proof. unfold parseTokenWithWhitespace. total_auto. Qed.

Lemma total_parseToken_str token : total source (parseToken_str source token).
Proof. induction token; cbn [parseToken_str]; total_auto. Qed.
Hint Resolve total_parseTokenWithWhitespace total_parseToken_str : total.

Lemma progresses_take_loop {A} pred (f : A -> UChar32 -> A) (a : A) :
  progresses source
    (b <- atCursor source pred ;;
     if b then (c <- take source ;; ret (Continue (f a c))) else ret (Break a)).
Proof.
  apply progresses_atCursor; [|apply progresses_break].
  intros p a' p' Hp Hin E. apply bind_Ok in E. destruct E as (c & p1 & E1 & E2).
  inversion E2; subst. exact (take_advances source source_fits c p p' Hp Hin E1).
Qed.

Lemma total_parseRun first rest : total source (parseRun source first rest).
Proof.
  unfold parseRun.
  eapply total_bind; [eassumption | total_auto | sound_auto | intros b].
  destruct b; [|total_auto].
  eapply total_bind; [eassumption | total_auto | sound_auto | intros c].
  eapply total_while; [eassumption | intros; total_auto | intros; sound_auto | intros acc].
  apply (progresses_take_loop rest append32 acc).
Qed.
Hint Resolve total_parseRun : total.

Lemma total_parseName : total source (parseName unisets_get source).
Proof. unfold parseName. auto with total. Qed.

Lemma total_parseDigits : total source (parseDigits unisets_get source).
Proof. unfold parseDigits. auto with total. Qed.
Hint Resolve total_parseName total_parseDigits : total.

Lemma total_parseIdentifier : total source (parseIdentifier unisets_get source).
Proof. unfold parseIdentifier. total_auto. Qed.

Lemma total_parseVariableName : total source (parseVariableName unisets_get source).
Proof. unfold parseVariableName. total_auto. Qed.
Hint Resolve total_parseIdentifier total_parseVariableName : total.

Lemma total_parseFunction : total source (parseFunction unisets_get source).
Proof. unfold parseFunction. total_auto. Qed.

Lemma total_parseEscapeSequence : total source (parseEscapeSequence unisets_get source).
Proof. unfold parseEscapeSequence. total_auto. Qed.

Lemma total_parseOptionalSign acc sign : total source (parseOptionalSign source acc sign).
Proof. unfold parseOptionalSign. total_auto. Qed.
Hint Resolve total_parseFunction total_parseEscapeSequence total_parseOptionalSign : total.

Lemma total_parseUnquotedLiteral : total source (parseUnquotedLiteral unisets_get source).
Proof. unfold parseUnquotedLiteral. total_auto. Qed.

(* An iteration guarded by [inBounds()]. *)
Lemma progresses_inBounds {A} (k : M (LoopStep A)) (k' : M (LoopStep A)) :
  (forall p a p', stable source p -> inBounds source p = true ->
                  k p = Ok (Continue a) p' -> index p < index p') ->
  progresses source k' ->
  progresses source
    (inb <- gets (inBounds source) ;; if inb : bool then k else k').
Proof.
  intros Hk Hk' p a p' Hp E. unfold bind at 1, gets at 1 in E.
  destruct (inBounds source p) eqn:Hin; [eapply Hk | eapply Hk']; eauto.
Qed.

Lemma total_parseQuotedLiteral : total source (parseQuotedLiteral unisets_get source).
Proof.
  unfold parseQuotedLiteral.
  eapply total_bind; [eassumption | total_auto | sound_auto | intros _].
  eapply total_bind; [eassumption | | sound_auto | intros; total_auto].
  eapply total_while; [eassumption | intros; total_auto | intros; sound_auto | intros acc].
  apply progresses_inBounds; [|apply progresses_fatal].
  intros p a p' Hp Hin E. unfold bind at 1, gets at 1 in E.
  destruct (peek source p =? BACKSLASH).
  - apply bind_Ok in E. destruct E as (e & p1 & E1 & E2). inversion E2; subst.
    exact (advances_parseEscapeSequence p e p' Hp E1).
  - destruct (peek source p =? PIPE); [discriminate|].
    destruct (isQuotedChar unisets_get (peek source p)); [|discriminate].
    apply bind_Ok in E. destruct E as (c & p1 & E1 & E2). inversion E2; subst.
    exact (take_advances source source_fits c p p' Hp Hin E1).
Qed.
Hint Resolve total_parseUnquotedLiteral total_parseQuotedLiteral : total.

Lemma total_parseLiteral : total source (parseLiteral unisets_get source).
Proof. unfold parseLiteral. total_auto. Qed.
Hint Resolve total_parseLiteral : total.

Lemma total_parseOperand : total source (parseOperand unisets_get source).
Proof. unfold parseOperand. total_auto. Qed.
Hint Resolve total_parseOperand : total.

Lemma total_optionSyntax : total source (optionSyntax unisets_get source).
Proof. unfold optionSyntax. total_auto. Qed.

Lemma total_attributeSyntax : total source (attributeSyntax unisets_get source).
Proof. unfold attributeSyntax. total_auto. Qed.
Hint Resolve total_optionSyntax total_attributeSyntax : total.

Lemma total_parseOption {T} `{OptionBuilder T} (a : OptionAdder T) :
  total source (parseOption unisets_get source a).
Proof. unfold parseOption. total_auto. Qed.

Lemma total_parseAttribute {T} `{AttributeBuilder T} (a : AttributeAdder T) :
  total source (parseAttribute unisets_get source a).
Proof. unfold parseAttribute. total_auto. Qed.
Hint Resolve @total_parseOption @total_parseAttribute : total.

Lemma total_parseOptions {T} `{OptionBuilder T} (a : OptionAdder T) :
  total source (parseOptions unisets_get source a).
Proof. unfold parseOptions. total_auto. Qed.

Lemma total_parseAttributes {T} `{AttributeBuilder T} (a : AttributeAdder T) :
  total source (parseAttributes unisets_get source a).
Proof. unfold parseAttributes. total_auto. Qed.
Hint Resolve @total_parseOptions @total_parseAttributes : total.

Lemma total_parseAnnotation : total source (parseAnnotation unisets_get source).
Proof. unfold parseAnnotation. total_auto. Qed.
Hint Resolve total_parseAnnotation : total.

Lemma total_parseReservedChunk : total source (parseReservedChunk unisets_get source).
Proof. unfold parseReservedChunk. total_auto. Qed.
Hint Resolve total_parseReservedChunk : total.

Lemma total_parseReservedBody : total source (parseReservedBody unisets_get source).
Proof. unfold parseReservedBody. total_auto. Qed.
Hint Resolve total_parseReservedBody : total.

Lemma total_parseReservedAnnotation :
  total source (parseReservedAnnotation unisets_get source).
Proof. unfold parseReservedAnnotation. total_auto. Qed.
Hint Resolve total_parseReservedAnnotation : total.

Lemma total_parseLiteralOrVariableWithAnnotation isVariable builder :
  total source (parseLiteralOrVariableWithAnnotation unisets_get source isVariable builder).
Proof. unfold parseLiteralOrVariableWithAnnotation. total_auto. Qed.
Hint Resolve total_parseLiteralOrVariableWithAnnotation : total.

Lemma total_parseExpression : total source (parseExpression unisets_get source).
Proof. unfold parseExpression. total_auto. Qed.

Lemma total_parseMarkup : total source (parseMarkup unisets_get source).
Proof. unfold parseMarkup. total_auto. Qed.
Hint Resolve total_parseExpression total_parseMarkup : total.

Lemma total_parsePlaceholder : total source (parsePlaceholder unisets_get source).
Proof. unfold parsePlaceholder. total_auto. Qed.

Lemma total_parseTextChar : total source (parseTextChar unisets_get source).
Proof. unfold parseTextChar. total_auto. Qed.

Lemma total_errorPattern : total source (errorPattern source).
Proof. unfold errorPattern. total_auto. Qed.
Hint Resolve total_parsePlaceholder total_parseTextChar total_errorPattern : total.

Lemma total_parseSimpleMessage : total source (parseSimpleMessage unisets_get source).
Proof.
  unfold parseSimpleMessage.
  eapply total_while; [eassumption | intros; total_auto | intros; sound_auto | intros acc].
  apply progresses_inBounds; [|apply progresses_break].
  intros p a p' Hp Hin E. unfold bind at 1, gets at 1 in E.
  destruct (peek source p =? LEFT_CURLY_BRACE).
  - apply bind_Ok in E. destruct E as (e & p1 & E1 & E2). inversion E2; subst.
    exact (advances_parsePlaceholder p e p' Hp E1).
  - destruct (peek source p =? BACKSLASH).
    + apply bind_Ok in E. destruct E as (e & p1 & E1 & E2). inversion E2; subst.
      exact (advances_parseEscapeSequence p e p' Hp E1).
    + apply bind_Ok in E. destruct E as (e & p1 & E1 & E2). inversion E2; subst.
      exact (advances_parseTextChar p e p' Hp E1).
Qed.

Lemma total_parseQuotedPattern : total source (parseQuotedPattern unisets_get source).
Proof.
  unfold parseQuotedPattern.
  eapply total_bind; [eassumption | total_auto | sound_auto | intros _].
  eapply total_bind; [eassumption | total_auto | sound_auto | intros _].
  eapply total_bind; [eassumption | | sound_auto | intros; total_auto].
  eapply total_while; [eassumption | intros; total_auto | intros; sound_auto | intros acc].
  apply progresses_inBounds; [|apply progresses_break].
  intros p a p' Hp Hin E. unfold bind at 1, gets at 1 in E.
  destruct (peek source p =? LEFT_CURLY_BRACE).
  - apply bind_Ok in E. destruct E as (e & p1 & E1 & E2). inversion E2; subst.
    exact (advances_parsePlaceholder p e p' Hp E1).
  - destruct (peek source p =? BACKSLASH).
    + apply bind_Ok in E. destruct E as (e & p1 & E1 & E2). inversion E2; subst.
      exact (advances_parseEscapeSequence p e p' Hp E1).
    + destruct (peek source p =? RIGHT_CURLY_BRACE); [discriminate|].
      destruct (_ || _).
      * apply bind_Ok in E. destruct E as (e & p1 & E1 & E2). inversion E2; subst.
        exact (advances_parseTextChar p e p' Hp E1).
      * apply bind_Ok in E. destruct E as (e & p1 & E1 & E2). inversion E2; subst.
        unfold errorPattern in E1.
        apply bind_Ok in E1. destruct E1 as ([] & p2 & E3 & E4).
        apply bind_Ok in E4. destruct E4 as (c & p3 & E5 & E6). inversion E6; subst.
        unfold addError, modify in E3. inversion E3; subst.
        exact (take_advances source source_fits c _ p'
                 (sound_stable source source_fits _ tt p _ (sound_addError source _) Hp eq_refl)
                 Hin E5).
Qed.

Lemma total_parseKey : total source (parseKey unisets_get source).
Proof. unfold parseKey. total_auto. Qed.
Hint Resolve total_parseSimpleMessage total_parseQuotedPattern total_parseKey : total.

Lemma total_parseNonEmptyKeys : total source (parseNonEmptyKeys unisets_get source).
Proof. unfold parseNonEmptyKeys. total_auto. Qed.
Hint Resolve total_parseNonEmptyKeys : total.

Lemma total_parseVariant : total source (parseVariant unisets_get source).
Proof. unfold parseVariant. total_auto. Qed.
Hint Resolve total_parseVariant : total.

Lemma total_checkMatcher sels vars : total source (checkMatcher sels vars).
Proof. unfold checkMatcher. total_auto. Qed.

Lemma total_parseMatcherSyntax : total source (parseMatcherSyntax unisets_get source).
Proof. unfold parseMatcherSyntax. total_auto. Qed.
Hint Resolve total_checkMatcher total_parseMatcherSyntax : total.

Lemma total_parseSelectors : total source (parseSelectors unisets_get source).
Proof. unfold parseSelectors. total_auto. Qed.

Lemma total_parseLocalDeclaration : total source (parseLocalDeclaration unisets_get source).
Proof. unfold parseLocalDeclaration. total_auto. Qed.

Lemma total_parseInputDeclaration : total source (parseInputDeclaration unisets_get source).
Proof. unfold parseInputDeclaration. total_auto. Qed.

Lemma total_parseUnsupportedStatement :
  total source (parseUnsupportedStatement unisets_get source).
Proof. unfold parseUnsupportedStatement. total_auto. Qed.
Hint Resolve total_parseSelectors total_parseLocalDeclaration total_parseInputDeclaration
  total_parseUnsupportedStatement : total.

Lemma total_parseDeclarations : total source (parseDeclarations unisets_get source).
Proof.
  unfold parseDeclarations.
  eapply total_while; [eassumption | intros; total_auto | | intros].
  - intros. apply sound_bind; [|intros; sound_auto].
    apply sound_gets; intros. apply isDeclarationStart_index. reflexivity.
  - eapply progresses_bind_r; [eassumption | | intros b].
    + apply sound_gets; intros. apply isDeclarationStart_index. reflexivity.
    + destruct b; [|apply progresses_break].
      eapply progresses_bind_r; [eassumption | sound_auto | intros isLocal].
      eapply progresses_bind_r; [eassumption | sound_auto | intros isInput].
      destruct isLocal; [|destruct isInput]; progresses_auto.
Qed.

Lemma total_parseBody : total source (parseBody unisets_get source).
Proof. unfold parseBody. total_auto. Qed.
Hint Resolve total_parseDeclarations total_parseBody : total.

Lemma total_parseMessage : total source (parseMessage unisets_get source).
Proof. unfold parseMessage. total_auto. Qed.

End Advances.

(* Every parse returns: no input exhausts the fuel of the loops. *)
Theorem parse_total (unisets_get : unisets.Key -> UnicodeSet)
    (source : UnicodeString.t) (dm : MFDataModel) (e : StaticErrors)
    (n : UnicodeString.t) (pre post : list UChar) :
  UnicodeString.length source <= INT32_MAX ->
  exists r, parse unisets_get source (Parser_new dm e n pre post) = Some r.
Proof.
  intros Hfit. unfold parse.
  pose proof (total_parseMessage unisets_get source Hfit (Parser_new dm e n pre post)
                (stable_new source dm e n pre post)) as H.
  destruct (parseMessage unisets_get source (Parser_new dm e n pre post));
    [eexists; reflexivity | eexists; reflexivity | contradiction].
Qed.

(** ** Matchers *)

(* A loop whose iterations keep a property of the state and never stop the
   parse. *)
Lemma loop_keeps {A} (Inv : Parser -> Prop) (body : A -> M (LoopStep A)) :
  (forall a p, Inv p ->
     match body a p with
     | Ok _ p' => Inv p'
     | Fatal _ _ => False
     | OutOfFuel => True
     end) ->
  forall fuel a p, Inv p ->
    match loop fuel body a p with
    | Ok _ p' => Inv p'
    | Fatal _ _ => False
    | OutOfFuel => True
    end.
Proof.
  intros Hb fuel. induction fuel as [|fuel IH]; intros a p Hp; cbn [loop]; [exact I|].
  specialize (Hb a p Hp).
  destruct (body a p) as [[a'|a'] p'| |]; [apply IH| | |]; exact Hb.
Qed.

(* What the two checks at the end of a matcher come to. *)
Lemma checkMatcher_cases selectors variants p :
  if existsb (keyCountDiffers selectors) variants then
    exists p', checkMatcher selectors variants p = Fatal ArityMismatch p'
               /\ In ArityMismatch (errors p')
               /\ parseError p' = setParseError (parseError p) (index p)
  else if negb (existsb allWildcards variants) then
    exists p', checkMatcher selectors variants p = Fatal MissingCatchAll p'
               /\ In MissingCatchAll (errors p')
               /\ parseError p' = setParseError (parseError p) (index p)
  else checkMatcher selectors variants p = Ok tt p.
Proof.
  unfold checkMatcher.
  destruct (existsb (keyCountDiffers selectors) variants);
    destruct (negb (existsb allWildcards variants));
    try reflexivity;
    (eexists; split; [reflexivity|]; split; [|reflexivity];
     cbn; rewrite ?in_app_iff; cbn; tauto).
Qed.

Section Matcher.

Variable unisets_get : unisets.Key -> UnicodeSet.
Variable source : UnicodeString.t.
Hypothesis source_fits : UnicodeString.length source <= INT32_MAX.

(* Optional whitespace never stops the parse, and leaves the data model
   and the recorded errors alone. *)
Lemma parseOptionalWhitespace_keeps p :
  match parseOptionalWhitespace unisets_get source p with
  | Ok _ p' => dataModel p' = dataModel p /\ errors p' = errors p
  | Fatal _ _ => False
  | OutOfFuel => True
  end.
Proof.
  unfold parseOptionalWhitespace, skipWhitespace, while, bind at 1.
  match goal with
  | |- context [loop ?f ?b false p] =>
      pose proof (loop_keeps (fun q => dataModel q = dataModel p /\ errors q = errors p)
                             b) as H;
      specialize (fun Hb => H Hb f false p (conj eq_refl eq_refl));
      destruct (loop f b false p) as [saw p'| |]
  end; try exact I.
  - assert (Hk : dataModel p' = dataModel p /\ errors p' = errors p).
    { apply H. clear. intros a q Hq.
      cbv [bind atCursor gets consume modify ret normalize].
      destruct (inBounds source q && isWhitespace unisets_get (peek source q)).
      - unfold next, maybeAdvanceLine. destruct (peek source q =? LF); exact Hq.
      - destruct (inBounds source q && isBidiControl unisets_get (peek source q)); exact Hq. }
    destruct saw; exact Hk.
  - apply H. clear. intros a q Hq.
    cbv [bind atCursor gets consume modify ret normalize].
    destruct (inBounds source q && isWhitespace unisets_get (peek source q)).
    + unfold next, maybeAdvanceLine. destruct (peek source q =? LF); exact Hq.
    + destruct (inBounds source q && isBidiControl unisets_get (peek source q)); exact Hq.
Qed.

(* The end of a parse that has come to a matcher. *)
Lemma parseMessage_matcher p0 selectors variants p1 :
  matcherRead unisets_get source p0 selectors variants p1 ->
  parseMessage unisets_get source p0
  = (checkMatcher selectors variants ;;
     setBody (MatcherBody selectors variants) ;;
     parseOptionalWhitespace unisets_get source ;;
     consumed <- gets (allConsumed source) ;;
     if consumed : bool then ret tt else fatal UnexpectedCharacter) p1.
Proof.
  intros (Hc & pa & pb & Ha & Hb & Hq & Hm & Hs).
  unfold parseMessage. unfold bind at 1. unfold gets at 1. rewrite Hc.
  unfold bind at 1. unfold bind at 1. rewrite Ha.
  unfold bind at 1. rewrite Hb.
  unfold bind at 1. unfold parseBody at 1. unfold bind at 1. rewrite Hq.
  unfold bind at 1. unfold gets at 1. rewrite Hm.
  unfold parseSelectors at 1. unfold bind at 1. rewrite Hs. cbn [fst snd].
  unfold bind.
  destruct (checkMatcher selectors variants p1) as [[] q| |]; reflexivity.
Qed.

Lemma matcherRead_stable dm e n pre post selectors variants p1 :
  matcherRead unisets_get source (Parser_new dm e n pre post) selectors variants p1 ->
  stable source p1.
Proof.
  intros (Hc & pa & pb & Ha & Hb & Hq & Hm & Hs).
  pose proof (stable_new source dm e n pre post) as H0.
  pose proof (sound_stable source source_fits _ _ _ _
                (sound_parseOptionalWhitespace unisets_get source) H0 Ha) as H1.
  pose proof (sound_stable source source_fits _ _ _ _
                (sound_parseDeclarations unisets_get source) H1 Hb) as H2.
  exact (sound_stable source source_fits _ _ _ _
           (sound_parseMatcherSyntax unisets_get source) H2 Hs).
Qed.

End Matcher.


(** ** Witnesses *)

Lemma units16_checked (s : UnicodeString.t) :
  forallb (fun u => (0 <=? u) && (u <=? 65535)) s = true -> units16 s.
Proof.
  intros H. unfold units16. apply Forall_forall. intros u Hu.
  rewrite forallb_forall in H. specialize (H u Hu).
  apply andb_prop in H. destruct H as [H1 H2]. apply Z.leb_le in H1, H2. lia.
Qed.




(* C3 as stated fails where both conditions are violated: no variant of
   [.match {$x} 1 2 {{a}}] has wildcard keys only, and the parse does not
   fail with the missing-catch-all error: its one variant has two keys for
   one selector, and the parse fails with the arity-mismatch error. *)
Lemma C3_counterexample :
  exists selectors variants p1 r,
    matcherRead mf2_unisets (ustr ".match {$x} 1 2 {{a}}")
      (Parser_new emptyDataModel [] [] [] []) selectors variants p1
    /\ (forall v, In v variants -> exists k, In k (keys v) /\ k <> Wildcard)
    /\ parseString (ustr ".match {$x} 1 2 {{a}}") = Some r
    /\ status r = U_ERROR ArityMismatch
    /\ status r <> U_ERROR MissingCatchAll.
Proof.
  do 4 eexists. split; [|split; [|split; [|split]]].
  - split; [vm_compute; reflexivity|]. do 2 eexists.
    split; [vm_compute; reflexivity|].
    split; [vm_compute; reflexivity|].
    split; [vm_compute; reflexivity|].
    split; [vm_compute; reflexivity | vm_compute; reflexivity].
  - intros v [<-|[]]. eexists. split; [left; reflexivity | discriminate].
  - vm_compute. reflexivity.
  - reflexivity.
  - discriminate.
Qed.


(** ** The examples of the specification *)

Example duplicate_option_at_second_occurrence :
  outcomeOf (ustr "{:foo a=1 a=2}") = Some (U_ERROR DuplicateOption, 10).
Proof. vm_compute. reflexivity. Qed.

Example duplicate_attribute_kept :
  modelOf (ustr "{|x| @a=1 @a=2}")
  = Some (U_ZERO_ERROR,
          mkMFDataModel []
            (Some (PatternBody
               [ExpressionPart
                  (mkExpression (literal true "x") None
                     [(ustr "a", literal false "1"); (ustr "a", literal false "2")])]))).
Proof. vm_compute. reflexivity. Qed.

Example unterminated_literal_at_end_of_input :
  outcomeOf (ustr "{|abc}") = Some (U_ERROR UnterminatedLiteral, 6).
Proof. vm_compute. reflexivity. Qed.

Example local_declaration_and_placeholder :
  modelOf (ustr ".local $x = {|hello|} {{{$x}}}")
  = Some (U_ZERO_ERROR,
          mkMFDataModel
            [Local (ustr "x") (mkExpression (literal true "hello") None [])]
            (Some (PatternBody
               [ExpressionPart (mkExpression (VariableOperand (ustr "x")) None [])]))).
Proof. vm_compute. reflexivity. Qed.

Example duplicate_local_declaration :
  outcomeOf (ustr ".local $x = {|hello|} .local $x = {1} {{{$x}}}")
  = Some (U_ERROR DuplicateDeclaration, 29).
Proof. vm_compute. reflexivity. Qed.

Example matcher_arity_mismatch :
  option_map status (parseString (ustr ".match {$x} 1 2 {{a}} * * {{b}}"))
  = Some (U_ERROR ArityMismatch).
Proof. vm_compute. reflexivity. Qed.

Example matcher_missing_catch_all :
  option_map status (parseString (ustr ".match {$x} 1 {{a}}"))
  = Some (U_ERROR MissingCatchAll).
Proof. vm_compute. reflexivity. Qed.

Example matcher_accepted :
  option_map (fun r => (status r, errors (final r)))
             (parseString (ustr ".match {$x} 1 {{a}} * {{b}}"))
  = Some (U_ZERO_ERROR, []).
Proof. vm_compute. reflexivity. Qed.

Example escaped_braces_are_text :
  option_map (fun r => match body (dataModel (final r)) with
                       | Some (PatternBody pat) => Some (textOf pat, placeholdersOf pat)
                       | _ => None
                       end)
             (parseString (ustr "a\{b\}"))
  = Some (Some (ustr "a{b}", [])).
Proof. vm_compute. reflexivity. Qed.

(** ** The cursor over any string *)

Lemma U16_FWD_N_bounds s : forall k i,
  0 <= i <= UnicodeString.length s ->
  i <= UnicodeString.U16_FWD_N s i k <= UnicodeString.length s.
Proof.
  induction k as [|k IH]; intros i Hi; cbn [UnicodeString.U16_FWD_N]; [lia|].
  destruct (i <? UnicodeString.length s) eqn:E; [|lia].
  apply Z.ltb_lt in E. pose proof (U16_FWD_1_bounds s i).
  specialize (IH (UnicodeString.U16_FWD_1 s i)). lia.
Qed.

Lemma U16_BACK_1_bounds s i :
  0 < i -> 0 <= UnicodeString.U16_BACK_1 s i < i.
Proof.
  intros H. unfold UnicodeString.U16_BACK_1.
  destruct (U16_IS_TRAIL _); cbn [andb]; [|lia].
  destruct (0 <? i - 1) eqn:E; cbn [andb]; [|lia].
  apply Z.ltb_lt in E. destruct (U16_IS_LEAD _); lia.
Qed.

Lemma U16_BACK_N_bounds s : forall k i,
  0 <= i -> 0 <= UnicodeString.U16_BACK_N s i k <= i.
Proof.
  induction k as [|k IH]; intros i Hi; cbn [UnicodeString.U16_BACK_N]; [lia|].
  destruct (0 <? i) eqn:E; [|lia].
  apply Z.ltb_lt in E. pose proof (U16_BACK_1_bounds s i E).
  specialize (IH (UnicodeString.U16_BACK_1 s i)). lia.
Qed.

Lemma moveIndex32_bounds s i d :
  0 <= UnicodeString.moveIndex32 s i d <= UnicodeString.length s.
Proof.
  unfold UnicodeString.moveIndex32. pose proof (ulength_nonneg s) as Hl.
  set (j := if i <? 0 then 0 else if UnicodeString.length s <? i
                                  then UnicodeString.length s else i).
  assert (Hj : 0 <= j <= UnicodeString.length s).
  { unfold j. destruct (i <? 0) eqn:E0; [lia|]. apply Z.ltb_ge in E0.
    destruct (UnicodeString.length s <? i) eqn:E1; [lia|]. apply Z.ltb_ge in E1. lia. }
  destruct (0 <? d).
  - pose proof (U16_FWD_N_bounds s (Z.to_nat d) j Hj). lia.
  - pose proof (U16_BACK_N_bounds s (Z.to_nat (- d)) j (proj1 Hj)). lia.
Qed.

Lemma advance_index s : forall k p,
  UnicodeString.length s <= INT32_MAX ->
  0 <= index p <= UnicodeString.length s ->
  index (advance s k p) = UnicodeString.U16_FWD_N s (index p) k.
Proof.
  induction k as [|k IH]; intros p Hf Hi; cbn [advance UnicodeString.U16_FWD_N]; [reflexivity|].
  pose proof (next_bounds s Hf p Hi) as [Hb _].
  rewrite (IH (next s p) Hf) by lia.
  rewrite (next_index s Hf p Hi).
  destruct (index p <? UnicodeString.length s) eqn:E; [reflexivity|].
  apply Z.ltb_ge in E. assert (index p = UnicodeString.length s) as -> by lia.
  apply U16_FWD_N_end.
Qed.

Lemma moveIndex32_forward s i k :
  0 <= i <= UnicodeString.length s ->
  UnicodeString.moveIndex32 s i (Z.of_nat k) = UnicodeString.U16_FWD_N s i k.
Proof.
  intros Hi. unfold UnicodeString.moveIndex32.
  destruct (i <? 0) eqn:E0; [apply Z.ltb_lt in E0; lia|].
  destruct (UnicodeString.length s <? i) eqn:E1; [apply Z.ltb_lt in E1; lia|].
  destruct (0 <? Z.of_nat k) eqn:E.
  - rewrite Nat2Z.id. reflexivity.
  - apply Z.ltb_ge in E. assert (k = 0%nat) as -> by lia. reflexivity.
Qed.

(** X1: [peek(k)] and [inBounds(k)] answer as [peek()] and [inBounds()] do
    after [k] calls of [next()]: looking ahead by [k] is moving by [k], on
    every string, well formed or not; so [peek(0)] is [peek()]. *)
Theorem X1_lookahead_is_iterated_next (source : UnicodeString.t) (p : Parser) (k : nat) :
  UnicodeString.length source <= INT32_MAX ->
  0 <= index p <= UnicodeString.length source ->
  Z.of_nat k <= INT32_MAX ->
  peek_n source p (Z.of_nat k) = peek source (advance source k p)
  /\ inBounds_n source p (Z.of_nat k) = inBounds source (advance source k p)
  /\ peek_n source p 0 = peek source p.
Proof.
  intros Hf Hi Hk.
  assert (H : forall j, Z.of_nat j <= INT32_MAX ->
            UnicodeString.moveIndex32 source (to_int32 (index p)) (to_int32 (Z.of_nat j))
            = to_int32 (index (advance source j p))).
  { intros j Hj. rewrite (advance_index source j p Hf Hi).
    pose proof (U16_FWD_N_bounds source j (index p) Hi).
    rewrite !to_int32_small by lia. apply moveIndex32_forward, Hi. }
  unfold peek_n, inBounds_n, peek, inBounds.
  rewrite (H k Hk). repeat split.
  change 0 with (Z.of_nat 0). rewrite (H 0%nat) by (unfold INT32_MAX; lia). reflexivity.
Qed.

Lemma X1_lookahead_is_iterated_next_witness :
  peek_n [97; 55357; 56832; 98] (Parser_new emptyDataModel [] [] [] []) (Z.of_nat 2)
    = peek [97; 55357; 56832; 98]
        (advance [97; 55357; 56832; 98] 2 (Parser_new emptyDataModel [] [] [] []))
  /\ inBounds_n [97; 55357; 56832; 98] (Parser_new emptyDataModel [] [] [] []) (Z.of_nat 2)
    = inBounds [97; 55357; 56832; 98]
        (advance [97; 55357; 56832; 98] 2 (Parser_new emptyDataModel [] [] [] []))
  /\ peek_n [97; 55357; 56832; 98] (Parser_new emptyDataModel [] [] [] []) 0
    = peek [97; 55357; 56832; 98] (Parser_new emptyDataModel [] [] [] []).
Proof.
  apply (X1_lookahead_is_iterated_next [97; 55357; 56832; 98]
           (Parser_new emptyDataModel [] [] [] []) 2).
  - vm_compute. discriminate.
  - vm_compute. split; discriminate.
  - vm_compute. discriminate.
Defined.

(** X2: a lookahead never reads outside the string: where [inBounds(i)]
    is false, the position that [peek(i)] looks at is the end of the string
    and [peek(i)] is U+FFFF, for every cursor index and every distance [i]
    (also one that the cast to [int32_t] makes negative). *)
Theorem X2_lookahead_within (source : UnicodeString.t) (p : Parser) (i : Z) :
  inBounds_n source p i = false ->
  peek_n source p i = 65535
  /\ UnicodeString.moveIndex32 source (to_int32 (index p)) (to_int32 i)
     = UnicodeString.length source.
Proof.
  intros H. unfold inBounds_n, peek_n in *.
  pose proof (moveIndex32_bounds source (to_int32 (index p)) (to_int32 i)) as Hb.
  apply Z.ltb_ge in H.
  assert (E : UnicodeString.moveIndex32 source (to_int32 (index p)) (to_int32 i)
              = UnicodeString.length source) by lia.
  rewrite E. split; [apply char32At_end | reflexivity].
Qed.

Lemma X2_lookahead_within_witness :
  peek_n (ustr "ab") (Parser_new emptyDataModel [] [] [] []) 5 = 65535
  /\ UnicodeString.moveIndex32 (ustr "ab")
       (to_int32 (index (Parser_new emptyDataModel [] [] [] []))) (to_int32 5)
     = UnicodeString.length (ustr "ab").
Proof.
  apply (X2_lookahead_within (ustr "ab") (Parser_new emptyDataModel [] [] [] []) 5).
  reflexivity.
Defined.

(** X3: while the index is at most the length of the input, exactly one
    of [inBounds()] and [allConsumed()] is true, and [allConsumed()] is the
    one exactly when the index is the length: a loop that runs while
    [inBounds()] ends with [allConsumed()]. *)
Theorem X3_inBounds_or_allConsumed (source : UnicodeString.t) (p : Parser) :
  0 <= index p <= UnicodeString.length source ->
  UnicodeString.length source <= INT32_MAX ->
  inBounds source p = negb (allConsumed source p)
  /\ (allConsumed source p = true <-> index p = UnicodeString.length source).
Proof.
  intros Hi Hf. unfold inBounds, allConsumed. rewrite to_int32_small by lia.
  destruct (index p =? UnicodeString.length source) eqn:E.
  - apply Z.eqb_eq in E. split; [apply Z.ltb_ge; lia | tauto].
  - apply Z.eqb_neq in E. split; [apply Z.ltb_lt; lia|]. split; [discriminate | tauto].
Qed.

Lemma X3_inBounds_or_allConsumed_witness :
  inBounds (ustr "ab") (set_index 2 (Parser_new emptyDataModel [] [] [] []))
    = negb (allConsumed (ustr "ab") (set_index 2 (Parser_new emptyDataModel [] [] [] [])))
  /\ (allConsumed (ustr "ab") (set_index 2 (Parser_new emptyDataModel [] [] [] [])) = true
      <-> index (set_index 2 (Parser_new emptyDataModel [] [] [] []))
          = UnicodeString.length (ustr "ab")).
Proof.
  apply (X3_inBounds_or_allConsumed (ustr "ab")
           (set_index 2 (Parser_new emptyDataModel [] [] [] []))).
  - vm_compute. split; discriminate.
  - vm_compute. discriminate.
Defined.

(** X4: [next()] at or past the end of the input.  While the index fits
    [int32_t], [moveIndex32] pins it: [next()] leaves the index at the
    length of the input, a second [next()] changes nothing, and
    [allConsumed()] holds.  An index above [INT32_MAX] is negative once
    converted to [int32_t], [moveIndex32] pins it to 0, and [next()] lands
    where it lands from the start of the input, one code point in. *)
Theorem X4_next_at_end (source : UnicodeString.t) (p : Parser) :
  UnicodeString.length source <= index p < UINT32_MOD ->
  if index p <=? INT32_MAX then
    index (next source p) = UnicodeString.length source
    /\ next source (next source p) = next source p
    /\ allConsumed source (next source p) = true
  else
    index (next source p) = index (next source (set_index 0 p))
    /\ index (next source p) = to_uint32 (UnicodeString.U16_FWD_N source 0 1).
Proof.
  intros Hi. pose proof (ulength_nonneg source) as Hl.
  destruct (index p <=? INT32_MAX) eqn:Ei.
  - apply Z.leb_le in Ei.
    assert (E : index (next source p) = UnicodeString.length source).
    { unfold next. cbn [index set_index]. rewrite to_int32_small by lia.
      rewrite moveIndex32_end by lia.
      apply to_uint32_small. unfold UINT32_MOD, INT32_MAX in *. lia. }
    split; [exact E|]. split.
    + unfold next at 1. rewrite E. rewrite to_int32_small by lia.
      rewrite moveIndex32_end by lia.
      rewrite to_uint32_small by (unfold UINT32_MOD, INT32_MAX in *; lia).
      rewrite <- E at 1. destruct (next source p); reflexivity.
    + unfold allConsumed. rewrite E, to_int32_small by lia. apply Z.eqb_refl.
  - apply Z.leb_gt in Ei.
    assert (En : to_int32 (index p) = index p - UINT32_MOD).
    { unfold to_int32. rewrite Z.mod_small by lia.
      rewrite (proj2 (Z.leb_gt _ _) Ei). reflexivity. }
    assert (Em : UnicodeString.moveIndex32 source (to_int32 (index p)) 1
                 = UnicodeString.U16_FWD_N source 0 1).
    { rewrite En. unfold UnicodeString.moveIndex32.
      rewrite (proj2 (Z.ltb_lt (index p - UINT32_MOD) 0)) by lia. reflexivity. }
    assert (E0 : UnicodeString.moveIndex32 source (to_int32 0) 1
                 = UnicodeString.U16_FWD_N source 0 1).
    { change (to_int32 0) with 0. unfold UnicodeString.moveIndex32.
      rewrite (proj2 (Z.ltb_ge (UnicodeString.length source) 0)) by lia. reflexivity. }
    unfold next. cbn [index set_index]. rewrite Em, E0. split; reflexivity.
Qed.

Lemma X4_next_at_end_witness :
  (index (next (ustr "ab") (set_index 7 (Parser_new emptyDataModel [] [] [] [])))
     = UnicodeString.length (ustr "ab")
   /\ next (ustr "ab") (next (ustr "ab") (set_index 7 (Parser_new emptyDataModel [] [] [] [])))
      = next (ustr "ab") (set_index 7 (Parser_new emptyDataModel [] [] [] []))
   /\ allConsumed (ustr "ab")
        (next (ustr "ab") (set_index 7 (Parser_new emptyDataModel [] [] [] []))) = true)
  /\ (index (next (ustr "abc")
               (set_index 2147483648 (Parser_new emptyDataModel [] [] [] [])))
      = index (next (ustr "abc") (set_index 0 (set_index 2147483648
                                    (Parser_new emptyDataModel [] [] [] []))))
      /\ index (next (ustr "abc")
                  (set_index 2147483648 (Parser_new emptyDataModel [] [] [] [])))
         = to_uint32 (UnicodeString.U16_FWD_N (ustr "abc") 0 1)).
Proof.
  split.
  - apply (X4_next_at_end (ustr "ab") (set_index 7 (Parser_new emptyDataModel [] [] [] []))).
    vm_compute. split; [discriminate | reflexivity].
  - apply (X4_next_at_end (ustr "abc")
             (set_index 2147483648 (Parser_new emptyDataModel [] [] [] []))).
    vm_compute. split; [discriminate | reflexivity].
Defined.

(** X5: [next()] steps over exactly what [peek()] shows.  On a string of
    16-bit units, with the cursor inside the string and not between the
    halves of a surrogate pair, [peek()] is a code point of at most
    U+10FFFF and [next()] advances the index by its UTF-16 length: by two
    for a lead unit followed by a trail unit, by one for everything else, an
    unpaired surrogate included. *)
Theorem X5_next_steps_over_peek (source : UnicodeString.t) (p : Parser) :
  units16 source ->
  UnicodeString.length source <= INT32_MAX ->
  0 <= index p < UnicodeString.length source ->
  atBoundary source (index p) ->
  index (next source p) = index p + U16_LENGTH (peek source p)
  /\ 0 <= peek source p <= 1114111.
Proof.
  intros Hu Hf Hi Hb.
  rewrite (next_index source Hf p) by lia.
  rewrite (peek_in source Hf p Hi).
  destruct (index p <? UnicodeString.length source) eqn:E;
    [clear E | apply Z.ltb_ge in E; lia].
  pose proof (charAt_units16 source (index p) Hu) as Hc.
  unfold UnicodeString.U16_FWD_1, UnicodeString.U16_GET, U16_LENGTH.
  destruct (U16_IS_SURROGATE (UnicodeString.charAt source (index p))) eqn:Es.
  - destruct (U16_IS_LEAD (UnicodeString.charAt source (index p))) eqn:El; cbn [andb].
    + destruct (negb (index p + 1 =? UnicodeString.length source)
                && U16_IS_TRAIL (UnicodeString.charAt source (index p + 1))) eqn:Eb.
      * apply andb_prop in Eb. destruct Eb as [_ Et].
        pose proof (supplementary_range _ _ El Et) as Hs.
        destruct (_ <=? 65535) eqn:E; [apply Z.leb_le in E; lia | lia].
      * destruct (_ <=? 65535) eqn:E; [lia | apply Z.leb_gt in E; lia].
    + assert (Hn : ((0 <? index p)
                    && U16_IS_LEAD (UnicodeString.charAt source (index p - 1))) = false).
      { destruct ((0 <? index p)
                  && U16_IS_LEAD (UnicodeString.charAt source (index p - 1))) eqn:Eb;
          [|reflexivity].
        exfalso. apply andb_prop in Eb. destruct Eb as [E0 Ep]. apply Z.ltb_lt in E0.
        apply Hb. repeat split; try lia; [exact Ep|].
        unfold U16_IS_SURROGATE, U16_IS_LEAD, U16_IS_TRAIL in *.
        apply andb_prop in Es. destruct Es as [S1 S2]. rewrite S2, andb_true_r.
        rewrite S1 in El. cbn [andb] in El. apply Z.leb_gt in El. apply Z.leb_le. lia. }
      rewrite Hn. destruct (_ <=? 65535) eqn:E; [lia | apply Z.leb_gt in E; lia].
  - rewrite (not_surrogate_not_lead _ Es). cbn [andb].
    destruct (_ <=? 65535) eqn:E; [lia | apply Z.leb_gt in E; lia].
Qed.

Lemma X5_next_steps_over_peek_witness :
  index (next [55357; 56832; 56832] (set_index 2 (Parser_new emptyDataModel [] [] [] [])))
    = index (set_index 2 (Parser_new emptyDataModel [] [] [] []))
      + U16_LENGTH (peek [55357; 56832; 56832]
                         (set_index 2 (Parser_new emptyDataModel [] [] [] [])))
  /\ 0 <= peek [55357; 56832; 56832] (set_index 2 (Parser_new emptyDataModel [] [] [] []))
       <= 1114111.
Proof.
  apply (X5_next_steps_over_peek [55357; 56832; 56832]
           (set_index 2 (Parser_new emptyDataModel [] [] [] []))).
  - repeat constructor; vm_compute; discriminate.
  - vm_compute. discriminate.
  - vm_compute. split; [discriminate | reflexivity].
  - vm_compute. intros (_ & H & _). discriminate.
Defined.

Lemma advance_stable s k : forall p,
  UnicodeString.length s <= INT32_MAX ->
  0 <= index p <= UnicodeString.length s -> atBoundary s (index p) ->
  (0 <= index (advance s k p) <= UnicodeString.length s
   /\ atBoundary s (index (advance s k p)))
  /\ Z.min (index p + Z.of_nat k) (UnicodeString.length s) <= index (advance s k p).
Proof.
  induction k as [|k IH]; intros p Hf Hi Hb; cbn [advance].
  - repeat split; try assumption; lia.
  - pose proof (next_bounds s Hf p Hi) as [Hn Hlt].
    pose proof (next_boundary s Hf p Hi Hb) as Hb'.
    destruct (IH (next s p) Hf ltac:(lia) Hb') as [H1 H2].
    split; [exact H1|].
    destruct (Z.lt_ge_cases (index p) (UnicodeString.length s)) as [Hl | Hl].
    + specialize (Hlt Hl). lia.
    + lia.
Qed.

(** X6: starting from the constructor, [k] calls of [next()] leave the
    index inside the string and never between the two halves of a surrogate
    pair, whatever the string holds; each call inside the string advances,
    so after as many calls as the string has code units the cursor is at the
    end and [allConsumed()] holds. *)
Theorem X6_next_reaches_the_end (source : UnicodeString.t) (k : nat)
    (dm : MFDataModel) (e : StaticErrors) (n : UnicodeString.t) (pre post : list UChar) :
  UnicodeString.length source <= INT32_MAX ->
  (0 <= index (advance source k (Parser_new dm e n pre post)) <= UnicodeString.length source
   /\ atBoundary source (index (advance source k (Parser_new dm e n pre post))))
  /\ Z.min (Z.of_nat k) (UnicodeString.length source)
     <= index (advance source k (Parser_new dm e n pre post))
  /\ (UnicodeString.length source <= Z.of_nat k ->
      allConsumed source (advance source k (Parser_new dm e n pre post)) = true).
Proof.
  intros Hf. pose proof (ulength_nonneg source) as Hl.
  destruct (advance_stable source k (Parser_new dm e n pre post) Hf) as [H1 H2].
  { cbn [index Parser_new]. lia. }
  { unfold atBoundary. cbn [index Parser_new]. lia. }
  cbn [index Parser_new] in H2. rewrite Z.add_0_l in H2.
  split; [exact H1|]. split; [exact H2|].
  intros Hk. unfold allConsumed. rewrite to_int32_small by lia. apply Z.eqb_eq. lia.
Qed.

Lemma X6_next_reaches_the_end_witness :
  (0 <= index (advance [97; 55357; 56832] 3 (Parser_new emptyDataModel [] [] [] []))
     <= UnicodeString.length [97; 55357; 56832]
   /\ atBoundary [97; 55357; 56832]
        (index (advance [97; 55357; 56832] 3 (Parser_new emptyDataModel [] [] [] []))))
  /\ Z.min (Z.of_nat 3) (UnicodeString.length [97; 55357; 56832])
     <= index (advance [97; 55357; 56832] 3 (Parser_new emptyDataModel [] [] [] []))
  /\ (UnicodeString.length [97; 55357; 56832] <= Z.of_nat 3 ->
      allConsumed [97; 55357; 56832]
        (advance [97; 55357; 56832] 3 (Parser_new emptyDataModel [] [] [] [])) = true).
Proof.
  apply (X6_next_reaches_the_end [97; 55357; 56832] 3 emptyDataModel [] [] [] []).
  vm_compute. discriminate.
Defined.

(** X7: the bound test of [inBounds()] casts the unsigned index to
    [int32_t]: for an index above INT32_MAX the cast is negative and
    [inBounds()] answers true although [peek()], whose bound test is
    unsigned, returns U+FFFF there; [allConsumed()] is false. *)
Theorem X7_inBounds_above_int32 (source : UnicodeString.t) (p : Parser) :
  UnicodeString.length source <= INT32_MAX ->
  INT32_MAX < index p < UINT32_MOD ->
  inBounds source p = true
  /\ allConsumed source p = false
  /\ peek source p = 65535.
Proof.
  intros Hf Hi. pose proof (ulength_nonneg source) as Hl.
  assert (E : to_int32 (index p) = index p - UINT32_MOD).
  { unfold to_int32. rewrite Z.mod_small by (unfold INT32_MAX in *; lia).
    destruct (index p <=? INT32_MAX) eqn:E; [apply Z.leb_le in E; lia | reflexivity]. }
  unfold inBounds, allConsumed. rewrite E. repeat split.
  - apply Z.ltb_lt. unfold UINT32_MOD in *. lia.
  - apply Z.eqb_neq. unfold UINT32_MOD in *. lia.
  - apply peek_out; [exact Hf|]. unfold INT32_MAX in *. lia.
Qed.

Lemma X7_inBounds_above_int32_witness :
  inBounds (ustr "ab") (set_index 4294967295 (Parser_new emptyDataModel [] [] [] [])) = true
  /\ allConsumed (ustr "ab")
       (set_index 4294967295 (Parser_new emptyDataModel [] [] [] [])) = false
  /\ peek (ustr "ab") (set_index 4294967295 (Parser_new emptyDataModel [] [] [] [])) = 65535.
Proof.
  apply (X7_inBounds_above_int32 (ustr "ab")
           (set_index 4294967295 (Parser_new emptyDataModel [] [] [] []))).
  - vm_compute. discriminate.
  - vm_compute. split; reflexivity.
Defined.

(** ** The cursor over the code points of the input *)

Lemma encode_app a b : encode (a ++ b) = encode a ++ encode b.
Proof. unfold encode. apply flat_map_app. Qed.

Lemma codeUnits_app a b : codeUnits (a ++ b) = codeUnits a + codeUnits b.
Proof. induction a as [|c a IH]; cbn [app codeUnits]; lia. Qed.

Lemma codeUnits_length s : Z.of_nat (List.length s) <= codeUnits s.
Proof.
  induction s as [|c s IH]; cbn [List.length codeUnits]; [lia|].
  pose proof (U16_LENGTH_pos c). lia.
Qed.

Section CodePointView.

Variable cs : list UChar32.
Hypothesis cs_ok : wellFormed cs.

Let cs_scalar : Forall isScalar cs := proj1 cs_ok.
Let cs_fits : UnicodeString.length (encode cs) <= INT32_MAX := proj2 cs_ok.

Let source := encode cs.

Lemma cursorAt_scalar p s : cursorAt cs p s -> Forall isScalar s.
Proof.
  intros (pre & E & _). rewrite E in cs_scalar.
  apply Forall_app in cs_scalar. tauto.
Qed.

Lemma cursorAt_index p s :
  cursorAt cs p s ->
  0 <= index p /\ index p + codeUnits s = UnicodeString.length source
  /\ index p + Z.of_nat (List.length s) <= INT32_MAX.
Proof.
  intros (pre & E & Hi). unfold source. rewrite codeUnits_encode, E, codeUnits_app.
  pose proof (codeUnits_nonneg pre). pose proof (codeUnits_length s).
  unfold source in cs_fits. rewrite codeUnits_encode, E, codeUnits_app in cs_fits. lia.
Qed.

Lemma cursorAt_set p p' s : index p' = index p -> cursorAt cs p s -> cursorAt cs p' s.
Proof. intros H (pre & E & Hi). exists pre. split; [exact E | congruence]. Qed.

Lemma peek_at p s : cursorAt cs p s -> peek source p = hd 65535 s.
Proof.
  intros H. pose proof (cursorAt_index p s H) as (H0 & H1 & H2).
  pose proof (cursorAt_scalar p s H) as Hs.
  destruct H as (pre & E & Hi). destruct s as [|c s].
  - cbn [hd]. apply peek_out; [exact cs_fits|]. cbn [codeUnits] in H1.
    unfold UINT32_MOD, INT32_MAX in *. lia.
  - cbn [hd]. apply Forall_inv in Hs.
    rewrite peek_in; [| exact cs_fits |].
    + unfold source. rewrite E, encode_app. cbn [encode flat_map].
      fold (utf16 c). fold (encode s). rewrite Hi, <- codeUnits_encode.
      apply U16_GET_encoded. assumption.
    + fold source. cbn [codeUnits] in H1. pose proof (U16_LENGTH_pos c).
      pose proof (codeUnits_nonneg s). lia.
Qed.

Lemma inBounds_at p s :
  cursorAt cs p s -> inBounds source p = match s with [] => false | _ => true end.
Proof.
  intros H. pose proof (cursorAt_index p s H) as (H0 & H1 & H2).
  unfold inBounds. rewrite to_int32_small by lia.
  destruct s as [|c s].
  - cbn [codeUnits] in H1. apply Z.ltb_ge. lia.
  - cbn [codeUnits] in H1. pose proof (U16_LENGTH_pos c). pose proof (codeUnits_nonneg s).
    apply Z.ltb_lt. lia.
Qed.

Lemma next_at p c s : cursorAt cs p (c :: s) -> cursorAt cs (next source p) s.
Proof.
  intros H. pose proof (cursorAt_index p _ H) as (H0 & H1 & H2).
  pose proof (cursorAt_scalar p _ H) as Hs. apply Forall_inv in Hs.
  destruct H as (pre & E & Hi).
  exists (pre ++ [c]). split; [rewrite <- app_assoc; exact E|].
  cbn [codeUnits] in H1. pose proof (U16_LENGTH_pos c). pose proof (codeUnits_nonneg s).
  rewrite next_index; [| exact cs_fits | fold source; lia].
  fold source.
  assert ((index p <? UnicodeString.length source) = true) as -> by (apply Z.ltb_lt; lia).
  unfold source. rewrite E, encode_app. cbn [encode flat_map].
  fold (utf16 c). fold (encode s). rewrite Hi, <- codeUnits_encode.
  rewrite U16_FWD_1_encoded by assumption.
  rewrite codeUnits_app, codeUnits_encode. cbn [codeUnits]. lia.
Qed.

Lemma U16_FWD_N_encoded : forall k pre s,
  Forall isScalar s ->
  UnicodeString.U16_FWD_N (encode (pre ++ s)) (codeUnits pre) k
  = codeUnits pre + codeUnits (firstn k s).
Proof.
  induction k as [|k IH]; intros pre s Hs; cbn [UnicodeString.U16_FWD_N firstn codeUnits]; [lia|].
  destruct s as [|c s].
  - rewrite app_nil_r, codeUnits_encode, Z.ltb_irrefl. cbn [firstn codeUnits]. lia.
  - assert ((codeUnits pre <? UnicodeString.length (encode (pre ++ c :: s))) = true) as ->.
    { apply Z.ltb_lt. rewrite codeUnits_encode, codeUnits_app. cbn [codeUnits].
      pose proof (U16_LENGTH_pos c). pose proof (codeUnits_nonneg s). lia. }
    assert (UnicodeString.U16_FWD_1 (encode (pre ++ c :: s)) (codeUnits pre)
            = codeUnits (pre ++ [c])) as ->.
    { rewrite encode_app. cbn [encode flat_map]. fold (utf16 c). fold (encode s).
      rewrite <- codeUnits_encode, U16_FWD_1_encoded by (apply Forall_inv in Hs; exact Hs).
      rewrite !codeUnits_encode, codeUnits_app. cbn [codeUnits]. lia. }
    replace (pre ++ c :: s) with ((pre ++ [c]) ++ s) by (rewrite <- app_assoc; reflexivity).
    rewrite IH by (apply Forall_inv_tail in Hs; exact Hs).
    rewrite codeUnits_app. cbn [firstn codeUnits]. lia.
Qed.

Lemma firstn_skipn_cursor p s k :
  cursorAt cs p s ->
  cursorAt cs (set_index (index p + codeUnits (firstn k s)) p) (skipn k s).
Proof.
  intros (pre & E & Hi). exists (pre ++ firstn k s). split.
  - rewrite <- app_assoc, firstn_skipn. exact E.
  - cbn [index set_index]. rewrite codeUnits_app. lia.
Qed.

Lemma moveIndex32_at p s n :
  cursorAt cs p s -> 0 <= n <= INT32_MAX ->
  UnicodeString.moveIndex32 source (to_int32 (index p)) (to_int32 n)
  = index p + codeUnits (firstn (Z.to_nat n) s).
Proof.
  intros H Hn. pose proof (cursorAt_index p s H) as (H0 & H1 & H2).
  pose proof (cursorAt_scalar p s H) as Hs.
  pose proof (codeUnits_nonneg s).
  rewrite !to_int32_small by lia.
  unfold UnicodeString.moveIndex32.
  destruct (index p <? 0) eqn:E0; [apply Z.ltb_lt in E0; lia|].
  destruct (UnicodeString.length source <? index p) eqn:E1; [apply Z.ltb_lt in E1; lia|].
  destruct (0 <? n) eqn:E2.
  - destruct H as (pre & E & Hi). unfold source. rewrite E, Hi.
    apply U16_FWD_N_encoded. exact Hs.
  - apply Z.ltb_ge in E2. assert (n = 0) by lia. subst n.
    cbn [Z.opp Z.to_nat UnicodeString.U16_BACK_N firstn codeUnits]. lia.
Qed.

Lemma codeUnits_firstn_le k s : 0 <= codeUnits (firstn k s) <= codeUnits s.
Proof.
  revert k. induction s as [|c s IH]; intros k; destruct k; cbn [firstn codeUnits]; try lia.
  - pose proof (U16_LENGTH_pos c). pose proof (codeUnits_nonneg s). lia.
  - specialize (IH k). pose proof (U16_LENGTH_pos c). lia.
Qed.

Lemma peek_n_at p s n :
  cursorAt cs p s -> 0 <= n <= INT32_MAX ->
  peek_n source p n = nth (Z.to_nat n) s 65535.
Proof.
  intros H Hn. unfold peek_n. rewrite (moveIndex32_at p s n H Hn).
  pose proof (firstn_skipn_cursor p s (Z.to_nat n) H) as Hc.
  pose proof (peek_at _ _ Hc) as Hp.
  pose proof (cursorAt_index _ _ Hc) as (H0 & H1 & H2).
  unfold peek in Hp. cbn [index set_index] in *.
  rewrite to_int32_small in Hp.
  - rewrite Hp. clear. revert s. induction (Z.to_nat n) as [|k IH]; intros s.
    + destruct s; reflexivity.
    + destruct s; [reflexivity|]. cbn [skipn nth]. apply IH.
  - pose proof (codeUnits_nonneg (skipn (Z.to_nat n) s)). fold source in cs_fits. lia.
Qed.

Lemma codeUnits_firstn_lt k s :
  codeUnits (firstn k s) < codeUnits s <-> (k < List.length s)%nat.
Proof.
  revert k. induction s as [|c s IH]; intros k; destruct k; cbn [firstn codeUnits List.length].
  - lia.
  - lia.
  - pose proof (U16_LENGTH_pos c). pose proof (codeUnits_nonneg s). lia.
  - specialize (IH k). lia.
Qed.

Lemma inBounds_n_at p s n :
  cursorAt cs p s -> 0 <= n <= INT32_MAX ->
  inBounds_n source p n = (n <? Z.of_nat (List.length s)).
Proof.
  intros H Hn. unfold inBounds_n. rewrite (moveIndex32_at p s n H Hn).
  pose proof (cursorAt_index p s H) as (H0 & H1 & H2).
  pose proof (codeUnits_firstn_lt (Z.to_nat n) s) as Hlt.
  pose proof (codeUnits_firstn_le (Z.to_nat n) s) as Hle.
  destruct (n <? Z.of_nat (List.length s)) eqn:E.
  - apply Z.ltb_lt in E. apply Z.ltb_lt.
    assert (Hk : (Z.to_nat n < List.length s)%nat) by lia.
    apply Hlt in Hk. lia.
  - apply Z.ltb_ge in E. apply Z.ltb_ge.
    assert (Hk : ~ (Z.to_nat n < List.length s)%nat) by lia.
    assert (~ codeUnits (firstn (Z.to_nat n) s) < codeUnits s) by tauto. lia.
Qed.

End CodePointView.

(* Views of the lookahead functions on the code points ahead of the cursor. *)
Section LookaheadView.

Variable unisets_get : unisets.Key -> UnicodeSet.

Lemma spacing_le s : (spacing unisets_get s <= List.length s)%nat.
Proof.
  induction s as [|c s IH]; cbn [spacing List.length]; [lia|].
  destruct (isSpacing unisets_get c); lia.
Qed.

Lemma nth_skipn {A} (d : A) : forall n (s : list A), nth n s d = hd d (skipn n s).
Proof.
  induction n as [|n IH]; intros s; destruct s; cbn [nth skipn hd]; try reflexivity. apply IH.
Qed.

Lemma skipn_S_tl {A} : forall n (s : list A), skipn (S n) s = tl (skipn n s).
Proof.
  induction n as [|n IH]; intros s.
  - destruct s; reflexivity.
  - destruct s as [|a s]; [reflexivity|].
    change (skipn (S (S n)) (a :: s)) with (skipn (S n) s).
    change (skipn (S n) (a :: s)) with (skipn n s). apply IH.
Qed.

Variable cs : list UChar32.
Hypothesis cs_ok : wellFormed cs.

Let source := encode cs.

Lemma lookahead_at p s : forall fuel n,
  cursorAt cs p s -> 0 <= n <= INT32_MAX ->
  (spacing unisets_get (skipn (Z.to_nat n) s) <= fuel)%nat ->
  lookahead unisets_get source fuel p n
  = n + Z.of_nat (spacing unisets_get (skipn (Z.to_nat n) s)).
Proof.
  induction fuel as [|fuel IH]; intros n H Hn Hf; cbn [lookahead]; [lia|].
  pose proof (cursorAt_index cs cs_ok p s H) as (H0 & H1 & H2).
  unfold source.
  rewrite (inBounds_n_at cs cs_ok p s n H Hn).
  rewrite (peek_n_at cs cs_ok p s n H Hn).
  rewrite nth_skipn.
  destruct (n <? Z.of_nat (List.length s)) eqn:E.
  - apply Z.ltb_lt in E.
    destruct (skipn (Z.to_nat n) s) as [|c r] eqn:Er.
    { exfalso. assert (L : List.length (skipn (Z.to_nat n) s) = O) by (rewrite Er; reflexivity).
      rewrite length_skipn in L. lia. }
    cbn [hd andb spacing] in *. fold (isSpacing unisets_get c).
    destruct (isSpacing unisets_get c); [|lia].
    fold source. rewrite IH; [| exact H | lia |].
    + replace (Z.to_nat (n + 1)) with (S (Z.to_nat n)) by lia.
      rewrite skipn_S_tl, Er. cbn [tl]. lia.
    + replace (Z.to_nat (n + 1)) with (S (Z.to_nat n)) by lia.
      rewrite skipn_S_tl, Er. cbn [tl]. lia.
  - apply Z.ltb_ge in E. cbn [andb].
    rewrite skipn_all2 by lia. cbn [spacing]. lia.
Qed.

Lemma afterWhitespace_at p s n :
  cursorAt cs p s -> 0 <= n <= INT32_MAX ->
  afterWhitespace unisets_get source p n
  = n + Z.of_nat (spacing unisets_get (skipn (Z.to_nat n) s)).
Proof.
  intros H Hn. unfold afterWhitespace. apply lookahead_at; [exact H | exact Hn |].
  pose proof (cursorAt_index cs cs_ok p s H) as (H0 & H1 & H2).
  pose proof (spacing_le (skipn (Z.to_nat n) s)). rewrite length_skipn in H3.
  pose proof (codeUnits_length s). unfold source. lia.
Qed.

Lemma nextIs_from_at p s : forall token n,
  cursorAt cs p s -> 0 <= n <= INT32_MAX ->
  nextIs_from source p n token = startsWith token (skipn (Z.to_nat n) s).
Proof.
  induction token as [|c token IH]; intros n H Hn; cbn [nextIs_from startsWith]; [reflexivity|].
  pose proof (cursorAt_index cs cs_ok p s H) as (H0 & H1 & H2).
  unfold source.
  rewrite (inBounds_n_at cs cs_ok p s n H Hn).
  rewrite (peek_n_at cs cs_ok p s n H Hn).
  rewrite nth_skipn.
  destruct (n <? Z.of_nat (List.length s)) eqn:E.
  - apply Z.ltb_lt in E. fold source. rewrite IH; [| exact H | lia].
    replace (Z.to_nat (n + 1)) with (S (Z.to_nat n)) by lia.
    rewrite skipn_S_tl. destruct (skipn (Z.to_nat n) s) as [|d r] eqn:Er.
    { exfalso. assert (L : List.length (skipn (Z.to_nat n) s) = O) by (rewrite Er; reflexivity).
      rewrite length_skipn in L. lia. }
    reflexivity.
  - apply Z.ltb_ge in E. rewrite skipn_all2 by lia. reflexivity.
Qed.

Lemma nextIs_at p s token :
  cursorAt cs p s -> nextIs source token p = startsWith token s.
Proof.
  intros H. unfold nextIs. rewrite (nextIs_from_at p s token 0 H); [reflexivity|].
  unfold INT32_MAX. lia.
Qed.

End LookaheadView.

(** X8: over the UTF-16 form of a sequence of code points, a lookahead
    counts code points, not code units: with the cursor before the code
    points [s], [peek(n)] is the [n]-th of them (U+FFFF when there is none)
    and [inBounds(n)] tells whether there is one, however many surrogate
    pairs lie in between. *)
Theorem X8_lookahead_counts_code_points (cs : list UChar32) (p : Parser)
    (s : list UChar32) (n : Z) :
  wellFormed cs -> cursorAt cs p s -> 0 <= n <= INT32_MAX ->
  peek_n (encode cs) p n = nth (Z.to_nat n) s 65535
  /\ inBounds_n (encode cs) p n = (n <? Z.of_nat (List.length s)).
Proof.
  intros Hcs Hc Hn. split.
  - apply (peek_n_at cs Hcs p s n Hc Hn).
  - apply (inBounds_n_at cs Hcs p s n Hc Hn).
Qed.

Lemma wellFormed_checked (cs : list UChar32) :
  forallb (fun c => (0 <=? c) && (c <=? 1114111) && negb (U16_IS_SURROGATE c)) cs = true ->
  (UnicodeString.length (encode cs) <=? INT32_MAX) = true ->
  wellFormed cs.
Proof.
  intros H1 H2. split; [|apply Z.leb_le, H2].
  apply Forall_forall. intros c Hc. rewrite forallb_forall in H1. specialize (H1 c Hc).
  apply andb_prop in H1. destruct H1 as [H1 H3]. apply andb_prop in H1. destruct H1 as [H0 H1].
  apply Z.leb_le in H0, H1. split; [lia|].
  destruct (U16_IS_SURROGATE c); [discriminate | reflexivity].
Qed.

Lemma X8_lookahead_counts_code_points_witness :
  peek_n (encode [128512; 128513; 98]) (set_index 2 (Parser_new emptyDataModel [] [] [] [])) 1
    = nth (Z.to_nat 1) [128513; 98] 65535
  /\ inBounds_n (encode [128512; 128513; 98])
       (set_index 2 (Parser_new emptyDataModel [] [] [] [])) 1
     = (1 <? Z.of_nat (List.length [128513; 98])).
Proof.
  apply (X8_lookahead_counts_code_points [128512; 128513; 98]
           (set_index 2 (Parser_new emptyDataModel [] [] [] [])) [128513; 98] 1).
  - apply wellFormed_checked; reflexivity.
  - exists [128512]. split; reflexivity.
  - vm_compute. split; discriminate.
Defined.

(** X9: the two lookaheads of the grammar read the code points ahead and
    nothing else: with the cursor before the code points [s], [nextIs(token)]
    tells whether [s] begins with the units of [token], each compared with
    one code point, and the whitespace lookahead counts the whitespace and
    bidi controls that open [s]. *)
Theorem X9_lookaheads_read_code_points (unisets_get : unisets.Key -> UnicodeSet)
    (cs : list UChar32) (p : Parser) (s : list UChar32) (token : UnicodeString.t) :
  wellFormed cs -> cursorAt cs p s ->
  nextIs (encode cs) token p = startsWith token s
  /\ afterWhitespace unisets_get (encode cs) p 0 = Z.of_nat (spacing unisets_get s).
Proof.
  intros Hcs Hc. split.
  - apply (nextIs_at cs Hcs p s token Hc).
  - rewrite (afterWhitespace_at unisets_get cs Hcs p s 0 Hc) by (unfold INT32_MAX; lia).
    reflexivity.
Qed.

Lemma X9_lookaheads_read_code_points_witness :
  nextIs (encode [128512; 46; 109]) [46; 109] (set_index 2 (Parser_new emptyDataModel [] [] [] []))
    = startsWith [46; 109] [46; 109]
  /\ afterWhitespace mf2_unisets (encode [128512; 46; 109])
       (set_index 2 (Parser_new emptyDataModel [] [] [] [])) 0
     = Z.of_nat (spacing mf2_unisets [46; 109]).
Proof.
  apply (X9_lookaheads_read_code_points mf2_unisets [128512; 46; 109]
           (set_index 2 (Parser_new emptyDataModel [] [] [] [])) [46; 109] [46; 109]).
  - apply wellFormed_checked; reflexivity.
  - exists [128512]. split; reflexivity.
Defined.

(** ** Tokens and whitespace over the code points of the input *)

Lemma encode_one c : encode [c] = utf16 c.
Proof. cbn [encode flat_map]. apply app_nil_r. Qed.

Section Runs.

Variable unisets_get : unisets.Key -> UnicodeSet.
Variable cx : list UChar32.
Hypothesis cx_ok : wellFormed cx.

Let X := encode cx.

Lemma atCursor_at pred p s :
  cursorAt cx p s -> atCursor X pred p = Ok (headTest pred s) p.
Proof.
  intros H. unfold atCursor, gets, X.
  rewrite (inBounds_at cx cx_ok p s H), (peek_at cx cx_ok p s H).
  destruct s; reflexivity.
Qed.

Lemma copied_at p c s :
  cursorAt cx p (c :: s) ->
  cursorAt cx (copied X p c) s
  /\ normalizedInput (copied X p c) = normalizedInput p ++ encode [c]
  /\ keeps p (copied X p c).
Proof.
  intros H. unfold copied. repeat split.
  - apply (next_at cx cx_ok _ c s). eapply cursorAt_set; [|exact H]. reflexivity.
  - unfold next. cbn [normalizedInput set_index set_normalizedInput].
    rewrite append32_utf16, encode_one; [reflexivity|].
    pose proof (cursorAt_scalar cx cx_ok p _ H) as Hs. apply Forall_inv in Hs. apply Hs.
Qed.

Lemma parseToken_at p c s :
  cursorAt cx p (c :: s) ->
  exists p', parseToken X c p = Ok tt p' /\ cursorAt cx p' s
             /\ normalizedInput p' = normalizedInput p ++ encode [c] /\ keeps p p'.
Proof.
  intros H. unfold parseToken. unfold bind at 1.
  rewrite (atCursor_at _ p _ H). cbn [headTest]. rewrite Z.eqb_refl.
  exists (copied X p c). split; [reflexivity | apply copied_at; exact H].
Qed.

End Runs.

(** X10: [parseToken(c)] succeeds exactly when the code point at the cursor
    is [c]: it then steps over that one code point, appends it to the
    normalized input and leaves the data model and the recorded errors as
    they were; at any other code point, and at the end of the input, it
    stops the parse with an unexpected-character error recorded at the
    cursor, which does not move. *)
Theorem X10_parseToken (cs : list UChar32) (p : Parser) (s : list UChar32) (c : UChar32) :
  wellFormed cs -> cursorAt cs p s ->
  if headTest (Z.eqb c) s then
    exists p', parseToken (encode cs) c p = Ok tt p'
      /\ cursorAt cs p' (tl s)
      /\ normalizedInput p' = normalizedInput p ++ utf16 c
      /\ dataModel p' = dataModel p /\ errors p' = errors p
  else
    exists p', parseToken (encode cs) c p = Fatal UnexpectedCharacter p'
      /\ index p' = index p
      /\ normalizedInput p' = normalizedInput p
      /\ errors p' = errors p ++ [UnexpectedCharacter]
      /\ UParseError.absoluteOffset (translateParseError (parseError p')) = index p.
Proof.
  intros Hcs Hc. destruct (headTest (Z.eqb c) s) eqn:Eh.
  - destruct s as [|d s0]; [discriminate|]. cbn [headTest] in Eh.
    apply Z.eqb_eq in Eh. subst d.
    destruct (parseToken_at cs Hcs p c s0 Hc) as (p' & E & C & N & K1 & K2).
    exists p'. rewrite <- encode_one. repeat split; assumption.
  - unfold parseToken. unfold bind at 1.
    rewrite (atCursor_at cs Hcs (Z.eqb c) p s Hc), Eh.
    eexists. split; [reflexivity|].
    cbn [index normalizedInput errors set_parseError set_errors parseError].
    repeat split.
    apply absoluteOffset_setParseError.
    pose proof (cursorAt_index cs Hcs p s Hc) as (H0 & H1 & H2).
    unfold UINT32_MOD, INT32_MAX in *. lia.
Qed.

Lemma X10_parseToken_witness :
  (exists p', parseToken (encode [123; 128512]) 123 (Parser_new emptyDataModel [] [] [] [])
              = Ok tt p'
     /\ cursorAt [123; 128512] p' [128512]
     /\ normalizedInput p' = normalizedInput (Parser_new emptyDataModel [] [] [] []) ++ utf16 123
     /\ dataModel p' = dataModel (Parser_new emptyDataModel [] [] [] [])
     /\ errors p' = errors (Parser_new emptyDataModel [] [] [] []))
  /\ (exists p', parseToken (encode [123; 128512]) 125 (Parser_new emptyDataModel [] [] [] [])
                 = Fatal UnexpectedCharacter p'
        /\ index p' = index (Parser_new emptyDataModel [] [] [] [])
        /\ normalizedInput p' = normalizedInput (Parser_new emptyDataModel [] [] [] [])
        /\ errors p' = errors (Parser_new emptyDataModel [] [] [] []) ++ [UnexpectedCharacter]
        /\ UParseError.absoluteOffset (translateParseError (parseError p'))
           = index (Parser_new emptyDataModel [] [] [] [])).
Proof.
  split.
  - apply (X10_parseToken [123; 128512] (Parser_new emptyDataModel [] [] [] [])
             [123; 128512] 123).
    + apply wellFormed_checked; reflexivity.
    + exists []. split; reflexivity.
  - apply (X10_parseToken [123; 128512] (Parser_new emptyDataModel [] [] [] [])
             [123; 128512] 125).
    + apply wellFormed_checked; reflexivity.
    + exists []. split; reflexivity.
Defined.

(** ** The parse as a whole *)

Lemma parseMessage_consumed unisets_get source p p' :
  parseMessage unisets_get source p = Ok tt p' -> allConsumed source p' = true.
Proof.
  intros E. unfold parseMessage in E.
  apply bind_Ok in E. destruct E as (complex & p0 & _ & E).
  apply bind_Ok in E. destruct E as (u & p1 & _ & E).
  apply bind_Ok in E. destruct E as (consumed & p2 & E1 & E).
  inversion E1; subst consumed p2.
  destruct (allConsumed source p1) eqn:Ea; [|discriminate].
  inversion E; subst p'. exact Ea.
Qed.

(** X13: a parse leaves the cursor inside the input and on a code point
    boundary, whatever the input and the tables of character classes; and
    it reports success only when the cursor has reached the end: no
    successful parse leaves input unread. *)
Theorem X13_parse_reads_the_whole_input (unisets_get : unisets.Key -> UnicodeSet)
    (source : UnicodeString.t) (dm : MFDataModel) (e : StaticErrors)
    (n : UnicodeString.t) (pre post : list UChar) (r : ParseResult) :
  UnicodeString.length source <= INT32_MAX ->
  parse unisets_get source (Parser_new dm e n pre post) = Some r ->
  0 <= index (final r) <= UnicodeString.length source
  /\ atBoundary source (index (final r))
  /\ (status r = U_ZERO_ERROR ->
      index (final r) = UnicodeString.length source
      /\ allConsumed source (final r) = true).
Proof.
  intros Hf Hp. unfold parse in Hp.
  pose proof (proj1 (sound_parseMessage unisets_get source) (Parser_new dm e n pre post)) as Hs.
  destruct (parseMessage unisets_get source (Parser_new dm e n pre post))
    as [[] p| k p|] eqn:E; inversion Hp; subst r; clear Hp; cbn [final status].
  - pose proof (steps_stable source Hf _ _ Hs (stable_new source dm e n pre post))
      as ((Hi & Hb) & _).
    split; [exact Hi|]. split; [exact Hb|]. intros _.
    pose proof (parseMessage_consumed _ _ _ _ E) as Ha. split; [|exact Ha].
    unfold allConsumed in Ha. rewrite to_int32_small in Ha by lia.
    apply Z.eqb_eq in Ha. exact Ha.
  - pose proof (steps_stable source Hf _ _ Hs (stable_new source dm e n pre post))
      as ((Hi & Hb) & _).
    split; [exact Hi|]. split; [exact Hb|]. discriminate.
Qed.

Lemma X13_parse_reads_the_whole_input_witness :
  exists r,
    parse mf2_unisets (ustr "a {$x} b") (Parser_new emptyDataModel [] [] [] []) = Some r
    /\ 0 <= index (final r) <= UnicodeString.length (ustr "a {$x} b")
    /\ atBoundary (ustr "a {$x} b") (index (final r))
    /\ (status r = U_ZERO_ERROR ->
        index (final r) = UnicodeString.length (ustr "a {$x} b")
        /\ allConsumed (ustr "a {$x} b") (final r) = true).
Proof.
  eexists. split; [vm_compute; reflexivity|].
  apply (X13_parse_reads_the_whole_input mf2_unisets (ustr "a {$x} b") emptyDataModel
           [] [] [] []).
  - vm_compute. discriminate.
  - vm_compute. reflexivity.
Defined.

(** ** Option names stay distinct *)

Lemma loop_invariant {A} (I : A -> Prop) (body : A -> M (LoopStep A)) :
  (forall a p r p', I a -> body a p = Ok r p' ->
     match r with Continue a' => I a' | Break a' => I a' end) ->
  forall fuel a p a' p', I a -> loop fuel body a p = Ok a' p' -> I a'.
Proof.
  intros Hb. induction fuel as [|fuel IH]; intros a p a' p' Ha E; [discriminate|].
  cbn [loop] in E. destruct (body a p) as [[a1|a1] p1| |] eqn:Eb; try discriminate.
  - apply (IH a1 p1 a' p'); [|exact E]. exact (Hb a p _ p1 Ha Eb).
  - inversion E; subst. exact (Hb a p _ p' Ha Eb).
Qed.

Lemma hasName_false_not_In k m : hasName k m = false -> ~ In k (map fst m).
Proof.
  unfold hasName. induction m as [|kv m IH]; cbn [existsb map]; [intros _ []|].
  intros H [E | Hin].
  - rewrite E, UnicodeString_eqb_refl in H. discriminate.
  - apply orb_false_elim in H. exact (IH (proj2 H) Hin).
Qed.

Lemma OptionMap_add_NoDup k r m m' :
  OptionMap_add k r U_ZERO_ERROR m = (m', U_ZERO_ERROR) ->
  NoDup (map fst m) -> NoDup (map fst m').
Proof.
  unfold OptionMap_add. cbn [U_FAILURE].
  destruct (hasName k m) eqn:E; [discriminate|].
  intros H Hn. inversion H; subst m'. rewrite map_app. cbn [map fst].
  apply NoDup_app; [exact Hn | constructor; [intros [] | constructor] |].
  intros x Hx [<- | []]. exact (hasName_false_not_In _ _ E Hx).
Qed.

Section DistinctOptions.

Variable unisets_get : unisets.Key -> UnicodeSet.
Variable source : UnicodeString.t.

Lemma parseOption_distinct {T} `{OptionBuilder T} (adder adder' : OptionAdder T) p p' :
  (forall k r b b', addOption k r U_ZERO_ERROR b = (b', U_ZERO_ERROR) ->
                    NoDup (map fst (optionsOf b)) -> NoDup (map fst (optionsOf b'))) ->
  NoDup (map fst (optionsOf (optionBuilder adder))) ->
  parseOption unisets_get source adder p = Ok adder' p' ->
  NoDup (map fst (optionsOf (optionBuilder adder'))).
Proof.
  intros Hadd Hn E. unfold parseOption in E.
  apply bind_Ok in E. destruct E as (start & p0 & _ & E).
  apply bind_Ok in E. destruct E as (kv & p1 & _ & E).
  unfold OptionAdder_addOption in E.
  destruct (addOption (fst kv) (snd kv) U_ZERO_ERROR (optionBuilder adder)) as [b s] eqn:Ea.
  destruct s; [|discriminate]. inversion E; subst. cbn [optionBuilder].
  exact (Hadd _ _ _ _ Ea Hn).
Qed.

Lemma parseOptions_distinct {T} `{OptionBuilder T} (adder adder' : OptionAdder T) p p' :
  (forall k r b b', addOption k r U_ZERO_ERROR b = (b', U_ZERO_ERROR) ->
                    NoDup (map fst (optionsOf b)) -> NoDup (map fst (optionsOf b'))) ->
  NoDup (map fst (optionsOf (optionBuilder adder))) ->
  parseOptions unisets_get source adder p = Ok adder' p' ->
  NoDup (map fst (optionsOf (optionBuilder adder'))).
Proof.
  intros Hadd Hn E. unfold parseOptions, while in E.
  eapply (loop_invariant (fun a => NoDup (map fst (optionsOf (optionBuilder a)))));
    [| exact Hn | exact E].
  clear - Hadd. intros a p r p' Ha E.
  apply bind_Ok in E. destruct E as (n & p0 & _ & E).
  apply bind_Ok in E. destruct E as (more & p1 & _ & E).
  destruct ((0 <? n) && more).
  - apply bind_Ok in E. destruct E as (u & p2 & _ & E).
    apply bind_Ok in E. destruct E as (a' & p3 & E1 & E).
    inversion E; subst. exact (parseOption_distinct a a' p2 p' Hadd Ha E1).
  - inversion E; subst. exact Ha.
Qed.

Lemma parseAttribute_options (adder adder' : AttributeAdder Markup) p p' :
  parseAttribute unisets_get source adder p = Ok adder' p' ->
  markupOptions (attributeBuilder adder') = markupOptions (attributeBuilder adder).
Proof.
  intros E. unfold parseAttribute in E.
  apply bind_Ok in E. destruct E as (kv & p1 & _ & E).
  unfold AttributeAdder_addAttribute in E.
  cbn [addAttribute Markup_Builder_attributes] in E.
  destruct (Attributes_add (fst kv) (snd kv) U_ZERO_ERROR
              (markupAttributes (attributeBuilder adder))) as [m s].
  destruct s; [|discriminate]. inversion E; subst. reflexivity.
Qed.

Lemma parseAttributes_options (adder adder' : AttributeAdder Markup) p p' :
  parseAttributes unisets_get source adder p = Ok adder' p' ->
  markupOptions (attributeBuilder adder') = markupOptions (attributeBuilder adder).
Proof.
  intros E. unfold parseAttributes, while in E.
  eapply (loop_invariant
            (fun a => markupOptions (attributeBuilder a)
                      = markupOptions (attributeBuilder adder)));
    [| reflexivity | exact E].
  clear. intros a p r p' Ha E.
  apply bind_Ok in E. destruct E as (n & p0 & _ & E).
  apply bind_Ok in E. destruct E as (more & p1 & _ & E).
  destruct ((0 <? n) && more).
  - apply bind_Ok in E. destruct E as (u & p2 & _ & E).
    apply bind_Ok in E. destruct E as (a' & p3 & E1 & E).
    inversion E; subst. rewrite (parseAttribute_options a a' p2 p' E1). exact Ha.
  - inversion E; subst. exact Ha.
Qed.

Lemma Operator_addOption_distinct k r (b b' : Operator) :
  addOption k r U_ZERO_ERROR b = (b', U_ZERO_ERROR) ->
  NoDup (map fst (optionsOf b)) -> NoDup (map fst (optionsOf b')).
Proof.
  cbn [addOption optionsOf Operator_Builder_options].
  destruct (OptionMap_add k r U_ZERO_ERROR (operatorOptions b)) as [m s] eqn:E.
  intros H. inversion H; subst. cbn [operatorOptions]. eapply OptionMap_add_NoDup, E.
Qed.

Lemma Markup_addOption_distinct k r (b b' : Markup) :
  addOption k r U_ZERO_ERROR b = (b', U_ZERO_ERROR) ->
  NoDup (map fst (optionsOf b)) -> NoDup (map fst (optionsOf b')).
Proof.
  cbn [addOption optionsOf Markup_Builder_options].
  destruct (OptionMap_add k r U_ZERO_ERROR (markupOptions b)) as [m s] eqn:E.
  intros H. inversion H; subst. cbn [markupOptions]. eapply OptionMap_add_NoDup, E.
Qed.

Lemma parseAnnotation_distinct op p p' :
  parseAnnotation unisets_get source p = Ok op p' ->
  NoDup (map fst (operatorOptions op)).
Proof.
  intros E. unfold parseAnnotation in E.
  apply bind_Ok in E. destruct E as (f & p1 & _ & E).
  apply bind_Ok in E. destruct E as (a & p2 & E1 & E).
  inversion E; subst.
  apply (parseOptions_distinct _ a p1 p' Operator_addOption_distinct) in E1; [exact E1|].
  constructor.
Qed.

Lemma parseMarkup_distinct m p p' :
  parseMarkup unisets_get source p = Ok m p' ->
  NoDup (map fst (markupOptions m)).
Proof.
  intros E. unfold parseMarkup in E.
  apply bind_Ok in E. destruct E as (u1 & p1 & _ & E).
  apply bind_Ok in E. destruct E as (u2 & p2 & _ & E).
  apply bind_Ok in E. destruct E as (closing & p3 & _ & E).
  apply bind_Ok in E. destruct E as (u3 & p4 & _ & E).
  apply bind_Ok in E. destruct E as (name & p5 & _ & E).
  apply bind_Ok in E. destruct E as (withOptions & p6 & E1 & E).
  apply bind_Ok in E. destruct E as (a & p7 & E2 & E).
  apply bind_Ok in E. destruct E as (u4 & p8 & _ & E).
  apply bind_Ok in E. destruct E as (selfClose & p9 & _ & E).
  apply bind_Ok in E. destruct E as (kind & p10 & _ & E).
  apply bind_Ok in E. destruct E as (u5 & p11 & _ & E).
  inversion E; subst. cbn [markupOptions].
  rewrite (parseAttributes_options _ a p6 p7 E2). cbn [attributeBuilder].
  destruct closing.
  - apply bind_Ok in E1. destruct E1 as (n & q0 & _ & E1).
    apply bind_Ok in E1. destruct E1 as (more & q1 & _ & E1).
    destruct ((0 <? n) && more).
    + apply bind_Ok in E1. destruct E1 as (u & q2 & _ & E1). discriminate.
    + inversion E1; subst. cbn. constructor.
  - apply (parseOptions_distinct _ withOptions p5 p6 Markup_addOption_distinct) in E1;
      [exact E1 | constructor].
Qed.

Lemma parseAttributes_kept {T B} `{AttributeBuilder T} (f : T -> B)
    (adder adder' : AttributeAdder T) p p' :
  (forall k r b b' s, addAttribute k r U_ZERO_ERROR b = (b', s) -> f b' = f b) ->
  parseAttributes unisets_get source adder p = Ok adder' p' ->
  f (attributeBuilder adder') = f (attributeBuilder adder).
Proof.
  intros Hf E. unfold parseAttributes, while in E.
  eapply (loop_invariant (fun a => f (attributeBuilder a) = f (attributeBuilder adder)));
    [| reflexivity | exact E].
  clear - Hf. intros a p r p' Ha E.
  apply bind_Ok in E. destruct E as (n & p0 & _ & E).
  apply bind_Ok in E. destruct E as (more & p1 & _ & E).
  destruct ((0 <? n) && more).
  - apply bind_Ok in E. destruct E as (u & p2 & _ & E).
    apply bind_Ok in E. destruct E as (a' & p3 & E1 & E).
    inversion E; subst. rewrite <- Ha.
    unfold parseAttribute in E1.
    apply bind_Ok in E1. destruct E1 as (kv & q1 & _ & E1).
    unfold AttributeAdder_addAttribute in E1.
    destruct (addAttribute (fst kv) (snd kv) U_ZERO_ERROR (attributeBuilder a))
      as [b s] eqn:Ea.
    destruct s; [|discriminate]. inversion E1; subst. cbn [attributeBuilder].
    exact (Hf _ _ _ _ _ Ea).
  - inversion E; subst. exact Ha.
Qed.

Lemma Expression_addAttribute_operator k r (b b' : Expression) s :
  addAttribute k r U_ZERO_ERROR b = (b', s) -> operator b' = operator b.
Proof.
  cbn [addAttribute Expression_Builder_attributes].
  destruct (Attributes_add k r U_ZERO_ERROR (attributes b)) as [m s'].
  intros H. inversion H; subst. reflexivity.
Qed.

Lemma parseLiteralOrVariableWithAnnotation_distinct isVariable builder e p p' :
  parseLiteralOrVariableWithAnnotation unisets_get source isVariable builder p = Ok e p' ->
  match operator e with
  | Some op => NoDup (map fst (operatorOptions op))
  | None => True
  end.
Proof.
  intros E. unfold parseLiteralOrVariableWithAnnotation in E.
  apply bind_Ok in E. destruct E as (rand & p1 & _ & E).
  apply bind_Ok in E. destruct E as (n & p2 & _ & E).
  apply bind_Ok in E. destruct E as (annotated & p3 & _ & E).
  apply bind_Ok in E. destruct E as (reserved & p3' & _ & E).
  destruct ((0 <? n) && annotated).
  - apply bind_Ok in E. destruct E as (u & p4 & _ & E).
    apply bind_Ok in E. destruct E as (op & p5 & E1 & E).
    inversion E; subst. cbn [operator]. exact (parseAnnotation_distinct op p4 p' E1).
  - destruct ((0 <? n) && reserved).
    + apply bind_Ok in E. destruct E as (u & p4 & _ & E).
      apply bind_Ok in E. destruct E as (u' & p5 & _ & E).
      inversion E; subst. exact I.
    + inversion E; subst. exact I.
Qed.

Lemma parseExpression_distinct e p p' :
  parseExpression unisets_get source p = Ok e p' ->
  match operator e with
  | Some op => NoDup (map fst (operatorOptions op))
  | None => True
  end.
Proof.
  intros E. unfold parseExpression in E.
  apply bind_Ok in E. destruct E as (u1 & p1 & _ & E).
  apply bind_Ok in E. destruct E as (u2 & p2 & _ & E).
  apply bind_Ok in E. destruct E as (isVar & p3 & _ & E).
  apply bind_Ok in E. destruct E as (isLit & p4 & _ & E).
  apply bind_Ok in E. destruct E as (isFun & p5 & _ & E).
  apply bind_Ok in E. destruct E as (isReserved & p5' & _ & E).
  apply bind_Ok in E. destruct E as (builder & p6 & E1 & E).
  apply bind_Ok in E. destruct E as (a & p7 & E2 & E).
  apply bind_Ok in E. destruct E as (u3 & p8 & _ & E).
  apply bind_Ok in E. destruct E as (u4 & p9 & _ & E).
  inversion E; subst.
  rewrite (parseAttributes_kept operator _ a p6 p7 Expression_addAttribute_operator E2).
  cbn [attributeBuilder].
  destruct isVar; [exact (parseLiteralOrVariableWithAnnotation_distinct _ _ _ _ _ E1)|].
  destruct isLit; [exact (parseLiteralOrVariableWithAnnotation_distinct _ _ _ _ _ E1)|].
  destruct isFun.
  - apply bind_Ok in E1. destruct E1 as (op & q1 & E1 & E3).
    inversion E3; subst. cbn [operator]. exact (parseAnnotation_distinct op _ p6 E1).
  - destruct isReserved; [|discriminate].
    apply bind_Ok in E1. destruct E1 as (u & q1 & _ & E3).
    inversion E3; subst. exact I.
Qed.

End DistinctOptions.

(** X15: the options of every expression and of every markup that the
    parser builds have pairwise distinct names: the adder of the header
    hands each option to the builder, which refuses a name it holds, and
    the attributes parsed afterwards leave the options alone. *)
Theorem X15_option_names_distinct (unisets_get : unisets.Key -> UnicodeSet)
    (source : UnicodeString.t) (p p' : Parser) (part : PatternPart) :
  parsePlaceholder unisets_get source p = Ok part p' ->
  match part with
  | ExpressionPart e =>
      match operator e with
      | Some op => NoDup (map fst (operatorOptions op))
      | None => True
      end
  | MarkupPart m => NoDup (map fst (markupOptions m))
  | Text _ | ErrorPart => False
  end.
Proof.
  intros E. unfold parsePlaceholder in E.
  apply bind_Ok in E. destruct E as (n & p1 & _ & E).
  apply bind_Ok in E. destruct E as (isMarkup & p2 & _ & E).
  destruct isMarkup.
  - apply bind_Ok in E. destruct E as (m & p3 & E1 & E). inversion E; subst.
    exact (parseMarkup_distinct unisets_get source m p2 p' E1).
  - apply bind_Ok in E. destruct E as (e & p3 & E1 & E). inversion E; subst.
    exact (parseExpression_distinct unisets_get source e p2 p' E1).
Qed.

Lemma X15_option_names_distinct_witness :
  NoDup (map fst [(ustr "a", literal false "1"); (ustr "b", literal false "2")]).
Proof.
  assert (E : exists p',
            parsePlaceholder mf2_unisets (ustr "{$x :number a=1 b=2}")
              (Parser_new emptyDataModel [] [] [] [])
            = Ok (ExpressionPart
                    (mkExpression (VariableOperand (ustr "x"))
                       (Some (mkOperator (ustr "number")
                                [(ustr "a", literal false "1");
                                 (ustr "b", literal false "2")])) [])) p').
  { eexists. vm_compute. reflexivity. }
  destruct E as [p' E].
  exact (X15_option_names_distinct mf2_unisets (ustr "{$x :number a=1 b=2}")
           (Parser_new emptyDataModel [] [] [] []) p' _ E).
Defined.
